(** * TSDuck XML node tree: sibling rings, reparenting and parseContinue

    A shallow embedding of [ts::xml::Node] (tsxmlNode.cpp).  Nodes live in
    a heap indexed by addresses; every C++ [Node*] is an [option addr]
    whose [None] is the null pointer.  A dereference of an address that is
    not live gets stuck ([None] of the option monad), as does a loop that
    exhausts its fuel.

    The file has the program first, then the vocabulary of the statements
    (the ring invariant, trees, what a call establishes), then the lemmas
    on [reparent], [clear] and [parseContinue], then the claims of the
    specification. *)

From stdpp Require Import gmap strings list fin_maps.
From Stdlib Require Import NArith Lia.

Abbreviation addr := positive.

(** ** Data model *)

(** The dynamic type of a node, as tested by the [dynamic_cast]s of
    parseContinue. *)
Inductive NodeType := Document | Declaration | Element | Text.

Inductive ClosingType := OPEN | CLOSED | CLOSING.

#[global] Instance NodeType_eq_dec : EqDecision NodeType.
Proof. solve_decision. Defined.

#[global] Instance ClosingType_eq_dec : EqDecision ClosingType.
Proof. solve_decision. Defined.

(** The fields of [Node], then the two links of its [RingNode] base. *)
Record Node := mkNode {
  node_type : NodeType;
  _value : string;
  _parent : option addr;
  _firstChild : option addr;
  _inputLineNum : N;
  _closingType : ClosingType;
  _ring_next : addr;
  _ring_previous : addr
}.

Definition with_value (v : string) (n : Node) : Node :=
  mkNode (node_type n) v (_parent n) (_firstChild n) (_inputLineNum n)
         (_closingType n) (_ring_next n) (_ring_previous n).

Definition with_parent (p : option addr) (n : Node) : Node :=
  mkNode (node_type n) (_value n) p (_firstChild n) (_inputLineNum n)
         (_closingType n) (_ring_next n) (_ring_previous n).

Definition with_firstChild (c : option addr) (n : Node) : Node :=
  mkNode (node_type n) (_value n) (_parent n) c (_inputLineNum n)
         (_closingType n) (_ring_next n) (_ring_previous n).

Definition with_inputLineNum (l : N) (n : Node) : Node :=
  mkNode (node_type n) (_value n) (_parent n) (_firstChild n) l
         (_closingType n) (_ring_next n) (_ring_previous n).

Definition with_closingType (c : ClosingType) (n : Node) : Node :=
  mkNode (node_type n) (_value n) (_parent n) (_firstChild n) (_inputLineNum n)
         c (_ring_next n) (_ring_previous n).

Definition with_ring_next (a : addr) (n : Node) : Node :=
  mkNode (node_type n) (_value n) (_parent n) (_firstChild n) (_inputLineNum n)
         (_closingType n) a (_ring_previous n).

Definition with_ring_previous (a : addr) (n : Node) : Node :=
  mkNode (node_type n) (_value n) (_parent n) (_firstChild n) (_inputLineNum n)
         (_closingType n) (_ring_next n) a.

Abbreviation Heap := (gmap positive Node).

(** A write through a pointer: stuck when the target is not live. *)
Definition modify (a : addr) (f : Node → Node) (h : Heap) : option Heap :=
  n ← h !! a; Some (<[a := f n]> h).

(** ** Node constructor

    [Node(line)]: empty value, [_parent(this)], no child, the given line,
    OPEN, and a ring of one. *)
Definition new_Node (ty : NodeType) (line : N) (this : addr) : Node :=
  mkNode ty "" (Some this) None line OPEN this this.

(** ** RingNode *)

(** Modelled from the spec: the [RingNode] base class is not among the
    sources.  "ringIsAlone returns true exactly when a node's next pointer
    refers to itself." *)
Definition ringAlone (this : addr) (h : Heap) : option bool :=
  n ← h !! this; Some (bool_decide (_ring_next n = this)).

(** Modelled from the spec: [RingNode::ringNext] is not among the sources;
    it is the next member in circular order. *)
Definition ringNext (this : addr) (h : Heap) : option addr :=
  n ← h !! this; Some (_ring_next n).

(** Modelled from the spec: [RingNode::ringRemove] is not among the
    sources.  "remove splices the node out and re-links its former
    neighbors"; the removed node is then "alone in its own ring". *)
Definition ringRemove (this : addr) (h : Heap) : option Heap :=
  n ← h !! this;
  h1 ← modify (_ring_next n) (with_ring_previous (_ring_previous n)) h;
  h2 ← modify (_ring_previous n) (with_ring_next (_ring_next n)) h1;
  modify this (λ m, with_ring_next this (with_ring_previous this m)) h2.

(** Modelled from the spec: [RingNode::ringInsertBefore] is not among the
    sources.  "Insert-before splices the node immediately preceding anchor
    in circular order." *)
Definition ringInsertBefore (this anchor : addr) (h : Heap) : option Heap :=
  a ← h !! anchor;
  h1 ← modify this (λ m, with_ring_next anchor (with_ring_previous (_ring_previous a) m)) h;
  h2 ← modify (_ring_previous a) (with_ring_next this) h1;
  modify anchor (with_ring_previous this) h2.

(** ** Node accessors *)

Definition firstChild (this : addr) (h : Heap) : option (option addr) :=
  n ← h !! this; Some (_firstChild n).

Definition lineNumber (this : addr) (h : Heap) : option N :=
  n ← h !! this; Some (_inputLineNum n).

(** ** reparent *)

(** "Detach from our parent": the first block of [reparent], run when
    [_parent != 0]. *)
Definition detach (this p : addr) (h : Heap) : option Heap :=
  pn ← h !! p;
  h1 ← (if decide (_firstChild pn = Some this) then
          alone ← ringAlone this h;
          next ← ringNext this h;
          modify p (with_firstChild (if alone : bool then None else Some next)) h
        else Some h);
  ringRemove this h1.

(** "Insert inside new parent structure": the last block of [reparent],
    run when the new [_parent != 0]. *)
Definition attach (this p : addr) (h : Heap) : option Heap :=
  pn ← h !! p;
  match _firstChild pn with
  | None => modify p (with_firstChild (Some this)) h
  | Some first => ringInsertBefore this first h
  end.

Definition reparent (this : addr) (newParent : option addr) (h : Heap) : option Heap :=
  n ← h !! this;
  if decide (newParent = _parent n) then Some h
  else
    h1 ← match _parent n with
         | Some p => detach this p h
         | None => Some h
         end;
    h2 ← modify this (with_parent newParent) h1;
    match newParent with
    | Some p => attach this p h2
    | None => Some h2
    end.

(** ** nextSibling *)

Definition nextSibling (this : addr) (h : Heap) : option (option addr) :=
  n ← h !! this;
  let next := _ring_next n in
  if decide (next = this) then Some None
  else match _parent n with
       | Some p =>
           pn ← h !! p;
           Some (if decide (Some next = _firstChild pn) then None else Some next)
       | None => Some (Some next)
       end.

(** The walk [for (ch = firstChild(); ch != 0; ch = ch->nextSibling())]
    started at [ch], collecting the nodes it visits. *)
Fixpoint siblings (fuel : nat) (ch : option addr) (h : Heap) : option (list addr) :=
  match ch with
  | None => Some []
  | Some c =>
      match fuel with
      | 0 => None
      | S f =>
          nx ← nextSibling c h;
          l ← siblings f nx h;
          Some (c :: l)
      end
  end.

Definition children (fuel : nat) (this : addr) (h : Heap) : option (list addr) :=
  fc ← firstChild this h; siblings fuel fc h.

(** ** clear and the destructor *)

(** [delete node]: the destructor [~Node] runs [clear(); reparent(0);],
    then the storage is released.  [clear_rec] is [clear] on the node. *)
Definition delete_Node (clear_rec : addr → Heap → option Heap)
    (node : addr) (h : Heap) : option Heap :=
  h1 ← clear_rec node h;
  h2 ← reparent node None h1;
  Some (delete node h2).

Definition reset_scalars (n : Node) : Node :=
  with_inputLineNum 0%N (with_value "" n).

(** [clear]: each unit of fuel pays for one test of the [while] condition;
    when [_firstChild] is null the scalar fields are reset. *)
Fixpoint clear (fuel : nat) (this : addr) (h : Heap) : option Heap :=
  match fuel with
  | 0 => None
  | S f =>
      n ← h !! this;
      match _firstChild n with
      | Some c => h1 ← delete_Node (clear f) c h; clear f this h1
      | None => modify this reset_scalars h
      end
  end.

(** ** The parser front

    The tokenizer and the diagnostics sink ([ts::xml::Parser]) are not
    among the sources; they are modelled from the spec. *)

(** Modelled from the spec: what the tokenizer knows of a node it has
    recognized.  "a RawNode carries at minimum a kind tag
    (Declaration/Element/Text/ClosingTag), value, and lineNumber." *)
Record RawNode := mkRaw {
  raw_type : NodeType;
  raw_value : string;
  raw_line : N;
  raw_closing : ClosingType
}.

(** Modelled from the spec: the state of [ts::xml::Parser], scan position
    and diagnostics sink.  The scan position is the list of the answers
    [identify] has yet to give: [Some r] yields a node, [None] is a point
    where the tokenizer yields none to the context that asks ("for a nested
    context -- because a matching close tag was consumed and context
    returned control to the caller"); once the list is exhausted the answer
    is none for ever ("none at end of input"). *)
Record Parser := mkParser {
  input : list (option RawNode);
  report : list (N * string)
}.

(** Modelled from the spec: [Parser::errorAtLine] is not among the
    sources.  "errorAtLine(line, message, args) -- records a structural
    error; never throws; multiple calls per parse are expected and must all
    be preserved for the caller."  Every call of the source passes no
    [args]. *)
Definition errorAtLine (p : Parser) (line : N) (message : string) : Parser :=
  mkParser (input p) (report p ++ [(line, message)]).

(** Modelled from the spec: the candidate the tokenizer builds from the
    token [raw], a node made by the [Node] constructor, then given its
    value and closing type. *)
Definition candidate (raw : RawNode) (a : addr) : Node :=
  with_closingType (raw_closing raw)
    (with_value (raw_value raw) (new_Node (raw_type raw) (raw_line raw) a)).

(** Modelled from the spec: [Parser::identify] is not among the sources.
    "identify() -> optional<RawNode> -- returns the next recognizable node
    starting at the current scan position, or none at end of input;
    advances internal scan position as a side effect."  The candidate is
    built at an address that is not live. *)
Definition identify (p : Parser) (h : Heap) : option addr * Parser * Heap :=
  match input p with
  | [] => (None, p, h)
  | None :: rest => (None, mkParser rest (report p), h)
  | Some r :: rest =>
      let a := fresh (dom h) in
      (Some a, mkParser rest (report p), <[a := candidate r a]> h)
  end.

(** ** parseContinue *)

Definition msg_parsing_error : string := "parsing error".
Definition msg_not_in_document : string :=
  "misplaced declaration, not directly inside a document".
Definition msg_not_at_beginning : string :=
  "misplaced declaration, must be at the beginning of the document".

(** "Check that all preceding nodes are declarations as well":
    [for (ch = firstChild(); thisOneOk && ch != 0; ch = ch->nextSibling())]
    entered at [ch]. *)
Fixpoint checkPreceding (fuel : nat) (node : addr) (ch : option addr)
    (thisOneOk : bool) (p : Parser) (h : Heap) : option (bool * Parser) :=
  if thisOneOk then
    match ch with
    | None => Some (thisOneOk, p)
    | Some c =>
        match fuel with
        | 0 => None
        | S f =>
            cn ← h !! c;
            '(ok, p1) ← (if decide (node_type cn = Declaration) then Some (thisOneOk, p)
                         else line ← lineNumber node h;
                              Some (false, errorAtLine p line msg_not_at_beginning));
            nx ← nextSibling c h;
            checkPreceding f node nx ok p1 h
        end
    end
  else Some (thisOneOk, p).

(** The "special checks for a few types" made on a candidate whose own
    parse succeeded.  The branch for an [Element] is empty in the source
    (its body is commented out). *)
Definition specialChecks (fuel : nat) (this node : addr) (p : Parser) (h : Heap)
    : option (bool * Parser) :=
  nn ← h !! node;
  if decide (node_type nn = Declaration) then
    tn ← h !! this;
    '(ok, p1) ← (if decide (node_type tn = Document) then Some (true, p)
                 else line ← lineNumber node h;
                      Some (false, errorAtLine p line msg_not_in_document));
    fc ← firstChild this h;
    checkPreceding fuel node fc ok p1 h
  else Some (true, p).

(** The first half of the loop body: "read the complete node" through
    [nested], the call [node->parseContinue(parser, endToken)], and
    compute [thisOneOk]. *)
Definition readNode (nested : addr → Parser → Heap → option (bool * Parser * Heap))
    (fuel : nat) (this node : addr) (p : Parser) (h : Heap)
    : option (bool * Parser * Heap) :=
  '(ok, p1, h1) ← nested node p h;
  if ok : bool then
    '(thisOneOk, p2) ← specialChecks fuel this node p1 h1;
    Some (thisOneOk, p2, h1)
  else
    line ← lineNumber node h1;
    Some (false, errorAtLine p1 line msg_parsing_error, h1).

(** The [while] loop of [parseContinue], entered with the current value of
    [result].  The source has the one implementation of [parseContinue],
    that of the base [Node], which every candidate runs; [endToken] is
    passed along and never read or written, and is left out. *)
Fixpoint parseLoop (fuel : nat) (this : addr) (result : bool)
    (p : Parser) (h : Heap) : option (bool * Parser * Heap) :=
  match fuel with
  | 0 => None
  | S f =>
      match identify p h with
      | (None, p1, h1) => Some (result, p1, h1)
      | (Some node, p1, h1) =>
          '(thisOneOk, p2, h2) ← readNode (λ n, parseLoop f n true) f this node p1 h1;
          if thisOneOk : bool then
            h3 ← reparent node (Some this) h2;
            parseLoop f this result p2 h3
          else
            h3 ← delete_Node (clear f) node h2;
            parseLoop f this false p2 h3
      end
  end.

Definition parseContinue (fuel : nat) (this : addr) (p : Parser) (h : Heap)
    : option (bool * Parser * Heap) :=
  parseLoop fuel this true p h.

(** One turn of the loop, as seen from outside: the candidate [identify]
    yielded, its [thisOneOk], and the entries reported during the turn. *)
Record Iteration := mkIteration {
  it_node : addr;
  it_ok : bool;
  it_entries : list (N * string)
}.

(** The turns of the loop of [parseContinue] on [this], in order. *)
Fixpoint loopTrace (fuel : nat) (this : addr) (p : Parser) (h : Heap)
    : option (list Iteration) :=
  match fuel with
  | 0 => None
  | S f =>
      match identify p h with
      | (None, _, _) => Some []
      | (Some node, p1, h1) =>
          '(thisOneOk, p2, h2) ← readNode (λ n, parseLoop f n true) f this node p1 h1;
          h3 ← (if thisOneOk : bool then reparent node (Some this) h2
                else delete_Node (clear f) node h2);
          t ← loopTrace f this p2 h3;
          Some (mkIteration node thisOneOk (drop (length (report p1)) (report p2)) :: t)
      end
  end.

(** * Vocabulary of the statements *)

(** ** Views of the heap, one per field *)

Definition parentOf (h : Heap) (a : addr) : option (option addr) := _parent <$> h !! a.
Definition firstOf (h : Heap) (a : addr) : option (option addr) := _firstChild <$> h !! a.
Definition nextOf (h : Heap) (a : addr) : option addr := _ring_next <$> h !! a.
Definition prevOf (h : Heap) (a : addr) : option addr := _ring_previous <$> h !! a.

(** The fields no tree operation but [clear] writes. *)
Definition scalars (n : Node) : NodeType * string * N * ClosingType :=
  (node_type n, _value n, _inputLineNum n, _closingType n).
Definition scalarsOf (h : Heap) (a : addr) := scalars <$> h !! a.

(** ** Rings and lists of children *)

Definition linked (h : Heap) (x y : addr) : Prop :=
  nextOf h x = Some y ∧ prevOf h y = Some x.

(** [path h x l]: from [x], the links lead through the members of [l] in
    turn. *)
Fixpoint path (h : Heap) (x : addr) (l : list addr) : Prop :=
  match l with
  | [] => True
  | y :: l' => linked h x y ∧ path h y l'
  end.

(** The members of [l] form a circle, in this order. *)
Definition ring (h : Heap) (l : list addr) : Prop :=
  match l with
  | [] => True
  | c :: r => path h c (r ++ [c])
  end.

(** [c] is attached under [a].  A node fresh from the constructor has
    [_parent == this] and is a child of nobody. *)
Definition is_child (h : Heap) (c a : addr) : Prop :=
  c ≠ a ∧ parentOf h c = Some (Some a).

(** [c] has no parent: [_parent] is null, or [c] itself as the
    constructor sets it. *)
Definition is_root (h : Heap) (c : addr) : Prop :=
  parentOf h c = Some None ∨ parentOf h c = Some (Some c).

(** [l] is the list of the children of [a], from [_firstChild] on. *)
Definition kids (h : Heap) (a : addr) (l : list addr) : Prop :=
  firstOf h a = Some (head l) ∧ NoDup l ∧ (∀ c, c ∈ l ↔ is_child h c a) ∧ ring h l.

(** The ring invariant: every live node has its list of children, every
    parent is live, and a node that has no parent is alone in its ring. *)
Record ring_inv (h : Heap) : Prop := {
  inv_kids : ∀ a, is_Some (h !! a) → ∃ l, kids h a l;
  inv_parent : ∀ c p, parentOf h c = Some (Some p) → is_Some (h !! p);
  inv_root : ∀ c, is_root h c → linked h c c
}.

#[global] Instance is_child_dec (h : Heap) (c a : addr) : Decision (is_child h c a).
Proof. unfold is_child. apply _. Defined.

(** [l] with [this] taken out. *)
Definition without (this : addr) (l : list addr) : list addr :=
  filter (λ x, x ≠ this) l.

(** A node as the constructor leaves it, up to its scalar fields. *)
Definition constructed (a : addr) (n : Node) : Prop :=
  _parent n = Some a ∧ _firstChild n = None ∧ _ring_next n = a ∧ _ring_previous n = a.

(** [reparent(p)] on the nodes of a list, one after another. *)
Fixpoint attach_all (nodes : list addr) (p : addr) (h : Heap) : option Heap :=
  match nodes with
  | [] => Some h
  | n :: rest => h1 ← reparent n (Some p) h; attach_all rest p h1
  end.

(** ** Trees and what [clear] leaves behind *)

(** No node is its own ancestor: a rank goes down from parent to child. *)
Definition ranked (h : Heap) (rk : addr → nat) : Prop :=
  ∀ c p, is_child h c p → rk c < rk p.

(** [x] is a child of [a], or a child of a descendant of [a]. *)
Inductive descendant (h : Heap) : addr → addr → Prop :=
| desc_child x a : is_child h x a → descendant h x a
| desc_step x y a : is_child h x y → descendant h y a → descendant h x a.

(** What [clear] leaves behind: the node has no child and its scalar
    fields are reset, its descendants are gone, every other node is
    untouched. *)
Record cleared (this : addr) (h h' : Heap) : Prop := {
  cleared_inv : ring_inv h';
  cleared_this : ∃ n, h !! this = Some n ∧
                      h' !! this = Some (reset_scalars (with_firstChild None n));
  cleared_frame : ∀ x, x ≠ this → ¬ descendant h x this → h' !! x = h !! x;
  cleared_sub : ∀ x, x ≠ this → h' !! x = None ∨ h' !! x = h !! x;
  cleared_children : ∀ c, is_child h c this → h' !! c = None
}.

(** A well-formed heap: sound rings, and trees. *)
Definition wf (h : Heap) : Prop := ring_inv h ∧ ∃ rk, ranked h rk.

(** [x] is outside the tree rooted at [node]. *)
Definition outside (h : Heap) (node x : addr) : Prop :=
  x ≠ node ∧ ¬ descendant h x node.

(** ** What [parseContinue] decides and establishes *)

Definition typeOf (h : Heap) (a : addr) : option NodeType := node_type <$> h !! a.

Definition decl_at (h : Heap) (c : addr) : bool :=
  bool_decide (typeOf h c = Some Declaration).

Definition all_declarations (h : Heap) (l : list addr) : bool := forallb (decl_at h) l.

(** What the loop body decides for a candidate, given whether its own
    parse succeeded, its type, the type of the context, and whether the
    children of the context are all declarations. *)
Definition verdict (ok : bool) (tyN tyT : NodeType) (alldecl : bool) (line : N)
    : bool * list (N * string) :=
  if ok then
    if decide (tyN = Declaration) then
      if decide (tyT = Document) then
        if alldecl then (true, []) else (false, [(line, msg_not_at_beginning)])
      else (false, [(line, msg_not_in_document)])
    else (true, [])
  else (false, [(line, msg_parsing_error)]).

Definition report_more (p : Parser) (es : list (N * string)) : Parser :=
  mkParser (input p) (report p ++ es).

Definition attached (tr : list Iteration) : list addr :=
  map it_node (filter (λ e, it_ok e = true) tr).

(** What a call of [parseContinue] on [this] establishes. *)
Record parsed (this : addr) (result : bool) (p : Parser) (h : Heap)
    (r : bool) (p' : Parser) (h' : Heap) (tr : list Iteration) : Prop := {
  parsed_wf : wf h';
  parsed_same : ∀ x, is_Some (h !! x) →
                     scalarsOf h' x = scalarsOf h x ∧ parentOf h' x = parentOf h x;
  parsed_others : ∀ a l, a ≠ this → kids h a l → kids h' a l;
  parsed_kids : ∀ l0, kids h this l0 → kids h' this (l0 ++ attached tr);
  parsed_input : length (input p') ≤ length (input p);
  parsed_report : report p' = report p ++ concat (map it_entries tr);
  parsed_result : r = result && forallb it_ok tr;
  parsed_entries : Forall (λ e, if it_ok e then it_entries e = []
                                else ∃ nested own, it_entries e = nested ++ [own]) tr
}.

Definition rejected (tr : list Iteration) : list Iteration :=
  filter (λ e, it_ok e = false) tr.

(** [p'] comes after [p]: what [identify] has yet to give is a final part
    of what it had, and the report has only grown at its end. *)
Definition after (p p' : Parser) : Prop :=
  input p' `suffix_of` input p ∧ report p `prefix_of` report p'.

(** ** Concrete heaps and inputs *)

(** Four nodes fresh from their constructors: a document and the raw
    nodes of [<a/><b/><c/>]. *)
Definition nodes4 : Heap :=
  <[4%positive := with_value "c" (new_Node Element 1 4%positive)]>
    (<[3%positive := with_value "b" (new_Node Element 1 3%positive)]>
       (<[2%positive := with_value "a" (new_Node Element 1 2%positive)]>
          (<[1%positive := new_Node Document 1 1%positive]> ∅))).

(** The document after [a] was attached, and after all three were. *)
Definition heap1 : Heap := default ∅ (attach_all [2%positive] 1%positive nodes4).
Definition heap3 : Heap :=
  default ∅ (attach_all [2; 3; 4]%positive 1%positive nodes4).

(** An empty document, an empty element. *)
Definition doc0 : Heap := <[1%positive := new_Node Document 1 1%positive]> ∅.
Definition elem0 : Heap := <[1%positive := with_value "a" (new_Node Element 1 1%positive)]> ∅.

(** The document whose children are [a] and [b], [c] moved under [b]. *)
Definition heap_nested : Heap :=
  default ∅ (reparent 4%positive (Some 3%positive) heap3).

(** The element [a] with one child, the element [b]. *)
Definition elem1 : Heap :=
  default ∅ (reparent 2%positive (Some 1%positive)
               (<[2%positive := with_value "b" (new_Node Element 2 2%positive)]> elem0)).

Definition elt (v : string) (l : N) (c : ClosingType) : option RawNode :=
  Some (mkRaw Element v l c).
Definition decl (l : N) : option RawNode := Some (mkRaw Declaration "xml" l OPEN).

Definition well_nested : list (option RawNode) :=
  [elt "a" 1 OPEN; elt "b" 1 OPEN; elt "b" 1 CLOSING; elt "a" 1 CLOSING].
Definition mismatched : list (option RawNode) :=
  [elt "a" 1 OPEN; elt "b" 1 OPEN; elt "c" 1 CLOSING; elt "a" 1 CLOSING].

(** The tokens of [<a></b>] and of [<c></d>], one after the other. *)
Definition two_mismatched : list (option RawNode) :=
  [elt "a" 1 OPEN; elt "b" 1 CLOSING; None; None; elt "c" 2 OPEN; elt "d" 2 CLOSING].

Definition two_errors : list (option RawNode) :=
  [elt "a" 1 CLOSED; None; decl 2; None; elt "b" 3 CLOSED; None; decl 4].

Definition three_children : list (option RawNode) :=
  [elt "a" 1 CLOSED; None; elt "b" 2 CLOSED; None; elt "c" 3 CLOSED].

(** * Lemmas *)

Lemma node_ext (n m : Node) :
  scalars n = scalars m → _parent n = _parent m → _firstChild n = _firstChild m →
  _ring_next n = _ring_next m → _ring_previous n = _ring_previous m → n = m.
Proof.
  destruct n, m; unfold scalars; simpl; intros; simplify_eq; reflexivity.
Qed.

Lemma heap_lookup_ext (h h' : Heap) (a : addr) :
  scalarsOf h' a = scalarsOf h a → parentOf h' a = parentOf h a →
  firstOf h' a = firstOf h a → nextOf h' a = nextOf h a →
  prevOf h' a = prevOf h a → h' !! a = h !! a.
Proof.
  unfold scalarsOf, parentOf, firstOf, nextOf, prevOf.
  destruct (h' !! a) as [n|], (h !! a) as [m|]; simpl; try congruence.
  intros. f_equal. apply node_ext; congruence.
Qed.

Lemma modify_Some (a : addr) (f : Node → Node) (h : Heap) (n : Node) :
  h !! a = Some n → modify a f h = Some (<[a := f n]> h).
Proof. intros E. unfold modify. rewrite E. reflexivity. Qed.

Lemma modify_inv (a : addr) (f : Node → Node) (h h' : Heap) :
  modify a f h = Some h' → ∃ n, h !! a = Some n ∧ h' = <[a := f n]> h.
Proof.
  unfold modify. destruct (h !! a) as [n|]; simpl; [|discriminate].
  intros [= <-]. eauto.
Qed.

Ltac heap_cases :=
  unfold scalarsOf, parentOf, firstOf, nextOf, prevOf in *;
  repeat (rewrite lookup_insert in * );
  repeat (case_decide; simplify_eq; simpl in * );
  repeat match goal with
         | H : ?h !! ?a = _ |- context [?h !! ?a] => rewrite H
         end;
  simpl; try congruence; try done.

(** *** What the ring operations do to each view *)

Lemma ringRemove_spec (this nx pv : addr) (h : Heap) :
  nextOf h this = Some nx → prevOf h this = Some pv →
  is_Some (h !! nx) → is_Some (h !! pv) →
  ∃ h', ringRemove this h = Some h' ∧
    (∀ x, nextOf h' x = if decide (x = this) then Some this
                         else if decide (x = pv) then Some nx else nextOf h x) ∧
    (∀ x, prevOf h' x = if decide (x = this) then Some this
                         else if decide (x = nx) then Some pv else prevOf h x) ∧
    (∀ x, parentOf h' x = parentOf h x) ∧
    (∀ x, firstOf h' x = firstOf h x) ∧
    (∀ x, scalarsOf h' x = scalarsOf h x).
Proof.
  unfold nextOf, prevOf. intros Hn Hp [nn Hnn] [pn Hpn].
  destruct (h !! this) as [n|] eqn:E; simpl in *; [|discriminate].
  injection Hn as Hn. injection Hp as Hp.
  unfold ringRemove. rewrite E. simpl. rewrite Hn, Hp. clear Hn Hp.
  rewrite (modify_Some _ _ _ _ Hnn). simpl.
  set (h1 := <[nx := _]> h).
  assert (is_Some (h1 !! pv)) as [pn1 Hpn1].
  { subst h1. rewrite lookup_insert. case_decide; eauto. }
  rewrite (modify_Some _ _ _ _ Hpn1). simpl.
  set (h2 := <[pv := _]> h1).
  assert (is_Some (h2 !! this)) as [tn2 Htn2].
  { subst h2 h1. rewrite !lookup_insert. repeat case_decide; eauto. }
  rewrite (modify_Some _ _ _ _ Htn2).
  eexists; split; [reflexivity|].
  subst h2 h1. rewrite !lookup_insert in Htn2, Hpn1.
  repeat split; intros x; heap_cases.
Qed.

Lemma ringInsertBefore_spec (this anchor lst : addr) (h : Heap) :
  prevOf h anchor = Some lst → is_Some (h !! this) → is_Some (h !! lst) →
  ∃ h', ringInsertBefore this anchor h = Some h' ∧
    (∀ x, nextOf h' x = if decide (x = lst) then Some this
                         else if decide (x = this) then Some anchor else nextOf h x) ∧
    (∀ x, prevOf h' x = if decide (x = anchor) then Some this
                         else if decide (x = this) then Some lst else prevOf h x) ∧
    (∀ x, parentOf h' x = parentOf h x) ∧
    (∀ x, firstOf h' x = firstOf h x) ∧
    (∀ x, scalarsOf h' x = scalarsOf h x).
Proof.
  unfold prevOf. intros Hp [tn Htn] [ln Hln].
  destruct (h !! anchor) as [an|] eqn:E; simpl in *; [|discriminate].
  injection Hp as Hp. unfold ringInsertBefore. rewrite E. simpl.
  rewrite (modify_Some _ _ _ _ Htn). simpl. rewrite Hp. clear Hp.
  set (h1 := <[this := _]> h).
  assert (is_Some (h1 !! lst)) as [l1 Hl1].
  { subst h1. rewrite lookup_insert. case_decide; eauto. }
  rewrite (modify_Some _ _ _ _ Hl1). simpl.
  set (h2 := <[lst := _]> h1).
  assert (is_Some (h2 !! anchor)) as [a2 Ha2].
  { subst h2 h1. rewrite !lookup_insert. repeat case_decide; eauto. }
  rewrite (modify_Some _ _ _ _ Ha2).
  eexists; split; [reflexivity|].
  subst h2 h1. rewrite !lookup_insert in Ha2, Hl1.
  repeat split; intros x; heap_cases.
Qed.

Lemma modify_firstChild_spec (a : addr) (v : option addr) (h : Heap) :
  is_Some (h !! a) →
  ∃ h', modify a (with_firstChild v) h = Some h' ∧
    (∀ x, firstOf h' x = if decide (x = a) then Some v else firstOf h x) ∧
    (∀ x, nextOf h' x = nextOf h x) ∧ (∀ x, prevOf h' x = prevOf h x) ∧
    (∀ x, parentOf h' x = parentOf h x) ∧ (∀ x, scalarsOf h' x = scalarsOf h x).
Proof.
  intros [n Hn]. rewrite (modify_Some _ _ _ _ Hn).
  eexists; split; [reflexivity|]. repeat split; intros x; heap_cases.
Qed.

Lemma modify_parent_spec (a : addr) (v : option addr) (h : Heap) :
  is_Some (h !! a) →
  ∃ h', modify a (with_parent v) h = Some h' ∧
    (∀ x, parentOf h' x = if decide (x = a) then Some v else parentOf h x) ∧
    (∀ x, nextOf h' x = nextOf h x) ∧ (∀ x, prevOf h' x = prevOf h x) ∧
    (∀ x, firstOf h' x = firstOf h x) ∧ (∀ x, scalarsOf h' x = scalarsOf h x).
Proof.
  intros [n Hn]. rewrite (modify_Some _ _ _ _ Hn).
  eexists; split; [reflexivity|]. repeat split; intros x; heap_cases.
Qed.

(** ** The ring invariant *)

Lemma last_cons (l : list addr) (x y : addr) :
  List.last (y :: l) x = List.last l y.
Proof.
  revert x y. induction l as [|z l IH]; intros x y; [done|].
  change (List.last (y :: z :: l) x) with (List.last (z :: l) x).
  by rewrite !IH.
Qed.

Lemma last_elem (l : list addr) (x : addr) : List.last l x ∈ x :: l.
Proof.
  revert x. induction l as [|y l IH]; intros x.
  - simpl. apply list_elem_of_here.
  - rewrite last_cons. apply list_elem_of_further, IH.
Qed.

Lemma path_app (h : Heap) (x : addr) (l1 l2 : list addr) :
  path h x (l1 ++ l2) ↔ path h x l1 ∧ path h (List.last l1 x) l2.
Proof.
  revert x. induction l1 as [|y l1 IH]; intros x.
  - simpl. tauto.
  - rewrite <- app_comm_cons. cbn [path]. rewrite IH, last_cons. tauto.
Qed.

Lemma last_snoc (l : list addr) (x d : addr) : List.last (l ++ [x]) d = x.
Proof. apply last_last. Qed.

Lemma ring_rotate1 (h : Heap) (x : addr) (l : list addr) :
  ring h (x :: l) ↔ ring h (l ++ [x]).
Proof.
  destruct l as [|y l]; simpl; [tauto|].
  rewrite !path_app. rewrite last_snoc. simpl. tauto.
Qed.

Lemma ring_rotate (h : Heap) (l1 l2 : list addr) :
  ring h (l1 ++ l2) ↔ ring h (l2 ++ l1).
Proof.
  revert l2. induction l1 as [|x l1 IH]; intros l2.
  - rewrite app_nil_r. tauto.
  - rewrite <- app_comm_cons, ring_rotate1, <- app_assoc, IH.
    rewrite <- app_assoc. simpl. tauto.
Qed.

(** Links survive where the fields they read are left alone. *)
Lemma path_frame (h h' : Heap) (x : addr) (l : list addr) :
  NoDup (x :: l) →
  (∀ y, y ∈ x :: l → y ≠ List.last l x → nextOf h' y = nextOf h y) →
  (∀ y, y ∈ l → prevOf h' y = prevOf h y) →
  path h x l → path h' x l.
Proof.
  revert x. induction l as [|y l IH]; intros x Hnd Hn Hp; simpl; [done|].
  intros [[H1 H2] H3]. apply NoDup_cons in Hnd as [Hx Hnd].
  split.
  - split.
    + rewrite Hn; [done|set_solver|]. rewrite last_cons.
      intros ->. apply Hx, last_elem.
    + rewrite Hp; [done|set_solver].
  - apply IH; [done| |set_solver|done].
    intros z Hz Hne. apply Hn; [set_solver|]. by rewrite last_cons.
Qed.

Lemma path_frame_all (h h' : Heap) (x : addr) (l : list addr) :
  (∀ y, y ∈ x :: l → nextOf h' y = nextOf h y ∧ prevOf h' y = prevOf h y) →
  path h x l → path h' x l.
Proof.
  revert x. induction l as [|y l IH]; intros x Hf; simpl; [done|].
  intros [[H1 H2] H3]. split.
  - split.
    + destruct (Hf x) as [-> _]; [set_solver|done].
    + destruct (Hf y) as [_ ->]; [set_solver|done].
  - apply IH; [|done]. intros z Hz. apply Hf. set_solver.
Qed.

Lemma ring_frame (h h' : Heap) (l : list addr) :
  (∀ y, y ∈ l → nextOf h' y = nextOf h y ∧ prevOf h' y = prevOf h y) →
  ring h l → ring h' l.
Proof.
  destruct l as [|c r]; simpl; [done|]. intros Hf.
  apply path_frame_all. intros y Hy. apply Hf. set_solver.
Qed.

(** Splicing the head out of a ring. *)
Lemma ring_remove_head (h h' : Heap) (m nx pv : addr) (r : list addr) :
  NoDup (m :: r) → ring h (m :: r) →
  nextOf h m = Some nx → prevOf h m = Some pv →
  (∀ x, nextOf h' x = if decide (x = m) then Some m
                       else if decide (x = pv) then Some nx else nextOf h x) →
  (∀ x, prevOf h' x = if decide (x = m) then Some m
                       else if decide (x = nx) then Some pv else prevOf h x) →
  ring h' r ∧ linked h' m m.
Proof.
  intros Hnd Hr Hnx Hpv Hn Hp. split.
  - destruct r as [|b l]; [done|]. simpl in *.
    apply NoDup_cons in Hnd as [Hm Hnd].
    destruct Hr as [[Hmb _] Hr]. apply path_app in Hr as [Hr [[Ha1 Ha2] _]].
    assert (nx = b) as -> by congruence.
    assert (pv = List.last l b) as -> by congruence.
    assert (List.last l b ≠ m) as Hlm.
    { intros E. apply Hm. rewrite <- E. apply last_elem. }
    apply path_app. split; [|simpl; split; [|done]].
    + eapply path_frame; [done| | |done].
      * intros y Hy Hne. rewrite Hn. rewrite decide_False by set_solver.
        by rewrite decide_False.
      * intros y Hy. rewrite Hp. rewrite decide_False by set_solver.
        rewrite decide_False; [done|]. apply NoDup_cons in Hnd. set_solver.
    + split.
      * rewrite Hn. rewrite decide_False by done. by rewrite decide_True.
      * rewrite Hp. rewrite decide_False by set_solver. by rewrite decide_True.
  - split; [rewrite Hn|rewrite Hp]; by rewrite decide_True.
Qed.

Lemma ring_remove (h h' : Heap) (m nx pv : addr) (l1 l2 : list addr) :
  NoDup (l1 ++ m :: l2) → ring h (l1 ++ m :: l2) →
  nextOf h m = Some nx → prevOf h m = Some pv →
  (∀ x, nextOf h' x = if decide (x = m) then Some m
                       else if decide (x = pv) then Some nx else nextOf h x) →
  (∀ x, prevOf h' x = if decide (x = m) then Some m
                       else if decide (x = nx) then Some pv else prevOf h x) →
  ring h' (l1 ++ l2) ∧ linked h' m m.
Proof.
  intros Hnd Hr Hnx Hpv Hn Hp.
  apply ring_rotate in Hr. simpl in Hr.
  assert (NoDup (m :: l2 ++ l1)) as Hnd'.
  { apply NoDup_app in Hnd as (H1 & H2 & H3). apply NoDup_cons in H3 as [H3 H4].
    apply NoDup_cons. split.
    - rewrite elem_of_app. intros [?|?]; [done|]. eapply H2; [done|]. set_solver.
    - apply NoDup_app. split_and!; [done| |done].
      intros x Hx Hx'. eapply H2; [done|]. set_solver. }
  destruct (ring_remove_head h h' m nx pv (l2 ++ l1)) as [H1 H2]; try done.
  split; [|done]. by apply ring_rotate.
Qed.

(** Splicing a node in before the head: it becomes the last member. *)
Lemma ring_snoc (h h' : Heap) (n c lst : addr) (r : list addr) :
  NoDup (c :: r) → n ∉ c :: r → ring h (c :: r) →
  prevOf h c = Some lst →
  (∀ x, nextOf h' x = if decide (x = lst) then Some n
                       else if decide (x = n) then Some c else nextOf h x) →
  (∀ x, prevOf h' x = if decide (x = c) then Some n
                       else if decide (x = n) then Some lst else prevOf h x) →
  ring h' (c :: r ++ [n]).
Proof.
  intros Hnd Hn Hr Hlst Hnx Hpv. simpl in *.
  apply path_app in Hr as [Hr [[Ha1 Ha2] _]].
  assert (lst = List.last r c) as -> by congruence.
  assert (List.last r c ≠ n) as Hln.
  { intros E. apply Hn. rewrite <- E. apply last_elem. }
  rewrite <- app_assoc. apply path_app. split.
  - eapply path_frame; [done| | |done].
    + intros y Hy Hne. rewrite Hnx. rewrite decide_False by done.
      rewrite decide_False; [done|set_solver].
    + intros y Hy. rewrite Hpv. apply NoDup_cons in Hnd as [Hc _].
      rewrite decide_False by set_solver. rewrite decide_False; [done|set_solver].
  - simpl. repeat split.
    + rewrite Hnx. by rewrite decide_True.
    + rewrite Hpv. rewrite decide_False by set_solver. by rewrite decide_True.
    + rewrite Hnx. rewrite decide_False by done. by rewrite decide_True.
    + rewrite Hpv. by rewrite decide_True.
Qed.
(** *** Reading the ring *)

Lemma path_head (h : Heap) (x : addr) (l : list addr) (d : addr) :
  path h x (l ++ [d]) → nextOf h x = Some (default d (head l)).
Proof. destruct l as [|y l]; simpl; intros [[H _] _]; exact H. Qed.

Lemma ring_next (h : Heap) (pre suf : list addr) (c : addr) :
  ring h (pre ++ c :: suf) → nextOf h c = Some (default c (head (suf ++ pre))).
Proof.
  intros H. apply ring_rotate in H. simpl in H. by apply path_head in H.
Qed.

Lemma ring_prev_head (h : Heap) (c : addr) (r : list addr) :
  ring h (c :: r) → prevOf h c = Some (List.last r c).
Proof.
  simpl. intros H. apply path_app in H as [_ [[_ H] _]]. exact H.
Qed.

Lemma path_live (h : Heap) (x : addr) (l : list addr) :
  path h x l → ∀ y, y ∈ l → is_Some (h !! y).
Proof.
  revert x. induction l as [|z l IH]; intros x; simpl; [set_solver|].
  intros [[_ H] Hp] y Hy. apply elem_of_cons in Hy as [->|Hy]; [|by eapply IH].
  unfold prevOf in H. destruct (h !! z); [eauto|discriminate].
Qed.

Lemma kids_live (h : Heap) (a : addr) (l : list addr) (c : addr) :
  kids h a l → c ∈ l → is_Some (h !! c).
Proof.
  intros (_ & _ & Hc & _) Hin. apply Hc in Hin as [_ Hp].
  unfold parentOf in Hp. destruct (h !! c); [eauto|discriminate].
Qed.

Lemma kids_parent_live (h : Heap) (a : addr) (l : list addr) :
  kids h a l → is_Some (h !! a).
Proof.
  intros (Hf & _). unfold firstOf in Hf. destruct (h !! a); [eauto|discriminate].
Qed.

Lemma nextSibling_eq (h : Heap) (c nx a : addr) (fc : option addr) :
  nextOf h c = Some nx → parentOf h c = Some (Some a) → firstOf h a = Some fc →
  nextSibling c h = Some (if decide (nx = c) then None
                          else if decide (Some nx = fc) then None else Some nx).
Proof.
  unfold nextSibling, nextOf, parentOf, firstOf. intros Hn Hp Hf.
  destruct (h !! c) as [n|]; simpl in *; [|discriminate].
  destruct (h !! a) as [an|] eqn:Ea; simpl in *; [|discriminate].
  injection Hn as Hn. injection Hp as Hp. injection Hf as Hf.
  subst nx fc. case_decide; [done|]. rewrite Hp. simpl. rewrite Ea. done.
Qed.

(** [nextSibling] steps to the next member of the list of children and
    answers null on the last one. *)
Lemma nextSibling_kids (h : Heap) (a c : addr) (pre suf : list addr) :
  kids h a (pre ++ c :: suf) → nextSibling c h = Some (head suf).
Proof.
  intros (Hf & Hnd & Hc & Hr).
  assert (is_child h c a) as [Hca Hpar] by (apply Hc; set_solver).
  pose proof (ring_next _ _ _ _ Hr) as Hn.
  rewrite (nextSibling_eq _ _ _ _ _ Hn Hpar Hf).
  apply NoDup_app in Hnd as (Hnd1 & Hnd2 & Hnd3).
  apply NoDup_cons in Hnd3 as [Hnd3 Hnd4].
  destruct suf as [|s suf]; simpl.
  - destruct pre as [|p0 pre]; simpl.
    + by rewrite decide_True.
    + case_decide; [done|]. by rewrite decide_True.
  - rewrite decide_False by set_solver.
    rewrite decide_False; [done|].
    destruct pre as [|p0 pre]; simpl; [intros [= ->]; set_solver|].
    intros [= ->]. apply (Hnd2 p0); set_solver.
Qed.

Lemma siblings_kids (h : Heap) (a : addr) (suf pre : list addr) (fuel : nat) :
  kids h a (pre ++ suf) → length suf ≤ fuel →
  siblings fuel (head suf) h = Some suf.
Proof.
  revert pre fuel. induction suf as [|c suf IH]; intros pre fuel Hk Hf; simpl.
  - by destruct fuel.
  - destruct fuel as [|fuel]; simpl in *; [lia|].
    rewrite (nextSibling_kids _ _ _ _ _ Hk). simpl.
    rewrite (IH (pre ++ [c]) fuel); [done| |lia].
    by rewrite <- app_assoc.
Qed.

Lemma children_kids (h : Heap) (a : addr) (l : list addr) (fuel : nat) :
  kids h a l → length l ≤ fuel → children fuel a h = Some l.
Proof.
  intros Hk Hf. unfold children, firstChild.
  pose proof Hk as (H1 & _). unfold firstOf in H1.
  destruct (h !! a) as [an|]; simpl in *; [|discriminate].
  injection H1 as ->. by apply (siblings_kids h a l []).
Qed.

Lemma kids_unique (h : Heap) (a : addr) (l l' : list addr) :
  kids h a l → kids h a l' → l = l'.
Proof.
  intros H1 H2.
  pose proof (children_kids h a l (length l + length l') H1 ltac:(lia)) as E1.
  pose proof (children_kids h a l' (length l + length l') H2 ltac:(lia)) as E2.
  congruence.
Qed.

Lemma no_child_firstChild (h : Heap) (a : addr) :
  ring_inv h → is_Some (h !! a) → (∀ c, ¬ is_child h c a) →
  firstChild a h = Some None.
Proof.
  intros Hinv Ha Hno. destruct (inv_kids h Hinv a Ha) as [l Hk].
  pose proof Hk as (Hf & _ & Hc & _). destruct l as [|c l].
  - unfold firstChild, firstOf in *. destruct (h !! a); simpl in *; congruence.
  - exfalso. apply (Hno c), Hc. set_solver.
Qed.

(** *** Detaching *)

Lemma without_notin (this : addr) (l : list addr) : this ∉ l → without this l = l.
Proof.
  intros H. unfold without. induction l as [|x l IH]; [done|].
  rewrite filter_cons. rewrite decide_True by set_solver.
  f_equal. apply IH. set_solver.
Qed.

Lemma without_split (this : addr) (l1 l2 : list addr) :
  NoDup (l1 ++ this :: l2) → without this (l1 ++ this :: l2) = l1 ++ l2.
Proof.
  intros Hnd. apply NoDup_app in Hnd as (H1 & H2 & H3).
  apply NoDup_cons in H3 as [H3 H4].
  unfold without. rewrite filter_app, filter_cons.
  rewrite decide_False by (intros ?; done).
  fold (without this l1). fold (without this l2).
  assert (this ∉ l1) as H5 by (intros Hin; apply (H2 this); set_solver).
  by rewrite (without_notin this l1), (without_notin this l2).
Qed.

Lemma elem_of_without (this c : addr) (l : list addr) :
  c ∈ without this l ↔ c ∈ l ∧ c ≠ this.
Proof. unfold without. rewrite list_elem_of_filter. tauto. Qed.

Lemma NoDup_without (this : addr) (l : list addr) : NoDup l → NoDup (without this l).
Proof. apply NoDup_filter. Qed.

Lemma live_parentOf (h : Heap) (a : addr) : is_Some (h !! a) ↔ is_Some (parentOf h a).
Proof. unfold parentOf. rewrite fmap_is_Some. done. Qed.

Lemma live_nextOf (h : Heap) (a : addr) : is_Some (h !! a) ↔ is_Some (nextOf h a).
Proof. unfold nextOf. rewrite fmap_is_Some. done. Qed.

Lemma live_prevOf (h : Heap) (a : addr) : is_Some (h !! a) ↔ is_Some (prevOf h a).
Proof. unfold prevOf. rewrite fmap_is_Some. done. Qed.

Lemma live_firstOf (h : Heap) (a : addr) : is_Some (h !! a) ↔ is_Some (firstOf h a).
Proof. unfold firstOf. rewrite fmap_is_Some. done. Qed.

Lemma root_not_child (h : Heap) (c a : addr) : is_root h c → ¬ is_child h c a.
Proof. intros [H|H] [H1 H2]; congruence. Qed.

Lemma kids_disjoint (h : Heap) (a b : addr) (la lb : list addr) (c : addr) :
  kids h a la → kids h b lb → c ∈ la → c ∈ lb → a = b.
Proof.
  intros (_ & _ & Ha & _) (_ & _ & Hb & _) Hca Hcb.
  apply Ha in Hca as [_ H1]. apply Hb in Hcb as [_ H2]. congruence.
Qed.

(** The neighbours of a member of a ring are members. *)
Lemma ring_next_in (h : Heap) (l : list addr) (c nx : addr) :
  ring h l → c ∈ l → nextOf h c = Some nx → nx ∈ l.
Proof.
  intros Hr Hc Hn. apply list_elem_of_split in Hc as (l1 & l2 & ->).
  rewrite (ring_next _ _ _ _ Hr) in Hn. injection Hn as <-.
  destruct l2 as [|x l2]; simpl; [|set_solver].
  destruct l1 as [|x l1]; simpl; set_solver.
Qed.

Lemma ring_prev (h : Heap) (pre suf : list addr) (c : addr) :
  ring h (pre ++ c :: suf) → prevOf h c = Some (List.last (suf ++ pre) c).
Proof.
  intros H. apply ring_rotate in H. rewrite <- app_comm_cons in H.
  by apply ring_prev_head in H.
Qed.

Lemma ring_prev_in (h : Heap) (l : list addr) (c pv : addr) :
  ring h l → c ∈ l → prevOf h c = Some pv → pv ∈ l.
Proof.
  intros Hr Hc Hn. apply list_elem_of_split in Hc as (l1 & l2 & ->).
  rewrite (ring_prev _ _ _ _ Hr) in Hn. injection Hn as <-.
  pose proof (last_elem (l2 ++ l1) c) as H. set_solver.
Qed.

(** The effect of [reparent(0)] on a node attached under [q]. *)
Lemma detach_child (h : Heap) (this q : addr) :
  ring_inv h → is_child h this q →
  ∃ h', reparent this None h = Some h' ∧
    parentOf h' this = Some None ∧
    (∀ x, x ≠ this → parentOf h' x = parentOf h x) ∧
    (∀ x, scalarsOf h' x = scalarsOf h x) ∧
    (∀ a l, kids h a l → kids h' a (without this l)) ∧
    linked h' this this ∧
    (∀ x, x ≠ this → ¬ is_child h x q → nextOf h' x = nextOf h x ∧ prevOf h' x = prevOf h x) ∧
    (∀ x, x ≠ q → firstOf h' x = firstOf h x).
Proof.
  intros Hinv [Hne Hpar].
  pose proof (inv_parent h Hinv _ _ Hpar) as Hq.
  destruct (inv_kids h Hinv q Hq) as [lq Hkq].
  pose proof Hkq as (Hfq & Hndq & Hcq & Hrq).
  assert (this ∈ lq) as Hin by (apply Hcq; split; done).
  apply list_elem_of_split in Hin as (l1 & l2 & ->).
  assert (is_Some (h !! this)) as Hthis by (apply live_parentOf; rewrite Hpar; eauto).
  pose proof (ring_next _ _ _ _ Hrq) as Hnx.
  pose proof (ring_prev _ _ _ _ Hrq) as Hpv.
  set (nx := default this (head (l2 ++ l1))) in *.
  set (pv := List.last (l2 ++ l1) this) in *.
  assert (nx ∈ l1 ++ this :: l2) as Hnxin by (eapply ring_next_in; [done| |done]; set_solver).
  assert (pv ∈ l1 ++ this :: l2) as Hpvin by (eapply ring_prev_in; [done| |done]; set_solver).
  (* first step: the parent's _firstChild *)
  destruct Hq as [pn Epn].
  assert (∃ h1, (if decide (_firstChild pn = Some this) then
                   alone ← ringAlone this h; next ← ringNext this h;
                   modify q (with_firstChild (if alone : bool then None else Some next)) h
                 else Some h) = Some h1 ∧
           (∀ x, firstOf h1 x = if decide (x = q) then Some (head (l1 ++ l2)) else firstOf h x) ∧
           (∀ x, nextOf h1 x = nextOf h x) ∧ (∀ x, prevOf h1 x = prevOf h x) ∧
           (∀ x, parentOf h1 x = parentOf h x) ∧ (∀ x, scalarsOf h1 x = scalarsOf h x))
    as (h1 & E1 & Hf1 & Hn1 & Hp1 & Hpa1 & Hs1).
  { assert (_firstChild pn = head (l1 ++ this :: l2)) as Efc.
    { unfold firstOf in Hfq. rewrite Epn in Hfq. simpl in Hfq. congruence. }
    destruct l1 as [|p0 l1]; simpl in *.
    - rewrite decide_True by done.
      destruct Hthis as [tn Etn]. unfold ringAlone, ringNext. rewrite Etn. simpl.
      unfold nextOf in Hnx. rewrite Etn in Hnx. simpl in Hnx. injection Hnx as Hnx.
      rewrite Hnx.
      destruct (modify_firstChild_spec q
        (if bool_decide (nx = this) then None else Some nx) h) as (h1 & E & Hf & ?);
        [eauto|].
      exists h1. split; [done|]. split; [|done].
      intros x. rewrite Hf. destruct (decide (x = q)); [|done]. f_equal.
      subst nx. rewrite app_nil_r. destruct l2 as [|b l2]; simpl.
      + by rewrite bool_decide_true.
      + rewrite bool_decide_false; [done|]. intros ->.
        apply NoDup_cons in Hndq. set_solver.
    - rewrite decide_False.
      + exists h. split; [done|]. split; [|done].
        intros x. case_decide; [|done]. subst x. rewrite Hfq. done.
      + rewrite Efc. intros [= ->]. apply NoDup_cons in Hndq. set_solver. }
  (* second step: ringRemove *)
  destruct (ringRemove_spec this nx pv h1) as (h2 & E2 & Hn2 & Hp2 & Hpa2 & Hf2 & Hs2).
  { by rewrite Hn1. } { by rewrite Hp1. }
  { apply live_parentOf. rewrite Hpa1. apply live_parentOf. eapply kids_live; done. }
  { apply live_parentOf. rewrite Hpa1. apply live_parentOf. eapply kids_live; done. }
  (* third step: _parent = 0 *)
  destruct (modify_parent_spec this None h2) as (h3 & E3 & Hpa3 & Hn3 & Hp3 & Hf3 & Hs3).
  { apply live_parentOf. rewrite Hpa2, Hpa1. apply live_parentOf. done. }
  destruct (ring_remove h h2 this nx pv l1 l2) as [Hring Hself]; try done.
  { intros x. rewrite Hn2, Hn1. done. }
  { intros x. rewrite Hp2, Hp1. done. }
  exists h3. split.
  { unfold reparent. destruct Hthis as [tn Etn]. rewrite Etn. simpl.
    unfold parentOf in Hpar. rewrite Etn in Hpar. simpl in Hpar. injection Hpar as Hpar.
    rewrite Hpar. rewrite decide_False by done. unfold detach. rewrite Epn. simpl.
    rewrite E1. simpl.
    rewrite E2. simpl. rewrite E3. done. }
  assert (∀ x, x ≠ this → ¬ is_child h x q →
               nextOf h3 x = nextOf h x ∧ prevOf h3 x = prevOf h x) as Hframe.
  { intros x Hx Hnc. rewrite Hn3, Hp3, Hn2, Hp2, Hn1, Hp1.
    rewrite !(decide_False (P := x = this)) by done.
    assert (x ∉ l1 ++ this :: l2) as Hxin by (intros ?; apply Hnc, Hcq; done).
    rewrite !decide_False; [done| |]; intros ->; done. }
  split; [by rewrite Hpa3, decide_True|].
  split; [intros x Hx; by rewrite Hpa3, decide_False, Hpa2, Hpa1|].
  split; [intros x; by rewrite Hs3, Hs2, Hs1|].
  split; [|split; [|split; [done|]]].
  - intros a l (Hfa & Hnda & Hca & Hra). split_and!.
    + rewrite Hf3, Hf2, Hf1. destruct (decide (a = q)) as [->|Haq].
      * rewrite (kids_unique _ _ _ _ (conj Hfa (conj Hnda (conj Hca Hra))) Hkq).
        by rewrite without_split.
      * rewrite without_notin; [done|]. intros Hin. apply Hca in Hin as [_ Hin]. congruence.
    + by apply NoDup_without.
    + intros c. rewrite elem_of_without, Hca. unfold is_child.
      rewrite Hpa3, Hpa2, Hpa1. destruct (decide (c = this)) as [->|Hc]; [|tauto].
      split; [tauto|]. intros [_ ?]. congruence.
    + destruct (decide (a = q)) as [->|Haq].
      * rewrite (kids_unique _ _ _ _ (conj Hfa (conj Hnda (conj Hca Hra))) Hkq).
        rewrite without_split by done. eapply ring_frame; [|exact Hring].
        intros y Hy. by rewrite Hn3, Hp3.
      * rewrite without_notin; [|intros Hin; apply Hca in Hin as [_ Hin]; congruence].
        eapply ring_frame; [|exact Hra]. intros y Hy. apply Hframe.
        -- intros ->. apply Hca in Hy as [_ Hy]. congruence.
        -- intros [_ Hy']. apply Hca in Hy as [_ Hy]. congruence.
  - destruct Hself as [Ha Hb]. split; [by rewrite Hn3|by rewrite Hp3].
  - intros x Hx. rewrite Hf3, Hf2, Hf1. by rewrite decide_False.
Qed.

Lemma live_scalarsOf (h : Heap) (a : addr) : is_Some (h !! a) ↔ is_Some (scalarsOf h a).
Proof. unfold scalarsOf. rewrite fmap_is_Some. done. Qed.

Lemma ring_inv_intro (h h' : Heap) :
  ring_inv h →
  (∀ x, scalarsOf h' x = scalarsOf h x) →
  (∀ a l, kids h a l → ∃ l', kids h' a l') →
  (∀ c p, parentOf h' c = Some (Some p) → is_Some (h !! p)) →
  (∀ c, is_root h' c → linked h' c c) →
  ring_inv h'.
Proof.
  intros Hinv Hs Hk Hp Hr.
  assert (∀ x, is_Some (h' !! x) ↔ is_Some (h !! x)) as Hlive.
  { intros x. by rewrite !live_scalarsOf, Hs. }
  split.
  - intros a Ha. apply Hlive in Ha. destruct (inv_kids h Hinv a Ha) as [l Hl]. eauto.
  - intros c p H. apply Hlive. eauto.
  - done.
Qed.

(** [reparent(0)]: the node leaves the ring of its parent, if it has one,
    and every other list of children is as before. *)
Lemma reparent_None_spec (h : Heap) (this : addr) :
  ring_inv h → is_Some (h !! this) →
  ∃ h', reparent this None h = Some h' ∧ ring_inv h' ∧
    parentOf h' this = Some None ∧
    (∀ x, x ≠ this → parentOf h' x = parentOf h x) ∧
    (∀ x, scalarsOf h' x = scalarsOf h x) ∧
    (∀ a l, kids h a l → kids h' a (without this l)) ∧
    (∀ x, x ≠ this → (∀ q, is_child h this q → ¬ is_child h x q) →
          nextOf h' x = nextOf h x ∧ prevOf h' x = prevOf h x) ∧
    (∀ x, (∀ q, is_child h this q → x ≠ q) → firstOf h' x = firstOf h x).
Proof.
  intros Hinv Hthis.
  destruct (proj1 (live_parentOf h this) Hthis) as [[q|] Hpar].
  - destruct (decide (this = q)) as [<-|Hne].
    + (* fresh from the constructor: _parent == this *)
      assert (is_root h this) as Hroot by (right; done).
      destruct (inv_root h Hinv this Hroot) as [Hnx Hpv].
      destruct (inv_kids h Hinv this Hthis) as [lt Hlt].
      destruct (ringRemove_spec this this this h) as (h2 & E2 & Hn2 & Hp2 & Hpa2 & Hf2 & Hs2);
        try done.
      destruct (modify_parent_spec this None h2) as (h3 & E3 & Hpa3 & Hn3 & Hp3 & Hf3 & Hs3).
      { apply live_parentOf. rewrite Hpa2. apply live_parentOf. done. }
      assert (∀ x, nextOf h3 x = nextOf h x) as Hn.
      { intros x. rewrite Hn3, Hn2. destruct (decide (x = this)) as [->|]; done. }
      assert (∀ x, prevOf h3 x = prevOf h x) as Hp.
      { intros x. rewrite Hp3, Hp2. destruct (decide (x = this)) as [->|]; done. }
      assert (∀ a l, kids h a l → kids h3 a (without this l)) as Hkids.
      { intros a l (Hfa & Hnda & Hca & Hra).
        assert (this ∉ l) as Hnin.
        { intros Hin. apply Hca in Hin as [? ?]. congruence. }
        rewrite without_notin by done. split_and!.
        - by rewrite Hf3, Hf2.
        - done.
        - intros c. rewrite Hca. unfold is_child. rewrite Hpa3, Hpa2.
          destruct (decide (c = this)) as [->|]; [|tauto].
          split; intros [? ?]; congruence.
        - eapply ring_frame; [|done]. intros y _. by rewrite Hn, Hp. }
      exists h3. split.
      { unfold reparent. destruct Hthis as [tn Etn]. rewrite Etn. simpl.
        unfold parentOf in Hpar. rewrite Etn in Hpar. simpl in Hpar. injection Hpar as Hpar.
        rewrite Hpar. rewrite decide_False by done. unfold detach. rewrite Etn. simpl.
        rewrite decide_False.
        - simpl. rewrite E2. simpl. rewrite E3. done.
        - intros Hfc. destruct Hlt as (Hf & _ & Hc & _).
          unfold firstOf in Hf. rewrite Etn in Hf. simpl in Hf.
          destruct lt as [|c lt]; simpl in Hf; [congruence|].
          assert (c = this) as -> by congruence.
          assert (is_child h this this) as [? _] by (apply Hc; set_solver). done. }
      split.
      { eapply ring_inv_intro; [done|..].
        - intros x. by rewrite Hs3, Hs2.
        - eauto.
        - intros c p. rewrite Hpa3, Hpa2.
          destruct (decide (c = this)); [done|]. apply (inv_parent h Hinv).
        - intros c Hc. split; rewrite ?Hn, ?Hp.
          + destruct (decide (c = this)) as [->|Hne]; [done|].
            apply (inv_root h Hinv). unfold is_root in *.
            by rewrite Hpa3, decide_False, Hpa2 in Hc.
          + destruct (decide (c = this)) as [->|Hne]; [done|].
            apply (inv_root h Hinv). unfold is_root in *.
            by rewrite Hpa3, decide_False, Hpa2 in Hc. }
      split; [by rewrite Hpa3, decide_True|].
      split; [intros x Hx; by rewrite Hpa3, decide_False, Hpa2|].
      split; [intros x; by rewrite Hs3, Hs2|].
      split; [done|]. split; [done|].
      intros x _. by rewrite Hf3, Hf2.
    + assert (is_child h this q) as Hch by (split; done).
      destruct (detach_child h this q Hinv Hch)
        as (h' & E & Hpa & Hpo & Hs & Hk & Hself & Hfr & Hfi).
      exists h'. split; [done|]. split.
      { eapply ring_inv_intro; [done|done|eauto|..].
        - intros c p. destruct (decide (c = this)) as [->|Hc]; [congruence|].
          rewrite Hpo by done. apply (inv_parent h Hinv).
        - intros c Hc. destruct (decide (c = this)) as [->|Hcne]; [done|].
          assert (is_root h c) as Hrc.
          { unfold is_root in *. by rewrite Hpo in Hc. }
          destruct (Hfr c Hcne (root_not_child _ _ _ Hrc)) as [H1 H2].
          split; rewrite ?H1, ?H2; by apply (inv_root h Hinv). }
      split; [done|]. split; [done|]. split; [done|]. split; [done|]. split.
      * intros x Hx Hq. apply Hfr; [done|]. by apply Hq.
      * intros x Hq. apply Hfi. by apply Hq.
  - (* no parent: nothing to do *)
    exists h. split.
    { unfold reparent. destruct Hthis as [tn Etn]. rewrite Etn. simpl.
      unfold parentOf in Hpar. rewrite Etn in Hpar. simpl in Hpar. injection Hpar as Hpar.
      rewrite Hpar. by rewrite decide_True. }
    split; [done|]. split; [done|]. split; [done|]. split; [done|].
    split; [|done].
    intros a l Hk. rewrite without_notin; [done|].
    intros Hin. destruct Hk as (_ & _ & Hc & _). apply Hc in Hin as [_ ?]. congruence.
Qed.

Lemma reparent_None_frame (h h' : Heap) (this : addr) :
  ring_inv h → reparent this None h = Some h' →
  ∀ x, x ≠ this → (∀ q, is_child h this q → x ≠ q ∧ ¬ is_child h x q) →
       h' !! x = h !! x.
Proof.
  intros Hinv E x Hx Hq.
  assert (is_Some (h !! this)) as Hthis.
  { unfold reparent in E. destruct (h !! this); [eauto|discriminate]. }
  destruct (reparent_None_spec h this Hinv Hthis)
    as (h1 & E1 & _ & _ & Hpo & Hs & _ & Hfr & Hfi).
  assert (h1 = h') as -> by congruence.
  destruct (Hfr x Hx) as [H1 H2]; [intros q Hc; by apply Hq|].
  apply heap_lookup_ext; auto. apply Hfi. intros q Hc. by apply Hq.
Qed.

(** *** Attaching *)

Lemma heap_ext (h h' : Heap) :
  (∀ x, scalarsOf h' x = scalarsOf h x) → (∀ x, parentOf h' x = parentOf h x) →
  (∀ x, firstOf h' x = firstOf h x) → (∀ x, nextOf h' x = nextOf h x) →
  (∀ x, prevOf h' x = prevOf h x) → h' = h.
Proof. intros. apply map_eq. intros x. by apply heap_lookup_ext. Qed.

(** On a node fresh from the constructor, whose [_parent] is itself, the
    detaching block changes nothing. *)
Lemma detach_root (h : Heap) (this : addr) :
  ring_inv h → parentOf h this = Some (Some this) → detach this this h = Some h.
Proof.
  intros Hinv Hpar.
  assert (is_Some (h !! this)) as Hthis by (apply live_parentOf; rewrite Hpar; eauto).
  assert (is_root h this) as Hroot by (right; done).
  destruct (inv_root h Hinv this Hroot) as [Hnx Hpv].
  destruct (inv_kids h Hinv this Hthis) as [lt Hlt].
  destruct (ringRemove_spec this this this h) as (h2 & E2 & Hn2 & Hp2 & Hpa2 & Hf2 & Hs2);
    try done.
  assert (h2 = h) as ->.
  { apply heap_ext; try done.
    - intros x. rewrite Hn2. destruct (decide (x = this)) as [->|]; done.
    - intros x. rewrite Hp2. destruct (decide (x = this)) as [->|]; done. }
  unfold detach. destruct Hthis as [tn Etn]. rewrite Etn. simpl.
  rewrite decide_False; [done|].
  intros Hfc. destruct Hlt as (Hf & _ & Hc & _).
  unfold firstOf in Hf. rewrite Etn in Hf. simpl in Hf.
  destruct lt as [|c lt]; simpl in Hf; [congruence|].
  assert (c = this) as -> by congruence.
  assert (is_child h this this) as [? _] by (apply Hc; set_solver). done.
Qed.

(** [reparent(p)] on a node that has no parent: it becomes the last child
    of [p]. *)
Lemma reparent_root_spec (h : Heap) (this p : addr) :
  ring_inv h → is_root h this → is_Some (h !! p) → p ≠ this →
  ∃ h', reparent this (Some p) h = Some h' ∧ ring_inv h' ∧
    parentOf h' this = Some (Some p) ∧
    (∀ x, x ≠ this → parentOf h' x = parentOf h x) ∧
    (∀ x, scalarsOf h' x = scalarsOf h x) ∧
    (∀ a l, kids h a l → kids h' a (l ++ if decide (a = p) then [this] else [])) ∧
    (∀ x, x ≠ this → x ≠ p → ¬ is_child h x p → h' !! x = h !! x).
Proof.
  intros Hinv Hroot Hp Hne.
  assert (is_Some (h !! this)) as Hthis.
  { apply live_parentOf. destruct Hroot as [-> | ->]; eauto. }
  destruct (inv_root h Hinv this Hroot) as [Hnx Hpv].
  destruct (inv_kids h Hinv p Hp) as [lp Hlp].
  pose proof Hlp as (Hfp & Hndp & Hcp & Hrp).
  assert (this ∉ lp) as Hnin.
  { intros Hin. apply Hcp in Hin. by apply (root_not_child h this p). }
  destruct (modify_parent_spec this (Some p) h Hthis)
    as (h2 & E2 & Hpa2 & Hn2 & Hp2 & Hf2 & Hs2).
  assert (∀ x, is_Some (h2 !! x) ↔ is_Some (h !! x)) as Hlive2.
  { intros x. by rewrite !live_scalarsOf, Hs2. }
  (* the inserting block *)
  assert (∃ h3, attach this p h2 = Some h3 ∧
    (∀ x, parentOf h3 x = parentOf h2 x) ∧ (∀ x, scalarsOf h3 x = scalarsOf h2 x) ∧
    (∀ x, firstOf h3 x = if decide (x = p) then Some (head (lp ++ [this])) else firstOf h x) ∧
    ring h3 (lp ++ [this]) ∧
    (∀ x, x ≠ this → x ∉ lp → nextOf h3 x = nextOf h x ∧ prevOf h3 x = prevOf h x))
    as (h3 & E3 & Hpa3 & Hs3 & Hf3 & Hr3 & Hfr3).
  { unfold attach. destruct (proj2 (Hlive2 p) Hp) as [pn Epn]. rewrite Epn. simpl.
    assert (_firstChild pn = head lp) as Efc.
    { specialize (Hf2 p). unfold firstOf in Hf2, Hfp. rewrite Epn in Hf2. simpl in Hf2.
      congruence. }
    rewrite Efc. destruct lp as [|c r]; simpl.
    - destruct (modify_firstChild_spec p (Some this) h2)
        as (h3 & E3 & Hf3 & Hn3 & Hp3 & Hpa3 & Hs3); [eauto|].
      exists h3. split; [done|]. split; [done|]. split; [done|]. split.
      { intros x. rewrite Hf3. destruct (decide (x = p)); [done|]. by rewrite Hf2. }
      split.
      { simpl. split; [|done]. split; [by rewrite Hn3, Hn2|by rewrite Hp3, Hp2]. }
      intros x _ _. by rewrite Hn3, Hn2, Hp3, Hp2.
    - pose proof (ring_prev_head _ _ _ Hrp) as Hlst.
      set (lst := List.last r c) in *.
      assert (lst ∈ c :: r) as Hlstin by apply last_elem.
      destruct (ringInsertBefore_spec this c lst h2)
        as (h3 & E3 & Hn3 & Hp3 & Hpa3 & Hf3 & Hs3).
      { by rewrite Hp2. } { by apply Hlive2. }
      { apply Hlive2. eapply kids_live; done. }
      exists h3. split; [done|]. split; [done|]. split; [done|]. split.
      { intros x. rewrite Hf3, Hf2. destruct (decide (x = p)) as [->|]; done. }
      split.
      { apply (ring_snoc h h3 this c lst r); try done.
        - intros x. by rewrite Hn3, Hn2.
        - intros x. by rewrite Hp3, Hp2. }
      intros x Hx Hxin. rewrite Hn3, Hp3, Hn2, Hp2.
      rewrite !(decide_False (P := x = this)) by done.
      rewrite !decide_False; [done| |]; intros ->; set_solver. }
  assert (∀ a l, kids h a l → kids h3 a (l ++ if decide (a = p) then [this] else []))
    as Hkids.
  { intros a l Hk. pose proof Hk as (Hfa & Hnda & Hca & Hra).
    destruct (decide (a = p)) as [->|Hap].
    - rewrite (kids_unique _ _ _ _ Hk Hlp). split_and!.
      + by rewrite Hf3, decide_True.
      + apply NoDup_app. split_and!; [done| |apply NoDup_singleton].
        intros x Hx Hx'. set_solver.
      + intros c. rewrite elem_of_app, Hcp, list_elem_of_singleton. unfold is_child.
        rewrite Hpa3, Hpa2. destruct (decide (c = this)) as [->|Hc].
        * split; [done|]. intros _. right. done.
        * split; [intros [?|?]; done|tauto].
      + done.
    - rewrite app_nil_r. split_and!.
      + by rewrite Hf3, decide_False.
      + done.
      + intros c. rewrite Hca. unfold is_child. rewrite Hpa3, Hpa2.
        destruct (decide (c = this)) as [->|Hc]; [|tauto].
        split; [|intros [_ ?]; congruence].
        intros Hc. by apply (root_not_child h this a) in Hc.
      + eapply ring_frame; [|done]. intros y Hy. apply Hfr3.
        * intros ->. apply Hca in Hy. by apply (root_not_child h this a) in Hy.
        * intros Hy'. apply Hap. eapply kids_disjoint; done. }
  exists h3. split.
  { unfold reparent. destruct Hthis as [tn Etn]. rewrite Etn. simpl.
    destruct Hroot as [Hr|Hr].
    - unfold parentOf in Hr. rewrite Etn in Hr. simpl in Hr. injection Hr as Hr.
      rewrite Hr. rewrite decide_False by done. simpl. rewrite E2. done.
    - pose proof (detach_root h this Hinv Hr) as Ed.
      unfold parentOf in Hr. rewrite Etn in Hr. simpl in Hr. injection Hr as Hr.
      rewrite Hr. rewrite decide_False by congruence. rewrite Ed. simpl.
      rewrite E2. done. }
  split.
  { eapply ring_inv_intro; [done|..].
    - intros x. by rewrite Hs3, Hs2.
    - eauto.
    - intros c q. rewrite Hpa3, Hpa2.
      destruct (decide (c = this)) as [->|]; [congruence|]. apply (inv_parent h Hinv).
    - intros c Hc. assert (c ≠ this) as Hcne.
      { intros ->. unfold is_root in Hc. rewrite Hpa3, Hpa2, decide_True in Hc by done.
        destruct Hc; congruence. }
      assert (is_root h c) as Hrc.
      { unfold is_root in *. by rewrite Hpa3, Hpa2, decide_False in Hc. }
      destruct (Hfr3 c Hcne) as [H1 H2].
      { intros Hin. apply Hcp in Hin. by apply (root_not_child h c p). }
      split; rewrite ?H1, ?H2; by apply (inv_root h Hinv). }
  split; [by rewrite Hpa3, Hpa2, decide_True|].
  split; [intros x Hx; by rewrite Hpa3, Hpa2, decide_False|].
  split; [intros x; by rewrite Hs3, Hs2|].
  split; [done|].
  intros x Hx Hxp Hnc. destruct (Hfr3 x Hx) as [H1 H2].
  { intros Hin. by apply Hnc, Hcp. }
  apply heap_lookup_ext; try done.
  - by rewrite Hs3, Hs2.
  - by rewrite Hpa3, Hpa2, decide_False.
  - by rewrite Hf3, decide_False.
Qed.

(** *** reparent in general *)

Lemma modify_parentOf (a : addr) (f : Node → Node) (h h' : Heap) :
  modify a f h = Some h' → (∀ n, _parent (f n) = _parent n) →
  ∀ x, parentOf h' x = parentOf h x.
Proof.
  intros E Hf x. apply modify_inv in E as (n & En & ->).
  unfold parentOf. rewrite lookup_insert. case_decide; [|done].
  subst x. rewrite En. simpl. by rewrite Hf.
Qed.

Lemma ringInsertBefore_parentOf (this anchor : addr) (h h' : Heap) :
  ringInsertBefore this anchor h = Some h' → ∀ x, parentOf h' x = parentOf h x.
Proof.
  unfold ringInsertBefore. intros E x.
  destruct (h !! anchor) as [an|]; simpl in E; [|discriminate].
  destruct (modify this _ h) as [h1|] eqn:E1; simpl in E; [|discriminate].
  destruct (modify (_ring_previous an) _ h1) as [h2|] eqn:E2; simpl in E; [|discriminate].
  rewrite (modify_parentOf _ _ _ _ E) by done.
  rewrite (modify_parentOf _ _ _ _ E2) by done.
  by rewrite (modify_parentOf _ _ _ _ E1).
Qed.

Lemma attach_parentOf (this p : addr) (h h' : Heap) :
  attach this p h = Some h' → ∀ x, parentOf h' x = parentOf h x.
Proof.
  unfold attach. intros E x.
  destruct (h !! p) as [pn|]; simpl in E; [|discriminate].
  destruct (_firstChild pn).
  - by apply (ringInsertBefore_parentOf _ _ _ _ E).
  - by apply (modify_parentOf _ _ _ _ E).
Qed.

(** Whatever the heap, a call of [reparent] that returns leaves the node
    with the parent it was given. *)
Lemma reparent_parentOf (h h' : Heap) (this : addr) (p : option addr) :
  reparent this p h = Some h' → parentOf h' this = Some p.
Proof.
  unfold reparent. intros E.
  destruct (h !! this) as [tn|] eqn:Etn; simpl in E; [|discriminate].
  destruct (decide (p = _parent tn)) as [->|Hne].
  - injection E as <-. unfold parentOf. by rewrite Etn.
  - destruct (match _parent tn with Some q => detach this q h | None => Some h end)
      as [h1|]; simpl in E; [|discriminate].
    destruct (modify this (with_parent p) h1) as [h2|] eqn:E2; simpl in E; [|discriminate].
    assert (parentOf h2 this = Some p) as H2.
    { apply modify_inv in E2 as (n & _ & ->). unfold parentOf.
      by rewrite lookup_insert_eq. }
    destruct p as [p|].
    + by rewrite (attach_parentOf _ _ _ _ E).
    + by injection E as <-.
Qed.

Lemma reparent_same (h : Heap) (this : addr) (p : option addr) :
  parentOf h this = Some p → reparent this p h = Some h.
Proof.
  unfold parentOf, reparent. intros E.
  destruct (h !! this) as [tn|]; simpl in *; [|discriminate].
  injection E as <-. by rewrite decide_True.
Qed.

(** Moving a child of [q] under [p] is detaching it, then attaching it. *)
Lemma reparent_via_None (h : Heap) (this q p : addr) :
  parentOf h this = Some (Some q) → p ≠ q →
  reparent this (Some p) h = h' ← reparent this None h; reparent this (Some p) h'.
Proof.
  intros Hpar Hne. unfold parentOf in Hpar.
  destruct (h !! this) as [tn|] eqn:Etn; simpl in *; [|by unfold reparent; rewrite Etn].
  injection Hpar as Hpar.
  assert (reparent this None h = h1 ← detach this q h; modify this (with_parent None) h1) as ->.
  { unfold reparent. rewrite Etn. simpl. rewrite Hpar. rewrite decide_False by done.
    destruct (detach this q h) as [h1|]; simpl; [|done].
    by destruct (modify this (with_parent None) h1). }
  unfold reparent at 1. rewrite Etn. simpl. rewrite Hpar.
  rewrite decide_False by congruence.
  destruct (detach this q h) as [h1|]; simpl; [|done].
  unfold modify. destruct (h1 !! this) as [n1|]; simpl; [|done].
  unfold reparent. rewrite lookup_insert_eq. simpl.
  unfold modify. rewrite lookup_insert_eq. simpl.
  by rewrite insert_insert_eq.
Qed.

(** [reparent(p)] on a node that is not yet under [p]: the node leaves the
    children of its former parent and becomes the last child of [p]. *)
Lemma reparent_spec (h : Heap) (this p : addr) :
  ring_inv h → is_Some (h !! this) → is_Some (h !! p) → p ≠ this →
  parentOf h this ≠ Some (Some p) →
  ∃ h', reparent this (Some p) h = Some h' ∧ ring_inv h' ∧
    parentOf h' this = Some (Some p) ∧
    (∀ x, x ≠ this → parentOf h' x = parentOf h x) ∧
    (∀ x, scalarsOf h' x = scalarsOf h x) ∧
    (∀ a l, kids h a l →
            kids h' a (without this l ++ if decide (a = p) then [this] else [])).
Proof.
  intros Hinv Hthis Hp Hne Hnp.
  destruct (proj1 (live_parentOf h this) Hthis) as [[q|] Hpar].
  - destruct (decide (q = this)) as [->|Hq].
    + destruct (reparent_root_spec h this p) as (h' & E & Hi & H1 & H2 & H3 & H4 & _);
        [done|by right|done|done|].
      exists h'. split_and!; try done.
      intros a l Hk. rewrite without_notin; [by apply H4|].
      intros Hin. destruct Hk as (_ & _ & Hc & _). apply Hc in Hin as [? ?]. congruence.
    + destruct (reparent_None_spec h this Hinv Hthis)
        as (h1 & E1 & Hi1 & Hpa1 & Hpo1 & Hs1 & Hk1 & _).
      assert (is_Some (h1 !! p)) as Hp1 by (by rewrite live_scalarsOf, Hs1, <- live_scalarsOf).
      destruct (reparent_root_spec h1 this p) as (h' & E & Hi & H1 & H2 & H3 & H4 & _);
        [done|by left|done|done|].
      exists h'. split.
      { rewrite (reparent_via_None h this q p Hpar) by congruence.
        rewrite E1. done. }
      split_and!; try done.
      * intros x Hx. by rewrite H2, Hpo1.
      * intros x. by rewrite H3, Hs1.
      * intros a l Hk. apply H4, Hk1, Hk.
  - destruct (reparent_root_spec h this p) as (h' & E & Hi & H1 & H2 & H3 & H4 & _);
      [done|by left|done|done|].
    exists h'. split_and!; try done.
    intros a l Hk. rewrite without_notin; [by apply H4|].
    intros Hin. destruct Hk as (_ & _ & Hc & _). apply Hc in Hin as [? ?]. congruence.
Qed.

(** *** The constructor and the empty heap *)

Lemma ring_inv_empty : ring_inv ∅.
Proof.
  split.
  - intros a [n Hn]. by rewrite lookup_empty in Hn.
  - intros c p H. unfold parentOf in H. by rewrite lookup_empty in H.
  - intros c [H|H]; unfold parentOf in H; by rewrite lookup_empty in H.
Qed.

Lemma ring_inv_alloc (h : Heap) (a : addr) (n : Node) :
  ring_inv h → h !! a = None → constructed a n → ring_inv (<[a := n]> h).
Proof.
  intros Hinv Ha (Hpa & Hfc & Hnx & Hpv).
  assert (∀ x, x ≠ a → parentOf (<[a := n]> h) x = parentOf h x) as Hp.
  { intros x Hx. unfold parentOf. by rewrite lookup_insert_ne. }
  assert (∀ x, x ≠ a → firstOf (<[a := n]> h) x = firstOf h x) as Hf.
  { intros x Hx. unfold firstOf. by rewrite lookup_insert_ne. }
  assert (∀ x, x ≠ a → nextOf (<[a := n]> h) x = nextOf h x) as Hn.
  { intros x Hx. unfold nextOf. by rewrite lookup_insert_ne. }
  assert (∀ x, x ≠ a → prevOf (<[a := n]> h) x = prevOf h x) as Hpr.
  { intros x Hx. unfold prevOf. by rewrite lookup_insert_ne. }
  assert (parentOf (<[a := n]> h) a = Some (Some a)) as Hpa'.
  { unfold parentOf. rewrite lookup_insert_eq. simpl. by rewrite Hpa. }
  assert (∀ x, is_Some (h !! x) → x ≠ a) as Hlive.
  { intros x [? ?] ->. congruence. }
  split.
  - intros x Hx. destruct (decide (x = a)) as [->|Hxa].
    + exists []. split_and!.
      * unfold firstOf. rewrite lookup_insert_eq. simpl. by rewrite Hfc.
      * constructor.
      * intros c. split; [by intros ?%elem_of_nil|]. intros [Hc Hpc].
        rewrite Hp in Hpc by done. apply (inv_parent h Hinv) in Hpc.
        by apply Hlive in Hpc.
      * done.
    + rewrite lookup_insert_ne in Hx by done.
      destruct (inv_kids h Hinv x Hx) as [l Hl]. exists l.
      pose proof Hl as (H1 & H2 & H3 & H4). split_and!.
      * by rewrite Hf.
      * done.
      * intros c. rewrite H3. unfold is_child.
        destruct (decide (c = a)) as [->|Hc]; [|by rewrite Hp].
        rewrite Hpa'. unfold parentOf. rewrite Ha. simpl.
        split; intros [? ?]; congruence.
      * eapply ring_frame; [|done]. intros y Hy.
        assert (y ≠ a) by (eapply Hlive, kids_live; done).
        by rewrite Hn, Hpr.
  - intros c p Hc. destruct (decide (c = a)) as [->|Hca].
    + rewrite Hpa' in Hc. injection Hc as <-. by rewrite lookup_insert_eq.
    + rewrite Hp in Hc by done. apply (inv_parent h Hinv) in Hc.
      rewrite lookup_insert_ne; [done|]. intros <-. by apply Hlive in Hc.
  - intros c Hc. destruct (decide (c = a)) as [->|Hca].
    + split; [unfold nextOf|unfold prevOf]; rewrite lookup_insert_eq; simpl; congruence.
    + unfold is_root in Hc. rewrite Hp in Hc by done.
      destruct (inv_root h Hinv c Hc). split; [by rewrite Hn|by rewrite Hpr].
Qed.

(** *** Attaching a sequence of nodes *)

Lemma attach_all_spec (nodes : list addr) (p : addr) (h : Heap) (l0 : list addr) :
  ring_inv h → kids h p l0 → NoDup nodes →
  (∀ n, n ∈ nodes → is_Some (h !! n) ∧ n ≠ p ∧ parentOf h n ≠ Some (Some p)) →
  ∃ h', attach_all nodes p h = Some h' ∧ ring_inv h' ∧ kids h' p (l0 ++ nodes).
Proof.
  revert h l0. induction nodes as [|n rest IH]; intros h l0 Hinv Hk Hnd Hn; simpl.
  - exists h. by rewrite app_nil_r.
  - apply NoDup_cons in Hnd as [Hnin Hnd].
    destruct (Hn n) as (Hl & Hne & Hpar); [set_solver|].
    destruct (reparent_spec h n p) as (h1 & E & Hi1 & Hp1 & Hpo1 & Hs1 & Hk1);
      try done; [eapply kids_parent_live; done|].
    rewrite E. simpl.
    assert (n ∉ l0) as Hnl0.
    { intros Hin. destruct Hk as (_ & _ & Hc & _). apply Hc in Hin as [_ ?]. done. }
    specialize (Hk1 p l0 Hk). rewrite without_notin, decide_True in Hk1 by done.
    destruct (IH h1 (l0 ++ [n])) as (h' & E' & Hi' & Hk'); try done.
    + intros x Hx. destruct (Hn x) as (Hlx & Hnex & Hparx); [set_solver|].
      assert (x ≠ n) by (intros ->; done).
      split_and!; [|done|by rewrite Hpo1].
      by rewrite live_scalarsOf, Hs1, <- live_scalarsOf.
    + exists h'. rewrite <- app_assoc in Hk'. done.
Qed.

(** ** Trees: no node is its own ancestor *)

Lemma descendant_rank (h : Heap) (rk : addr → nat) (x a : addr) :
  ranked h rk → descendant h x a → rk x < rk a.
Proof.
  intros Hrk. induction 1 as [x a H|x y a H _ IH].
  - by apply Hrk.
  - apply Hrk in H. lia.
Qed.

Lemma descendant_child (h : Heap) (x c a : addr) :
  descendant h x c → is_child h c a → descendant h x a.
Proof.
  intros Hd Hc. induction Hd as [x c H|x y c H _ IH].
  - eapply desc_step; [done|]. by apply desc_child.
  - eapply desc_step; [done|]. by apply IH.
Qed.

Lemma descendant_mono (h h' : Heap) (x a : addr) :
  (∀ c p, is_child h' c p → is_child h c p) → descendant h' x a → descendant h x a.
Proof.
  intros Hm. induction 1 as [x a H|x y a H _ IH].
  - apply desc_child. by apply Hm.
  - eapply desc_step; [by apply Hm|done].
Qed.

Lemma kids_nil_no_child (h : Heap) (a : addr) :
  ring_inv h → firstOf h a = Some None → ∀ c, ¬ is_child h c a.
Proof.
  intros Hinv Hf c Hc.
  destruct (inv_kids h Hinv a) as [l Hl]; [by apply live_firstOf; eauto|].
  pose proof Hl as (H1 & _ & H3 & _).
  apply H3 in Hc. destruct l; [by apply elem_of_nil in Hc|].
  simpl in H1. congruence.
Qed.

(** Releasing the storage of a node that has neither parent nor child. *)
Lemma ring_inv_delete (h : Heap) (c : addr) :
  ring_inv h → is_root h c → firstOf h c = Some None → ring_inv (delete c h).
Proof.
  intros Hinv Hroot Hfc.
  pose proof (kids_nil_no_child h c Hinv Hfc) as Hno.
  assert (∀ x, x ≠ c → parentOf (delete c h) x = parentOf h x) as Hp.
  { intros x Hx. unfold parentOf. by rewrite lookup_delete_ne. }
  assert (∀ x, x ≠ c → firstOf (delete c h) x = firstOf h x) as Hf.
  { intros x Hx. unfold firstOf. by rewrite lookup_delete_ne. }
  assert (∀ x, x ≠ c → nextOf (delete c h) x = nextOf h x) as Hn.
  { intros x Hx. unfold nextOf. by rewrite lookup_delete_ne. }
  assert (∀ x, x ≠ c → prevOf (delete c h) x = prevOf h x) as Hpr.
  { intros x Hx. unfold prevOf. by rewrite lookup_delete_ne. }
  assert (parentOf (delete c h) c = None) as Hpc.
  { unfold parentOf. by rewrite lookup_delete_eq. }
  split.
  - intros a Ha. assert (a ≠ c) as Hac.
    { intros ->. rewrite lookup_delete_eq in Ha. by destruct Ha. }
    rewrite lookup_delete_ne in Ha by done.
    destruct (inv_kids h Hinv a Ha) as [l Hl]. exists l.
    pose proof Hl as (H1 & H2 & H3 & H4).
    assert (c ∉ l) as Hcl.
    { intros Hin. apply H3 in Hin. by apply (root_not_child h c a). }
    split_and!.
    + by rewrite Hf.
    + done.
    + intros x. rewrite H3. unfold is_child.
      destruct (decide (x = c)) as [->|Hx]; [|by rewrite Hp].
      rewrite Hpc. split; [|intros [_ ?]; done].
      intros Hc. by apply (root_not_child h c a) in Hc.
    + eapply ring_frame; [|done]. intros y Hy.
      assert (y ≠ c) by (intros ->; done). by rewrite Hn, Hpr.
  - intros x p Hx. assert (x ≠ c) as Hxc by (intros ->; congruence).
    rewrite Hp in Hx by done.
    assert (p ≠ c) as Hpc'.
    { intros ->. by apply (Hno x). }
    rewrite lookup_delete_ne by done. by apply (inv_parent h Hinv x).
  - intros x Hx. assert (x ≠ c) as Hxc.
    { intros ->. unfold is_root in Hx. rewrite Hpc in Hx. by destruct Hx. }
    unfold is_root in Hx. rewrite Hp in Hx by done.
    destruct (inv_root h Hinv x Hx). split; [by rewrite Hn|by rewrite Hpr].
Qed.

(** ** clear *)

Lemma cleared_is_child (this : addr) (h h' : Heap) (c p : addr) :
  cleared this h h' → is_child h' c p → is_child h c p.
Proof.
  intros Hc [Hne Hp]. split; [done|].
  destruct (decide (c = this)) as [->|Hct].
  - destruct (cleared_this _ _ _ Hc) as (n & E & E'). unfold parentOf in *.
    rewrite E' in Hp. rewrite E. done.
  - destruct (cleared_sub _ _ _ Hc c Hct) as [E|E]; unfold parentOf in *.
    + by rewrite E in Hp.
    + by rewrite <- E.
Qed.

Lemma cleared_ranked (this : addr) (h h' : Heap) (rk : addr → nat) :
  cleared this h h' → ranked h rk → ranked h' rk.
Proof. intros Hc Hrk c p H. eapply Hrk, cleared_is_child; done. Qed.

Lemma cleared_descendant (this : addr) (h h' : Heap) (x : addr) :
  cleared this h h' → descendant h x this → h' !! x = None.
Proof.
  intros Hc Hd. remember this as a eqn:Ea. revert Ea.
  induction Hd as [x a H|x y a H _ IH]; intros ->.
  - by apply (cleared_children _ _ _ Hc).
  - specialize (IH Hc eq_refl).
    destruct (h' !! x) as [n|] eqn:Ex; [exfalso|done].
    assert (parentOf h' x = Some (Some y)) as Hp.
    { destruct H as [_ Hp]. destruct (decide (x = this)) as [->|Hxt].
      - destruct (cleared_this _ _ _ Hc) as (m & E & E'). unfold parentOf in *.
        rewrite E in Hp. rewrite E'. done.
      - destruct (cleared_sub _ _ _ Hc x Hxt) as [E|E]; [congruence|].
        unfold parentOf in *. by rewrite E. }
    apply (inv_parent h' (cleared_inv _ _ _ Hc)) in Hp.
    rewrite IH in Hp. by destruct Hp.
Qed.

Lemma live_iff_views (h h' : Heap) :
  (∀ x, parentOf h' x = parentOf h x) → ∀ x, is_Some (h' !! x) ↔ is_Some (h !! x).
Proof. intros H x. by rewrite !live_parentOf, H. Qed.

Lemma size_le_of_live (h h' : Heap) :
  (∀ x, is_Some (h' !! x) → is_Some (h !! x)) → size h' ≤ size h.
Proof.
  intros H. rewrite <- !size_dom. apply subseteq_size.
  intros x. rewrite !elem_of_dom. apply H.
Qed.

Lemma size_delete_lt (h : Heap) (c : addr) : is_Some (h !! c) → size (delete c h) < size h.
Proof.
  intros Hc. rewrite (map_size_delete_Some c h Hc).
  assert (size h ≠ 0); [|lia].
  rewrite map_size_empty_iff. intros ->. rewrite lookup_empty in Hc. by destruct Hc.
Qed.

Lemma is_child_unique (h : Heap) (c p q : addr) :
  is_child h c p → is_child h c q → p = q.
Proof. intros [_ H1] [_ H2]. congruence. Qed.

(** One turn of the loop of [clear], after the child at [_firstChild] has
    cleared itself: it detaches itself and its storage is released. *)
Lemma delete_child_step (rk : addr → nat) (h h1 : Heap) (this c : addr) :
  ring_inv h → ranked h rk → is_child h c this → cleared c h h1 →
  ∃ h2, reparent c None h1 = Some h2 ∧
    ring_inv (delete c h2) ∧ ranked (delete c h2) rk ∧
    (∃ tn n3, h !! this = Some tn ∧ delete c h2 !! this = Some n3 ∧
              scalars n3 = scalars tn ∧ _parent n3 = _parent tn ∧
              _ring_next n3 = _ring_next tn ∧ _ring_previous n3 = _ring_previous tn) ∧
    (∀ x, x ≠ this → x ≠ c →
          delete c h2 !! x = None ∨
          (parentOf (delete c h2) x = parentOf h x ∧
           (¬ is_child h x this → delete c h2 !! x = h !! x))) ∧
    (∀ a b, is_child (delete c h2) a b → is_child h a b) ∧
    size (delete c h2) < size h.
Proof.
  intros Hinv Hrk Hc Hcl.
  pose proof (cleared_inv _ _ _ Hcl) as Hinv1.
  destruct (cleared_this _ _ _ Hcl) as (nc & Enc & Enc1).
  pose proof Hc as [Hne Hpc].
  assert (h1 !! this = h !! this) as Ethis.
  { apply (cleared_frame _ _ _ Hcl); [done|].
    intros Hd. apply (descendant_rank h rk) in Hd; [|done]. apply Hrk in Hc. lia. }
  assert (is_child h1 c this) as Hc1.
  { split; [done|]. unfold parentOf in *. rewrite Enc1. rewrite Enc in Hpc. done. }
  assert (firstOf h1 c = Some None) as Hfc1.
  { unfold firstOf. rewrite Enc1. done. }
  destruct (reparent_None_spec h1 c Hinv1 ltac:(eauto))
    as (h2 & E2 & Hinv2 & Hpa2 & Hpo2 & Hs2 & Hk2 & Hfr2 & Hfi2).
  exists h2. split; [done|].
  assert (∀ x, is_Some (h2 !! x) ↔ is_Some (h1 !! x)) as Hlive2.
  { intros x. by rewrite !live_scalarsOf, Hs2. }
  assert (firstOf h2 c = Some None) as Hfc2.
  { rewrite Hfi2; [done|]. intros q Hq ->. by destruct Hq. }
  assert (∀ x, x ≠ c → x ≠ this → ¬ is_child h1 x this → h2 !! x = h1 !! x) as Hframe2.
  { intros x Hx Hxt Hnc. apply (reparent_None_frame h1 h2 c Hinv1 E2 x Hx).
    intros q Hq. rewrite (is_child_unique _ _ _ _ Hq Hc1). done. }
  assert (∀ x, x ≠ c → parentOf (delete c h2) x = parentOf h1 x) as Hpa3.
  { intros x Hx. unfold parentOf at 1. rewrite lookup_delete_ne by done. by apply Hpo2. }
  assert (∀ a b, is_child (delete c h2) a b → is_child h a b) as Hmono.
  { intros a b [Hab Hp]. assert (a ≠ c) as Hac.
    { intros ->. unfold parentOf in Hp. by rewrite lookup_delete_eq in Hp. }
    rewrite Hpa3 in Hp by done. eapply cleared_is_child; [done|]. by split. }
  split.
  { apply ring_inv_delete; [done|by left|done]. }
  split.
  { intros a b Hab. by apply Hrk, Hmono. }
  split.
  { destruct (h !! this) as [tn|] eqn:Etn.
    2:{ exfalso. apply (inv_parent h Hinv) in Hpc. rewrite Etn in Hpc. by destruct Hpc. }
    assert (is_Some (h2 !! this)) as [n3 En3] by (apply Hlive2; rewrite Ethis; eauto).
    exists tn, n3. rewrite lookup_delete_ne by done. split; [done|]. split; [done|].
    destruct (Hfr2 this) as [Hn Hp]; [done| |].
    { intros q Hq. rewrite (is_child_unique _ _ _ _ Hq Hc1). intros [? _]. done. }
    specialize (Hs2 this). specialize (Hpo2 this ltac:(done)).
    unfold scalarsOf, parentOf, nextOf, prevOf in *.
    rewrite En3, Ethis in *. simpl in *. split_and!; congruence. }
  split.
  { intros x Hxt Hxc. rewrite lookup_delete_ne by done.
    destruct (cleared_sub _ _ _ Hcl x Hxc) as [E|E].
    - left. destruct (h2 !! x) eqn:E2x; [|done].
      assert (is_Some (h1 !! x)) as Hs by (apply Hlive2; eauto).
      rewrite E in Hs. by destruct Hs.
    - right. split.
      + rewrite Hpa3 by done. unfold parentOf. by rewrite E.
      + intros Hnc. rewrite Hframe2; [done|done|done|].
        intros [? Hp]. apply Hnc. split; [done|]. unfold parentOf in *.
        by rewrite <- E. }
  split; [done|].
  eapply Nat.lt_le_trans; [apply size_delete_lt; apply Hlive2; eauto|].
  etrans; [apply size_le_of_live; intros x; apply Hlive2|].
  apply size_le_of_live. intros x Hx.
  destruct (decide (x = c)) as [->|Hxc]; [eauto|].
  destruct (cleared_sub _ _ _ Hcl x Hxc) as [E|E]; rewrite E in Hx; [by destruct Hx|done].
Qed.

Lemma kids_views (h h' : Heap) (a : addr) (l : list addr) :
  (∀ x, parentOf h' x = parentOf h x) → (∀ x, firstOf h' x = firstOf h x) →
  (∀ x, nextOf h' x = nextOf h x) → (∀ x, prevOf h' x = prevOf h x) →
  kids h a l → kids h' a l.
Proof.
  intros Hp Hf Hn Hpr (H1 & H2 & H3 & H4). split_and!.
  - by rewrite Hf.
  - done.
  - intros c. rewrite H3. unfold is_child. by rewrite Hp.
  - eapply ring_frame; [|done]. intros y _. by rewrite Hn, Hpr.
Qed.

Lemma ring_inv_views (h h' : Heap) :
  (∀ x, parentOf h' x = parentOf h x) → (∀ x, firstOf h' x = firstOf h x) →
  (∀ x, nextOf h' x = nextOf h x) → (∀ x, prevOf h' x = prevOf h x) →
  ring_inv h → ring_inv h'.
Proof.
  intros Hp Hf Hn Hpr Hinv.
  pose proof (live_iff_views h h' Hp) as Hlive. split.
  - intros a Ha. apply Hlive in Ha. destruct (inv_kids h Hinv a Ha) as [l Hl].
    exists l. by apply (kids_views h h').
  - intros c p. rewrite Hp, Hlive. apply (inv_parent h Hinv).
  - intros c Hc. unfold is_root, linked in *. rewrite Hp in Hc. rewrite Hn, Hpr.
    by apply (inv_root h Hinv).
Qed.

Lemma reset_scalars_agree (n m : Node) :
  _parent n = _parent m → _ring_next n = _ring_next m →
  _ring_previous n = _ring_previous m → node_type n = node_type m →
  _closingType n = _closingType m →
  reset_scalars (with_firstChild None n) = reset_scalars (with_firstChild None m).
Proof. destruct n, m; simpl; intros; simplify_eq; reflexivity. Qed.

(** With enough fuel [clear] returns, in a heap whose rings are sound and
    whose nodes form trees. *)
Lemma clear_total (rk : addr → nat) (k : nat) :
  ∀ m h this, ring_inv h → ranked h rk → is_Some (h !! this) →
    rk this ≤ k → size h ≤ m →
    ∃ f0 h', (∀ f, f0 ≤ f → clear f this h = Some h') ∧ cleared this h h'.
Proof.
  induction k as [k IHk] using lt_wf_ind.
  induction m as [m IHm] using lt_wf_ind.
  intros h this Hinv Hrk [tn Etn] Hk Hm.
  destruct (_firstChild tn) as [c|] eqn:Efc.
  - (* the loop body runs: delete _firstChild *)
    assert (firstOf h this = Some (Some c)) as Hfo by (unfold firstOf; rewrite Etn; simpl; congruence).
    destruct (inv_kids h Hinv this ltac:(eauto)) as [l Hl].
    pose proof Hl as (H1 & _ & H3 & _).
    assert (is_child h c this) as Hc.
    { apply H3. destruct l as [|c' l]; simpl in H1; [congruence|].
      assert (c' = c) as -> by congruence. set_solver. }
    assert (is_Some (h !! c)) as Hclive by (eapply kids_live; [done|by apply H3]).
    pose proof (Hrk _ _ Hc) as Hrkc.
    destruct (IHk (rk c) ltac:(lia) (size h) h c Hinv Hrk Hclive ltac:(lia) ltac:(lia))
      as (f1 & h1 & Hf1 & Hcl1).
    destruct (delete_child_step rk h h1 this c Hinv Hrk Hc Hcl1)
      as (h2 & E2 & Hinv3 & Hrk3 & (tn' & n3 & Etn' & En3 & Hsc & Hpa & Hnx & Hpv)
          & Hsub & Hmono & Hsize).
    assert (tn' = tn) as -> by congruence.
    destruct (IHm (size (delete c h2)) ltac:(lia) (delete c h2) this Hinv3 Hrk3
                ltac:(eauto) Hk ltac:(lia)) as (f2 & h' & Hf2 & Hcl2).
    assert (delete c h2 !! c = None) as Hcgone by apply lookup_delete_eq.
    exists (S (Nat.max f1 f2)), h'. split.
    { intros f Hf. destruct f as [|f]; [lia|]. simpl. rewrite Etn. simpl. rewrite Efc.
      unfold delete_Node. rewrite Hf1 by lia. simpl. rewrite E2. simpl.
      apply Hf2. lia. }
    destruct Hc as [Hne Hpc].
    assert (∀ x, x ≠ this → is_child h x this → h' !! x = None) as Hchildren.
    { intros x Hxt Hx. destruct (decide (x = c)) as [->|Hxc].
      - destruct (cleared_sub _ _ _ Hcl2 c Hne) as [E|E]; congruence.
      - destruct (Hsub x Hxt Hxc) as [E|[E _]].
        + destruct (cleared_sub _ _ _ Hcl2 x Hxt) as [E'|E']; congruence.
        + apply (cleared_children _ _ _ Hcl2). destruct Hx as [? Hx].
          split; [done|]. by rewrite E. }
    split.
    + apply (cleared_inv _ _ _ Hcl2).
    + exists tn. split; [done|].
      destruct (cleared_this _ _ _ Hcl2) as (n3' & En3' & ->).
      assert (n3' = n3) as -> by congruence. f_equal.
      unfold scalars in Hsc. apply reset_scalars_agree; congruence.
    + intros x Hxt Hnd.
      assert (x ≠ c) as Hxc.
      { intros ->. apply Hnd. apply desc_child. by split. }
      assert (¬ is_child h x this) as Hnc by (intros ?; apply Hnd; by apply desc_child).
      rewrite (cleared_frame _ _ _ Hcl2 x Hxt).
      * assert (h1 !! x = h !! x) as E1.
        { apply (cleared_frame _ _ _ Hcl1); [done|].
          intros Hd. apply Hnd. eapply descendant_child; [done|]. by split. }
        assert (h2 !! x = h1 !! x) as E2'.
        { apply (reparent_None_frame h1 h2 c (cleared_inv _ _ _ Hcl1) E2 x Hxc).
          intros q Hq.
          destruct (cleared_this _ _ _ Hcl1) as (nc & Enc & Enc1).
          assert (q = this) as ->.
          { destruct Hq as [_ Hq]. unfold parentOf in Hq, Hpc.
            rewrite Enc1 in Hq. rewrite Enc in Hpc. simpl in *. congruence. }
          split; [done|]. intros [? Hp]. apply Hnc. split; [done|].
          unfold parentOf in *. by rewrite <- E1. }
        rewrite lookup_delete_ne by done. congruence.
      * intros Hd. apply Hnd. eapply descendant_mono; [exact Hmono|done].
    + intros x Hxt. destruct (decide (x = c)) as [->|Hxc].
      * left. destruct (cleared_sub _ _ _ Hcl2 c Hne) as [E|E]; congruence.
      * destruct (Hsub x Hxt Hxc) as [E|[Ep E]].
        -- left. destruct (cleared_sub _ _ _ Hcl2 x Hxt) as [E'|E']; congruence.
        -- destruct (decide (is_child h x this)) as [Hx|Hx].
           ++ left. by apply Hchildren.
           ++ destruct (cleared_sub _ _ _ Hcl2 x Hxt) as [E'|E']; [by left|].
              right. rewrite E'. by apply E.
    + intros x Hx. apply Hchildren; [|done]. by destruct Hx.
  - (* _firstChild is null: reset the scalar fields *)
    exists 1, (<[this := reset_scalars tn]> h). split.
    { intros f Hf. destruct f as [|f]; [lia|]. simpl. rewrite Etn. simpl. rewrite Efc.
      by rewrite (modify_Some _ _ _ _ Etn). }
    assert (firstOf h this = Some None) as Hfo by (unfold firstOf; rewrite Etn; simpl; congruence).
    split.
    + eapply ring_inv_views; [..|done]; intros x; heap_cases.
    + exists tn. split; [done|]. rewrite lookup_insert_eq. f_equal.
      destruct tn; simpl in *; by subst.
    + intros x Hx _. by rewrite lookup_insert_ne.
    + intros x Hx. right. by rewrite lookup_insert_ne.
    + intros c Hc. by apply (kids_nil_no_child h this Hinv Hfo) in Hc.
Qed.

(** ** The destructor on a node that has no parent *)

Lemma outside_child (h : Heap) (node c a : addr) :
  is_root h node → outside h node a → is_child h c a → outside h node c.
Proof.
  intros Hroot [Ha Hna] Hc. split.
  - intros ->. by apply (root_not_child h node a).
  - intros Hd. inversion Hd as [x b H|x y b H Hy]; subst.
    + apply Ha. eapply is_child_unique; done.
    + rewrite (is_child_unique _ _ _ _ H Hc) in Hy. done.
Qed.

Lemma delete_Node_root (h : Heap) (node : addr) :
  wf h → is_root h node →
  ∃ f0 h', (∀ f, f0 ≤ f → delete_Node (clear f) node h = Some h') ∧
    wf h' ∧
    (∀ x, outside h node x → h' !! x = h !! x) ∧
    h' !! node = None ∧
    (∀ x, descendant h x node → h' !! x = None) ∧
    (∀ x, h' !! x = None ∨ h' !! x = h !! x).
Proof.
  intros [Hinv [rk Hrk]] Hroot.
  assert (is_Some (h !! node)) as Hlive.
  { apply live_parentOf. destruct Hroot as [-> | ->]; eauto. }
  destruct (clear_total rk (rk node) (size h) h node) as (f0 & h1 & Hf & Hcl); try done.
  pose proof (cleared_inv _ _ _ Hcl) as Hinv1.
  destruct (cleared_this _ _ _ Hcl) as (n & En & En1).
  assert (parentOf h1 node = parentOf h node) as Hpn.
  { unfold parentOf. rewrite En, En1. done. }
  assert (is_root h1 node) as Hroot1 by (unfold is_root; by rewrite Hpn).
  destruct (reparent_None_spec h1 node Hinv1 ltac:(eauto))
    as (h2 & E2 & Hinv2 & Hpa2 & Hpo2 & Hs2 & Hk2 & Hfr2 & Hfi2).
  assert (∀ x, x ≠ node → h2 !! x = h1 !! x) as Hframe2.
  { intros x Hx. apply (reparent_None_frame h1 h2 node Hinv1 E2 x Hx).
    intros q Hq. by apply (root_not_child h1 node q) in Hq. }
  assert (firstOf h2 node = Some None) as Hfc2.
  { rewrite Hfi2; [unfold firstOf; by rewrite En1|].
    intros q Hq. by apply (root_not_child h1 node q) in Hq. }
  exists f0, (delete node h2). split.
  { intros f Hle. unfold delete_Node. rewrite Hf by done. simpl. rewrite E2. done. }
  assert (∀ x, x ≠ node → delete node h2 !! x = h1 !! x) as H3.
  { intros x Hx. rewrite lookup_delete_ne by done. by apply Hframe2. }
  split.
  { split; [apply ring_inv_delete; [done|by left|done]|].
    exists rk. intros a b [Hab Hp].
    assert (a ≠ node) as Han.
    { intros ->. unfold parentOf in Hp. by rewrite lookup_delete_eq in Hp. }
    apply Hrk. eapply cleared_is_child; [done|]. split; [done|].
    unfold parentOf in *. by rewrite <- H3. }
  split.
  { intros x [Hx Hnd]. rewrite H3 by done. by apply (cleared_frame _ _ _ Hcl). }
  split; [apply lookup_delete_eq|].
  split.
  - intros x Hd. assert (x ≠ node) as Hx.
    { intros ->. apply (descendant_rank h rk) in Hd; [lia|done]. }
    rewrite H3 by done. by apply (cleared_descendant _ _ _ _ Hcl).
  - intros x. destruct (decide (x = node)) as [->|Hx]; [left; apply lookup_delete_eq|].
    rewrite H3 by done. by apply (cleared_sub _ _ _ Hcl).
Qed.

(** The lists of children outside the destroyed tree are as before. *)
Lemma kids_outside (h h' : Heap) (node a : addr) (l : list addr) :
  is_root h node → outside h node a →
  (∀ x, outside h node x → h' !! x = h !! x) →
  (∀ x, h' !! x = None ∨ h' !! x = h !! x) →
  kids h a l → kids h' a l.
Proof.
  intros Hroot Ha Hout Hsub Hk. pose proof Hk as (H1 & H2 & H3 & H4).
  assert (∀ c, c ∈ l → h' !! c = h !! c) as Hl.
  { intros c Hc. apply Hout. eapply outside_child; [done|done|]. by apply H3. }
  split_and!.
  - unfold firstOf in *. by rewrite (Hout a Ha).
  - done.
  - intros c. split.
    + intros Hc. pose proof (Hl c Hc) as E. apply H3 in Hc as [? Hp].
      split; [done|]. unfold parentOf in *. by rewrite E.
    + intros [Hca Hp]. apply H3. split; [done|].
      destruct (Hsub c) as [E|E]; unfold parentOf in *; [by rewrite E in Hp|].
      by rewrite <- E.
  - eapply ring_frame; [|done]. intros y Hy. unfold nextOf, prevOf.
    by rewrite (Hl y Hy).
Qed.

(** ** parseContinue: the checks on a candidate *)

Lemma report_more_nil (p : Parser) : report_more p [] = p.
Proof. destruct p. unfold report_more. simpl. by rewrite app_nil_r. Qed.

Lemma checkPreceding_false (fuel : nat) (node : addr) (ch : option addr)
    (p : Parser) (h : Heap) :
  checkPreceding fuel node ch false p h = Some (false, p).
Proof. by destruct fuel. Qed.

Lemma checkPreceding_kids (h : Heap) (this node : addr) (line : N)
    (suf pre : list addr) (fuel : nat) (p : Parser) :
  kids h this (pre ++ suf) → lineNumber node h = Some line → length suf ≤ fuel →
  checkPreceding fuel node (head suf) true p h =
    Some (all_declarations h suf,
          if all_declarations h suf then p
          else errorAtLine p line msg_not_at_beginning).
Proof.
  revert pre fuel. induction suf as [|c suf IH]; intros pre fuel Hk Hline Hf.
  - by destruct fuel.
  - destruct fuel as [|fuel]; simpl in Hf; [lia|].
    assert (is_Some (h !! c)) as [cn Ecn] by (eapply kids_live; [done|set_solver]).
    cbn [checkPreceding head]. rewrite Ecn. cbn [mbind option_bind].
    rewrite (nextSibling_kids _ _ _ _ _ Hk).
    unfold all_declarations. cbn [forallb]. unfold decl_at at 1 3, typeOf. rewrite Ecn.
    cbn [fmap option_fmap option_map].
    destruct (decide (node_type cn = Declaration)) as [Ety|Ety].
    + rewrite bool_decide_true by congruence. cbn [mbind option_bind andb].
      rewrite (IH (pre ++ [c]) fuel); [done| |done|lia]. by rewrite <- app_assoc.
    + rewrite bool_decide_false by congruence. rewrite Hline.
      cbn [mbind option_bind andb]. apply checkPreceding_false.
Qed.

Lemma specialChecks_spec (h : Heap) (this node : addr) (nn tn : Node)
    (l0 : list addr) (fuel : nat) (p : Parser) :
  h !! node = Some nn → h !! this = Some tn → kids h this l0 → length l0 ≤ fuel →
  specialChecks fuel this node p h =
    Some ((verdict true (node_type nn) (node_type tn) (all_declarations h l0)
                   (_inputLineNum nn)).1,
          report_more p (verdict true (node_type nn) (node_type tn)
                           (all_declarations h l0) (_inputLineNum nn)).2).
Proof.
  intros En Et Hk Hf. unfold specialChecks, verdict. rewrite En. cbn [mbind option_bind].
  destruct (decide (node_type nn = Declaration)) as [Ed|Ed]; [|by rewrite report_more_nil].
  rewrite Et. cbn [mbind option_bind].
  assert (lineNumber node h = Some (_inputLineNum nn)) as Hline.
  { unfold lineNumber. by rewrite En. }
  assert (firstChild this h = Some (head l0)) as Hfc.
  { destruct Hk as (Hfo & _). unfold firstChild, firstOf in *. rewrite Et in *.
    simpl in *. congruence. }
  destruct (decide (node_type tn = Document)) as [Et'|Et'].
  - cbn [mbind option_bind]. rewrite Hfc. cbn [mbind option_bind].
    rewrite (checkPreceding_kids h this node (_inputLineNum nn) l0 [] fuel p Hk Hline Hf).
    destruct (all_declarations h l0); [by rewrite report_more_nil|done].
  - rewrite Hline. cbn [mbind option_bind]. rewrite Hfc. cbn [mbind option_bind].
    by rewrite checkPreceding_false.
Qed.

(** ** parseContinue: one candidate *)

Lemma kids_alloc (h : Heap) (a : addr) (n : Node) (x : addr) (l : list addr) :
  ring_inv h → h !! a = None → constructed a n → kids h x l → kids (<[a := n]> h) x l.
Proof.
  intros Hinv Ha (Hpa & Hfc & Hnx & Hpv) Hl.
  assert (∀ y, is_Some (h !! y) → y ≠ a) as Hlive.
  { intros y [? ?] ->. congruence. }
  assert (x ≠ a) as Hxa by (eapply Hlive, kids_parent_live; done).
  pose proof Hl as (H1 & H2 & H3 & H4). split_and!.
  - unfold firstOf. by rewrite lookup_insert_ne.
  - done.
  - intros c. rewrite H3. unfold is_child, parentOf.
    destruct (decide (c = a)) as [->|Hc]; [|by rewrite lookup_insert_ne].
    rewrite lookup_insert_eq, Ha. simpl. rewrite Hpa.
    split; intros [? ?]; congruence.
  - eapply ring_frame; [|done]. intros y Hy.
    assert (y ≠ a) by (eapply Hlive, kids_live; done).
    unfold nextOf, prevOf. by rewrite lookup_insert_ne.
Qed.

Lemma wf_alloc (h : Heap) (a : addr) (n : Node) :
  wf h → h !! a = None → constructed a n → wf (<[a := n]> h).
Proof.
  intros [Hinv [rk Hrk]] Ha Hc. split; [by apply ring_inv_alloc|].
  exists rk. intros c p [Hcp Hp]. apply Hrk. split; [done|].
  unfold parentOf in *. destruct (decide (c = a)) as [->|Hca].
  - rewrite lookup_insert_eq in Hp. simpl in Hp. destruct Hc as (Hpa & _). congruence.
  - by rewrite lookup_insert_ne in Hp.
Qed.

Lemma fresh_not_live (h : Heap) : h !! fresh (dom h) = None.
Proof. apply not_elem_of_dom, is_fresh. Qed.

(** A node that lived before the candidate was built is outside the tree
    that grew under the candidate. *)
Lemma preexisting_outside (h1 hn : Heap) (node : addr) :
  ring_inv h1 → (∀ c, ¬ is_child h1 c node) →
  (∀ x, is_Some (h1 !! x) → x ≠ node → parentOf hn x = parentOf h1 x) →
  ∀ x, is_Some (h1 !! x) → x ≠ node → outside hn node x.
Proof.
  intros Hinv Hno Hsame x Hx Hne. split; [done|]. intros Hd.
  remember node as a eqn:Ea. revert Ea Hx Hne.
  induction Hd as [x a [H1 H2]|x y a [H1 H2] Hd IH]; intros -> Hx Hne.
  - apply (Hno x). split; [done|]. by rewrite <- Hsame.
  - rewrite Hsame in H2 by done.
    pose proof (inv_parent h1 Hinv _ _ H2) as Hy.
    apply IH; try done. intros ->. apply (Hno x). by split.
Qed.

Lemma is_root_live (h : Heap) (a : addr) : is_root h a → is_Some (h !! a).
Proof. intros [H|H]; apply live_parentOf; rewrite H; eauto. Qed.

Lemma all_declarations_same (h h' : Heap) (l : list addr) :
  (∀ c, c ∈ l → scalarsOf h' c = scalarsOf h c) →
  all_declarations h' l = all_declarations h l.
Proof.
  intros H. unfold all_declarations. induction l as [|c l IH]; [done|].
  simpl. rewrite IH by set_solver. f_equal.
  unfold decl_at, typeOf. specialize (H c ltac:(set_solver)).
  unfold scalarsOf, scalars in H.
  destruct (h' !! c) as [n'|], (h !! c) as [n|]; simpl in *; try done.
  injection H as H _ _ _. by rewrite H.
Qed.

Lemma iteration_spec (h1 : Heap) (this node : addr) (p1 : Parser) (l0 : list addr)
    (f1 : nat) (ok : bool) (pn : Parser) (hn : Heap) (trn : list Iteration) :
  wf h1 → is_root h1 this → is_root h1 node → node ≠ this →
  kids h1 node [] → kids h1 this l0 →
  (∀ f, f1 ≤ f → parseLoop f node true p1 h1 = Some (ok, pn, hn)) →
  parsed node true p1 h1 ok pn hn trn →
  ∃ f2 h3 nn tn,
    hn !! node = Some nn ∧ h1 !! this = Some tn ∧ scalarsOf h1 node = Some (scalars nn) ∧
    let v := verdict ok (node_type nn) (node_type tn) (all_declarations h1 l0)
                     (_inputLineNum nn) in
    (∀ f, f2 ≤ f →
       readNode (λ n, parseLoop f n true) f this node p1 h1
         = Some (v.1, report_more pn v.2, hn) ∧
       (if v.1 then reparent node (Some this) hn
        else delete_Node (clear f) node hn) = Some h3) ∧
    wf h3 ∧
    (∀ x, is_Some (h1 !! x) → x ≠ node →
          scalarsOf h3 x = scalarsOf h1 x ∧ parentOf h3 x = parentOf h1 x) ∧
    (∀ a l, a ≠ this → a ≠ node → kids h1 a l → kids h3 a l) ∧
    kids h3 this (l0 ++ if v.1 then [node] else []) ∧
    (if v.1 then is_child h3 node this ∧ scalarsOf h3 node = Some (scalars nn)
     else h3 !! node = None).
Proof.
  intros Hwf1 Hrt Hrn Hne Hkn Hkt Hnested Hp.
  pose proof (parsed_wf _ _ _ _ _ _ _ _ Hp) as Hwfn.
  pose proof Hwf1 as [Hinv1 _]. pose proof Hwfn as [Hinvn [rk Hrk]].
  pose proof (is_root_live _ _ Hrt) as Htl. pose proof (is_root_live _ _ Hrn) as Hnl.
  destruct (parsed_same _ _ _ _ _ _ _ _ Hp node Hnl) as [Hsn Hpn].
  destruct (parsed_same _ _ _ _ _ _ _ _ Hp this Htl) as [Hst Hpt].
  assert (is_root hn this) as Hrtn by (unfold is_root; by rewrite Hpt).
  assert (is_root hn node) as Hrnn by (unfold is_root; by rewrite Hpn).
  destruct (is_root_live _ _ Hrnn) as [nn Enn].
  destruct (is_root_live _ _ Hrtn) as [tnn Etnn].
  destruct Htl as [tn Etn].
  assert (node_type tnn = node_type tn) as Ety.
  { unfold scalarsOf, scalars in Hst. rewrite Etnn, Etn in Hst. simpl in Hst. congruence. }
  pose proof (parsed_others _ _ _ _ _ _ _ _ Hp this l0 ltac:(done) Hkt) as Hktn.
  assert (all_declarations hn l0 = all_declarations h1 l0) as Eall.
  { apply all_declarations_same. intros c Hc.
    apply (parsed_same _ _ _ _ _ _ _ _ Hp). eapply kids_live; done. }
  set (v := verdict ok (node_type nn) (node_type tn) (all_declarations h1 l0)
                    (_inputLineNum nn)).
  assert (∀ f, f1 + length l0 ≤ f →
            readNode (λ n, parseLoop f n true) f this node p1 h1
              = Some (v.1, report_more pn v.2, hn)) as Hread.
  { intros f Hf. unfold readNode. rewrite Hnested by lia. cbn [mbind option_bind].
    destruct ok.
    - rewrite (specialChecks_spec hn this node nn tnn l0 f pn Enn Etnn Hktn) by lia.
      cbn [mbind option_bind]. subst v. by rewrite Ety, Eall.
    - unfold lineNumber. rewrite Enn. done. }
  assert (scalarsOf h1 node = Some (scalars nn)) as Hscn.
  { rewrite <- Hsn. unfold scalarsOf. by rewrite Enn. }
  assert (∀ c, ¬ is_child h1 c node) as Hnochild.
  { intros c Hc. destruct Hkn as (_ & _ & H3 & _). apply H3 in Hc. by apply elem_of_nil in Hc. }
  destruct (v.1) eqn:Ev.
  - (* the candidate is fine: node->reparent(this) *)
    destruct (reparent_root_spec hn node this Hinvn Hrnn ltac:(eauto) ltac:(done))
      as (h3 & E3 & Hinv3 & Hpa3 & Hpo3 & Hs3 & Hk3 & _).
    exists (f1 + length l0), h3, nn, tn. split; [done|]. split; [done|]. split; [done|].
    cbv zeta. fold v. rewrite Ev.
    split; [intros f Hf; split; [by apply Hread|done]|].
    split.
    { split; [done|].
      exists (λ x, if decide (x = this) then Nat.max (rk this) (S (rk node)) else rk x).
      intros c q [Hcq Hpc]. destruct (decide (c = node)) as [->|Hcn].
      - assert (q = this) as -> by congruence.
        rewrite decide_False by done. rewrite decide_True by done. lia.
      - rewrite Hpo3 in Hpc by done.
        assert (is_child hn c q) as Hc by (split; done).
        assert (c ≠ this) as Hct by (intros ->; by apply (root_not_child hn this q)).
        apply Hrk in Hc. rewrite (decide_False (P := c = this)) by done.
        destruct (decide (q = this)) as [->|]; lia. }
    split.
    { intros x Hx Hxn. destruct (parsed_same _ _ _ _ _ _ _ _ Hp x Hx) as [<- <-].
      split; [apply Hs3|by apply Hpo3]. }
    split.
    { intros a l Ha Han Hk.
      pose proof (parsed_others _ _ _ _ _ _ _ _ Hp a l Han Hk) as Hk'.
      apply Hk3 in Hk'. by rewrite decide_False, app_nil_r in Hk'. }
    split.
    { apply Hk3 in Hktn. by rewrite decide_True in Hktn. }
    split; [by split|]. rewrite Hs3. unfold scalarsOf. by rewrite Enn.
  - (* the candidate is rejected: delete node *)
    destruct (delete_Node_root hn node Hwfn Hrnn) as (f0 & h3 & E3 & Hwf3 & Hout & Hgone & _ & Hsub).
    assert (∀ x, is_Some (h1 !! x) → x ≠ node → outside hn node x) as Hpre.
    { apply preexisting_outside; [done|done|].
      intros x Hx _. by apply (parsed_same _ _ _ _ _ _ _ _ Hp). }
    exists (f0 + (f1 + length l0)), h3, nn, tn. split; [done|]. split; [done|]. split; [done|].
    cbv zeta. fold v. rewrite Ev.
    split; [intros f Hf; split; [apply Hread; lia|apply E3; lia]|].
    split; [done|].
    split.
    { intros x Hx Hxn. destruct (parsed_same _ _ _ _ _ _ _ _ Hp x Hx) as [<- <-].
      unfold scalarsOf, parentOf. by rewrite (Hout x (Hpre x Hx Hxn)). }
    split.
    { intros a l Ha Han Hk.
      pose proof (parsed_others _ _ _ _ _ _ _ _ Hp a l Han Hk) as Hk'.
      eapply kids_outside; [exact Hrnn| |done|done|done].
      apply Hpre; [|done]. eapply kids_parent_live; done. }
    split; [|done]. rewrite app_nil_r.
    eapply kids_outside; [exact Hrnn| |done|done|done].
    apply Hpre; [eauto|done].
Qed.

(** ** parseContinue: the whole loop *)

Lemma verdict_accept (ok : bool) (tyN tyT : NodeType) (alldecl : bool) (line : N) :
  (verdict ok tyN tyT alldecl line).1 = true →
  ok = true ∧ (verdict ok tyN tyT alldecl line).2 = [].
Proof.
  unfold verdict. destruct ok; [|done].
  repeat case_decide; destruct alldecl; simpl; done.
Qed.

Lemma verdict_reject (ok : bool) (tyN tyT : NodeType) (alldecl : bool) (line : N) :
  (verdict ok tyN tyT alldecl line).1 = false →
  ∃ msg, (verdict ok tyN tyT alldecl line).2 = [(line, msg)].
Proof.
  unfold verdict. destruct ok; [|by eexists].
  repeat case_decide; destruct alldecl; simpl; try done; by eexists.
Qed.

Lemma entries_nil (tr : list Iteration) :
  Forall (λ e, if it_ok e then it_entries e = []
               else ∃ nested own, it_entries e = nested ++ [own]) tr →
  forallb it_ok tr = true → concat (map it_entries tr) = [].
Proof.
  induction 1 as [|e tr He _ IH]; [done|]. simpl.
  intros [H1 H2]%andb_prop. rewrite H1 in He. rewrite He. by apply IH.
Qed.

Lemma attached_cons (node : addr) (ok : bool) (es : list (N * string))
    (tr : list Iteration) :
  attached (mkIteration node ok es :: tr) = (if ok then [node] else []) ++ attached tr.
Proof.
  unfold attached. rewrite filter_cons. simpl. destruct ok.
  - by rewrite decide_True.
  - by rewrite decide_False.
Qed.

Lemma constructed_identify (r : RawNode) (a : addr) :
  constructed a (with_closingType (raw_closing r)
                   (with_value (raw_value r) (new_Node (raw_type r) (raw_line r) a))).
Proof. done. Qed.

(** From a well-formed heap, on a context that has no parent, enough fuel
    makes [parseContinue] return, whatever the input. *)
Lemma parseLoop_total (n : nat) :
  ∀ inp rep h this result, length inp ≤ n → wf h → is_root h this →
  ∃ f0 r p' h' tr,
    (∀ f, f0 ≤ f →
       parseLoop f this result (mkParser inp rep) h = Some (r, p', h') ∧
       loopTrace f this (mkParser inp rep) h = Some tr) ∧
    parsed this result (mkParser inp rep) h r p' h' tr.
Proof.
  induction n as [n IH] using lt_wf_ind.
  intros inp rep h this result Hlen Hwf Hroot.
  pose proof Hwf as [Hinv _].
  destruct inp as [|[raw|] rest].
  - exists 1, result, (mkParser [] rep), h, []. split.
    { intros f Hf. destruct f as [|f]; [lia|]. done. }
    split; try done.
    + intros l0 Hk. by rewrite app_nil_r.
    + simpl. by rewrite app_nil_r.
    + by rewrite andb_true_r.
  - (* identify yields a candidate *)
    set (node := fresh (dom h)).
    set (nd := with_closingType (raw_closing raw)
                 (with_value (raw_value raw) (new_Node (raw_type raw) (raw_line raw) node))).
    set (h1 := <[node := nd]> h).
    set (p1 := mkParser rest rep).
    assert (identify (mkParser (Some raw :: rest) rep) h = (Some node, p1, h1)) as Eid by done.
    pose proof (fresh_not_live h) as Hfresh. fold node in Hfresh.
    pose proof (constructed_identify raw node) as Hcons. fold nd in Hcons.
    assert (wf h1) as Hwf1 by (by apply wf_alloc).
    pose proof (is_root_live _ _ Hroot) as Hthis.
    assert (node ≠ this) as Hne by (intros E; rewrite E in Hfresh; rewrite Hfresh in Hthis; by destruct Hthis).
    assert (∀ x, is_Some (h !! x) → h1 !! x = h !! x) as Hsame1.
    { intros x Hx. unfold h1. rewrite lookup_insert_ne; [done|].
      intros <-. rewrite Hfresh in Hx. by destruct Hx. }
    assert (is_root h1 this) as Hroot1.
    { unfold is_root, parentOf. rewrite Hsame1 by done. exact Hroot. }
    assert (is_root h1 node) as Hrootn.
    { right. unfold parentOf, h1. by rewrite lookup_insert_eq. }
    assert (kids h1 node []) as Hkn.
    { split_and!.
      - unfold firstOf, h1. by rewrite lookup_insert_eq.
      - constructor.
      - intros c. split; [by intros ?%elem_of_nil|]. intros [Hc Hp].
        unfold parentOf, h1 in Hp. rewrite lookup_insert_ne in Hp by done.
        apply (inv_parent h Hinv) in Hp. rewrite Hfresh in Hp. by destruct Hp.
      - done. }
    destruct (inv_kids h Hinv this Hthis) as [l0 Hl0].
    assert (kids h1 this l0) as Hl1 by (by apply kids_alloc).
    simpl in Hlen.
    destruct (IH (length rest) ltac:(lia) rest rep h1 node true ltac:(lia) Hwf1 Hrootn)
      as (f1 & ok & pn & hn & trn & Hnested & Hpn).
    destruct (iteration_spec h1 this node p1 l0 f1 ok pn hn trn Hwf1 Hroot1 Hrootn Hne
                Hkn Hl1 (λ f Hf, proj1 (Hnested f Hf)) Hpn)
      as (f2 & h3 & nn & tn & Enn & Etn & Hscn & Hbody & Hwf3 & Hsame3 & Hoth3 & Hk3 & Hnode3).
    set (v := verdict ok (node_type nn) (node_type tn) (all_declarations h1 l0)
                      (_inputLineNum nn)) in *.
    cbv zeta in Hbody.
    assert (is_root h3 this) as Hroot3.
    { unfold is_root. destruct (Hsame3 this ltac:(eauto) ltac:(done)) as [_ ->]. done. }
    pose proof (parsed_input _ _ _ _ _ _ _ _ Hpn) as Hin. simpl in Hin.
    destruct (IH (length (input pn)) ltac:(lia) (input pn) (report pn ++ v.2) h3 this
                (if v.1 then result else false) ltac:(lia) Hwf3 Hroot3)
      as (f3 & r & p' & h' & tr' & Hrest & Hp').
    set (es := drop (length rep) (report pn ++ v.2)).
    assert (es = concat (map it_entries trn) ++ v.2) as Ees.
    { unfold es. rewrite (parsed_report _ _ _ _ _ _ _ _ Hpn). simpl.
      rewrite <- app_assoc. by rewrite drop_app_length. }
    exists (S (Nat.max f2 f3)), r, p', h', (mkIteration node v.1 es :: tr'). split.
    { intros f Hf. destruct f as [|f]; [lia|].
      destruct (Hbody f ltac:(lia)) as [Hread Hact].
      destruct (Hrest f ltac:(lia)) as [Hloop Htrace].
      cbn [parseLoop loopTrace]. rewrite Eid. rewrite Hread.
      cbn [mbind option_bind]. split.
      - destruct (v.1); rewrite Hact; cbn [mbind option_bind]; exact Hloop.
      - rewrite Hact. cbn [mbind option_bind].
        change (report_more pn v.2) with (mkParser (input pn) (report pn ++ v.2)).
        rewrite Htrace. done. }
    split.
    + apply (parsed_wf _ _ _ _ _ _ _ _ Hp').
    + intros x Hx. assert (x ≠ node) as Hxn.
      { intros ->. rewrite Hfresh in Hx. by destruct Hx. }
      assert (is_Some (h1 !! x)) as Hx1 by (by rewrite Hsame1).
      destruct (Hsame3 x Hx1 Hxn) as [Hs Hp].
      assert (is_Some (h3 !! x)) as Hx3.
      { apply live_parentOf. rewrite Hp. by apply live_parentOf. }
      destruct (parsed_same _ _ _ _ _ _ _ _ Hp' x Hx3) as [-> ->].
      rewrite Hs, Hp. unfold scalarsOf, parentOf. by rewrite Hsame1.
    + intros a l Ha Hk.
      assert (a ≠ node) as Han.
      { intros ->. apply kids_parent_live in Hk. rewrite Hfresh in Hk. by destruct Hk. }
      apply (parsed_others _ _ _ _ _ _ _ _ Hp'); [done|].
      apply Hoth3; [done|done|]. by apply kids_alloc.
    + intros l Hk. rewrite (kids_unique _ _ _ _ Hk Hl0).
      rewrite attached_cons, app_assoc.
      by apply (parsed_kids _ _ _ _ _ _ _ _ Hp').
    + pose proof (parsed_input _ _ _ _ _ _ _ _ Hp') as Hin'. simpl in *. lia.
    + rewrite (parsed_report _ _ _ _ _ _ _ _ Hp'). simpl.
      rewrite Ees. rewrite (parsed_report _ _ _ _ _ _ _ _ Hpn). simpl.
      by rewrite <- !app_assoc.
    + rewrite (parsed_result _ _ _ _ _ _ _ _ Hp'). simpl.
      destruct (v.1), result; done.
    + constructor; [|apply (parsed_entries _ _ _ _ _ _ _ _ Hp')].
      simpl. destruct (v.1) eqn:Ev.
      * apply verdict_accept in Ev as [-> Ev]. fold v in Ev. rewrite Ees, Ev, app_nil_r.
        apply entries_nil; [apply (parsed_entries _ _ _ _ _ _ _ _ Hpn)|].
        pose proof (parsed_result _ _ _ _ _ _ _ _ Hpn) as Hr. simpl in Hr. done.
      * apply verdict_reject in Ev as [msg Ev]. fold v in Ev. rewrite Ees, Ev.
        by eexists _, _.
  - (* identify yields none to this context *)
    exists 1, result, (mkParser rest rep), h, []. split.
    { intros f Hf. destruct f as [|f]; [lia|]. done. }
    split; try done.
    + intros l0 Hk. by rewrite app_nil_r.
    + simpl. lia.
    + simpl. by rewrite app_nil_r.
    + by rewrite andb_true_r.
Qed.

(** Once [result] is false it stays false. *)
Lemma parseLoop_false (f : nat) :
  ∀ this p h r p' h', parseLoop f this false p h = Some (r, p', h') → r = false.
Proof.
  induction f as [|f IH]; intros this p h r p' h'; [done|].
  cbn [parseLoop]. destruct (identify p h) as [[[node|] p1] h1].
  - destruct (readNode _ f this node p1 h1) as [[[ok p2] h2]|]; [|done].
    cbn [mbind option_bind]. destruct ok.
    + destruct (reparent node (Some this) h2) as [h3|]; [|done]. apply IH.
    + destruct (delete_Node (clear f) node h2) as [h3|]; [|done]. apply IH.
  - by intros [= <- _ _].
Qed.

Lemma entries_nil_inv (tr : list Iteration) :
  Forall (λ e, if it_ok e then it_entries e = []
               else ∃ nested own, it_entries e = nested ++ [own]) tr →
  concat (map it_entries tr) = [] → forallb it_ok tr = true.
Proof.
  induction 1 as [|e tr He _ IH]; [done|]. simpl.
  intros [E1 E2]%app_eq_nil. rewrite (IH E2), andb_true_r.
  destruct (it_ok e); [done|]. destruct He as (nested & own & He).
  rewrite He in E1. by apply app_eq_nil in E1 as [_ ?].
Qed.

(** The turn of the loop on the candidate built from [raw]: its own parse
    returns, and the loop body follows [verdict]. *)
Lemma candidate_spec (h : Heap) (this : addr) (raw : RawNode)
    (rest : list (option RawNode)) (rep : list (N * string)) (l0 : list addr) (tn : Node) :
  wf h → is_root h this → kids h this l0 → h !! this = Some tn →
  let node := fresh (dom h) in
  let h1 := <[node := candidate raw node]> h in
  ∃ f0 ok pn hn h3 nested,
    let v := verdict ok (raw_type raw) (node_type tn) (all_declarations h l0)
                     (raw_line raw) in
    (∀ f, f0 ≤ f →
       parseContinue f node (mkParser rest rep) h1 = Some (ok, pn, hn) ∧
       readNode (λ n, parseLoop f n true) f this node (mkParser rest rep) h1
         = Some (v.1, report_more pn v.2, hn) ∧
       (if v.1 then reparent node (Some this) hn
        else delete_Node (clear f) node hn) = Some h3 ∧
       ∀ result, parseLoop (S f) this result (mkParser (Some raw :: rest) rep) h
                 = parseLoop f this (if v.1 then result else false)
                             (report_more pn v.2) h3) ∧
    report pn = rep ++ nested ∧ (ok = true ↔ nested = []) ∧
    wf h3 ∧ is_root h3 this ∧
    kids h3 this (l0 ++ if v.1 then [node] else []) ∧
    (if v.1 then is_child h3 node this ∧ scalarsOf h3 node = Some (scalars (candidate raw node))
     else h3 !! node = None).
Proof.
  intros Hwf Hroot Hl0 Etn node h1.
  pose proof Hwf as [Hinv _].
  pose proof (fresh_not_live h) as Hfresh. fold node in Hfresh.
  pose proof (constructed_identify raw node) as Hcons.
  assert (wf h1) as Hwf1 by (by apply wf_alloc).
  assert (node ≠ this) as Hne by (intros E; rewrite E in Hfresh; congruence).
  assert (∀ x, is_Some (h !! x) → h1 !! x = h !! x) as Hsame1.
  { intros x Hx. unfold h1. rewrite lookup_insert_ne; [done|].
    intros <-. rewrite Hfresh in Hx. by destruct Hx. }
  assert (is_root h1 this) as Hroot1.
  { unfold is_root, parentOf. rewrite Hsame1 by eauto. exact Hroot. }
  assert (is_root h1 node) as Hrootn.
  { right. unfold parentOf, h1. by rewrite lookup_insert_eq. }
  assert (kids h1 node []) as Hkn.
  { split_and!.
    - unfold firstOf, h1. by rewrite lookup_insert_eq.
    - constructor.
    - intros c. split; [by intros ?%elem_of_nil|]. intros [Hc Hp].
      unfold parentOf, h1 in Hp. rewrite lookup_insert_ne in Hp by done.
      apply (inv_parent h Hinv) in Hp. rewrite Hfresh in Hp. by destruct Hp.
    - done. }
  assert (kids h1 this l0) as Hl1 by (by apply kids_alloc).
  destruct (parseLoop_total (length rest) rest rep h1 node true ltac:(lia) Hwf1 Hrootn)
    as (f1 & ok & pn & hn & trn & Hnested & Hpn).
  destruct (iteration_spec h1 this node (mkParser rest rep) l0 f1 ok pn hn trn Hwf1 Hroot1
              Hrootn Hne Hkn Hl1 (λ f Hf, proj1 (Hnested f Hf)) Hpn)
    as (f2 & h3 & nn & tn' & Enn & Etn' & Hscn & Hbody & Hwf3 & Hsame3 & Hoth3 & Hk3 & Hnode3).
  assert (tn' = tn) as -> by (rewrite Hsame1 in Etn' by eauto; congruence).
  assert (scalars nn = scalars (candidate raw node)) as Hsc.
  { unfold scalarsOf, h1 in Hscn. rewrite lookup_insert_eq in Hscn. simpl in Hscn. congruence. }
  assert (node_type nn = raw_type raw ∧ _inputLineNum nn = raw_line raw) as [Ety Eline].
  { unfold scalars in Hsc. simpl in Hsc. split; congruence. }
  assert (all_declarations h1 l0 = all_declarations h l0) as Eall.
  { apply all_declarations_same. intros c Hc. unfold scalarsOf. rewrite Hsame1; [done|].
    eapply kids_live; done. }
  cbv zeta in Hbody. rewrite Ety, Eline, Eall in Hbody, Hk3, Hnode3.
  exists (Nat.max f1 f2), ok, pn, hn, h3, (concat (map it_entries trn)). cbv zeta.
  set (v := verdict ok (raw_type raw) (node_type tn) (all_declarations h l0) (raw_line raw)) in *.
  split.
  { intros f Hf. destruct (Hbody f ltac:(lia)) as [Hread Hact].
    split; [apply Hnested; lia|]. split; [done|]. split; [done|].
    intros result. cbn [parseLoop].
    change (identify (mkParser (Some raw :: rest) rep) h)
      with (Some node, mkParser rest rep, h1).
    cbv iota beta. rewrite Hread. cbn [mbind option_bind].
    destruct (v.1); rewrite Hact; done. }
  split; [apply (parsed_report _ _ _ _ _ _ _ _ Hpn)|].
  split.
  { rewrite (parsed_result _ _ _ _ _ _ _ _ Hpn). simpl. split.
    - apply entries_nil, (parsed_entries _ _ _ _ _ _ _ _ Hpn).
    - apply entries_nil_inv, (parsed_entries _ _ _ _ _ _ _ _ Hpn). }
  split; [done|].
  split.
  { unfold is_root. destruct (Hsame3 this ltac:(rewrite Hsame1; eauto) ltac:(done)) as [_ ->].
    done. }
  split; [done|].
  destruct (v.1); [|done]. destruct Hnode3 as [? ?]. split; [done|]. congruence.
Qed.

(** ** Concrete heaps *)

Lemma wf_empty : wf ∅.
Proof.
  split; [apply ring_inv_empty|]. exists (λ _, 0). intros c p [_ H].
  unfold parentOf in H. by rewrite lookup_empty in H.
Qed.

Lemma wf_doc0 : wf doc0.
Proof. apply wf_alloc; [apply wf_empty|done|done]. Qed.

Lemma wf_elem0 : wf elem0.
Proof. apply wf_alloc; [apply wf_empty|done|done]. Qed.

Lemma root_doc0 : is_root doc0 1%positive.
Proof. right. reflexivity. Qed.


Lemma kids_root_alloc (h : Heap) (a : addr) (n : Node) :
  ring_inv h → h !! a = None → constructed a n → kids (<[a := n]> h) a [].
Proof.
  intros Hinv Ha Hc.
  destruct (inv_kids _ (ring_inv_alloc h a n Hinv Ha Hc) a) as [l Hl].
  { rewrite lookup_insert_eq. eauto. }
  pose proof Hl as (H1 & _). unfold firstOf in H1. rewrite lookup_insert_eq in H1.
  destruct Hc as (_ & Hf & _). simpl in H1. rewrite Hf in H1.
  destruct l; [done|]. simpl in H1. congruence.
Qed.

Lemma ring_inv_nodes4 : ring_inv nodes4.
Proof.
  unfold nodes4. repeat (apply ring_inv_alloc; [|done|done]). apply ring_inv_empty.
Qed.

Lemma kids_nodes4 : kids nodes4 1%positive [].
Proof.
  unfold nodes4.
  apply kids_alloc; [|done|done|].
  { repeat (apply ring_inv_alloc; [|done|done]). apply ring_inv_empty. }
  apply kids_alloc; [|done|done|].
  { repeat (apply ring_inv_alloc; [|done|done]). apply ring_inv_empty. }
  apply kids_alloc; [|done|done|].
  { apply ring_inv_alloc; [|done|done]. apply ring_inv_empty. }
  apply kids_root_alloc; [apply ring_inv_empty|done|done].
Qed.

Lemma attach_all_built (nodes : list addr) (p : addr) (h h' : Heap) (l0 : list addr) :
  ring_inv h → kids h p l0 → NoDup nodes →
  (∀ n, n ∈ nodes → is_Some (h !! n) ∧ n ≠ p ∧ parentOf h n ≠ Some (Some p)) →
  attach_all nodes p h = Some h' → ring_inv h' ∧ kids h' p (l0 ++ nodes).
Proof.
  intros Hinv Hk Hnd Hn E.
  destruct (attach_all_spec nodes p h l0 Hinv Hk Hnd Hn) as (h'' & E' & ? & ?).
  assert (h'' = h') as -> by congruence. done.
Qed.

Lemma nodes4_members (nodes : list addr) :
  nodes ⊆ [2; 3; 4]%positive →
  ∀ n, n ∈ nodes → is_Some (nodes4 !! n) ∧ n ≠ 1%positive ∧
                   parentOf nodes4 n ≠ Some (Some 1%positive).
Proof.
  intros Hsub n Hn. apply Hsub in Hn.
  repeat (apply elem_of_cons in Hn as [->|Hn]); [..|by apply elem_of_nil in Hn];
    split_and!; try done; by eexists.
Qed.

Lemma heap1_built : ring_inv heap1 ∧ kids heap1 1%positive [2%positive].
Proof.
  apply (attach_all_built [2%positive] 1%positive nodes4 heap1 []).
  - apply ring_inv_nodes4.
  - apply kids_nodes4.
  - apply NoDup_singleton.
  - apply nodes4_members. set_solver.
  - vm_compute. reflexivity.
Qed.

Lemma heap3_built : ring_inv heap3 ∧ kids heap3 1%positive [2; 3; 4]%positive.
Proof.
  apply (attach_all_built [2; 3; 4]%positive 1%positive nodes4 heap3 []).
  - apply ring_inv_nodes4.
  - apply kids_nodes4.
  - by apply (bool_decide_unpack _).
  - apply nodes4_members. set_solver.
  - vm_compute. reflexivity.
Qed.

(** A rank on a concrete heap, checked node by node. *)
Ltac ranked_enum Edom :=
  let c := fresh "c" in let p := fresh "p" in
  let Hne := fresh "Hne" in let Hp := fresh "Hp" in let Hc := fresh "Hc" in
  intros c p [Hne Hp];
  match type of Hp with
  | parentOf ?h _ = _ =>
      assert (c ∈ dom h) as Hc
        by (apply elem_of_dom, live_parentOf; rewrite Hp; eauto)
  end;
  rewrite Edom in Hc;
  repeat (apply elem_of_union in Hc as [Hc|Hc]);
  apply elem_of_singleton in Hc; subst c;
  vm_compute in Hp; simplify_eq; vm_compute; lia.

Lemma ranked_heap1 : ranked heap1 (λ x, if decide (x = 1%positive) then 1 else 0).
Proof.
  assert (dom heap1 = {[1; 2; 3; 4]}%positive) as Edom by (vm_compute; reflexivity).
  ranked_enum Edom.
Qed.

Lemma heap_nested_built : ring_inv heap_nested.
Proof.
  destruct heap3_built as [Hinv _].
  destruct (reparent_spec heap3 4%positive 3%positive Hinv)
    as (h' & E & Hinv' & _); [vm_compute; by eexists..|done|vm_compute; discriminate|].
  unfold heap_nested. by rewrite E.
Qed.

Lemma ranked_heap_nested :
  ranked heap_nested (λ x, if decide (x = 1%positive) then 2
                           else if decide (x = 3%positive) then 1 else 0).
Proof.
  assert (dom heap_nested = {[1; 2; 3; 4]}%positive) as Edom by (vm_compute; reflexivity).
  ranked_enum Edom.
Qed.

Lemma elem1_built : ring_inv elem1 ∧ kids elem1 1%positive [2%positive].
Proof.
  assert (ring_inv elem0) as Hinv0 by apply wf_elem0.
  set (hb := <[2%positive := with_value "b" (new_Node Element 2 2%positive)]> elem0).
  assert (ring_inv hb) as Hinv by (by apply ring_inv_alloc).
  assert (kids hb 1%positive []) as Hk.
  { apply kids_alloc; [done|done|done|].
    apply kids_root_alloc; [apply ring_inv_empty|done|done]. }
  destruct (reparent_root_spec hb 2%positive 1%positive Hinv)
    as (h' & E & Hinv' & _ & _ & _ & Hk' & _);
    [right; reflexivity|by eexists|done|].
  assert (elem1 = h') as -> by (unfold elem1; fold hb; by rewrite E).
  split; [done|]. apply Hk' in Hk. by rewrite decide_True in Hk.
Qed.

Lemma wf_elem1 : wf elem1.
Proof.
  split; [apply elem1_built|].
  exists (λ x, if decide (x = 1%positive) then 1 else 0).
  assert (dom elem1 = {[1; 2]}%positive) as Edom by (vm_compute; reflexivity).
  ranked_enum Edom.
Qed.

(** * The claims about the tree *)

(** C5, as it fails: [reparent(p)] on a node that is already a child of
    [p] returns at once; the first of the three children of the document
    stays first. *)
Lemma reparent_child_not_moved :
  firstChild 1%positive heap3 = Some (Some 2%positive) ∧
  ∃ h' l, reparent 2%positive (Some 1%positive) heap3 = Some h' ∧
          children 3 1%positive h' = Some l ∧
          l = [2; 3; 4]%positive ∧ last l ≠ Some 2%positive ∧
          nextOf h' 2%positive ≠ Some 2%positive.
Proof.
  split; [vm_compute; reflexivity|].
  exists heap3, [2; 3; 4]%positive.
  split_and!; try (vm_compute; reflexivity); vm_compute; discriminate.
Qed.

(** C5, amended: for every node [n] that is not already a child of [p],
    and [p] another node with at least one child, [reparent(p)] links [n]
    immediately before [p]'s [_firstChild] in the ring, which leaves
    [_firstChild] as it is and puts [n] last in the walk by [nextSibling];
    so the nodes of a sequence attached one after another to [p] follow
    the children [p] had, in the order of attachment. *)
Theorem reparent_appends :
  (∀ (h : Heap) (n p c : addr) (r : list addr),
     ring_inv h → is_Some (h !! n) → p ≠ n → parentOf h n ≠ Some (Some p) →
     kids h p (c :: r) →
     ∃ h', reparent n (Some p) h = Some h' ∧
       nextOf h' n = Some c ∧ prevOf h' c = Some n ∧
       firstChild p h' = Some (Some c) ∧
       children (length (c :: r ++ [n])) p h' = Some (c :: r ++ [n])) ∧
  (∀ (h : Heap) (p : addr) (l0 nodes : list addr),
     ring_inv h → kids h p l0 → NoDup nodes →
     (∀ n, n ∈ nodes → is_Some (h !! n) ∧ n ≠ p ∧ parentOf h n ≠ Some (Some p)) →
     ∃ h', attach_all nodes p h = Some h' ∧
       children (length (l0 ++ nodes)) p h' = Some (l0 ++ nodes)).
Proof.
  split.
  - intros h n p c r Hinv Hn Hne Hpar Hk.
    destruct (reparent_spec h n p Hinv Hn (kids_parent_live _ _ _ Hk) Hne Hpar)
      as (h' & E & Hinv' & _ & _ & _ & Hk').
    specialize (Hk' p (c :: r) Hk). rewrite decide_True in Hk' by done.
    assert (n ∉ c :: r) as Hnin.
    { intros Hin. destruct Hk as (_ & _ & Hc & _). apply Hc in Hin as [_ ?]. done. }
    rewrite without_notin in Hk' by done.
    exists h'. split; [done|].
    pose proof Hk' as (Hf & _ & _ & Hr). split_and!.
    + apply (ring_next h' (c :: r) [] n Hr).
    + pose proof (ring_prev_head h' c (r ++ [n]) Hr) as Hp. by rewrite last_snoc in Hp.
    + unfold firstChild, firstOf in *. destruct (h' !! p); simpl in *; congruence.
    + by apply children_kids.
  - intros h p l0 nodes Hinv Hk Hnd Hn.
    destruct (attach_all_spec nodes p h l0 Hinv Hk Hnd Hn) as (h' & E & _ & Hk').
    exists h'. split; [done|]. by apply children_kids.
Qed.

Lemma reparent_appends_witness :
  (∃ h', reparent 3%positive (Some 1%positive) heap1 = Some h' ∧
     nextOf h' 3%positive = Some 2%positive ∧ prevOf h' 2%positive = Some 3%positive ∧
     firstChild 1%positive h' = Some (Some 2%positive) ∧
     children 2 1%positive h' = Some [2; 3]%positive) ∧
  (∃ h', attach_all [2; 3; 4]%positive 1%positive nodes4 = Some h' ∧
     children 3 1%positive h' = Some [2; 3; 4]%positive).
Proof.
  split.
  - apply (proj1 reparent_appends heap1 3%positive 1%positive 2%positive []).
    + apply heap1_built.
    + by eexists.
    + done.
    + vm_compute. discriminate.
    + apply heap1_built.
  - apply (proj2 reparent_appends nodes4 1%positive [] [2; 3; 4]%positive).
    + apply ring_inv_nodes4.
    + apply kids_nodes4.
    + by apply (bool_decide_unpack _).
    + apply nodes4_members. set_solver.
Defined.

(** C6: in a heap whose rings are sound, as the constructor makes them
    and [reparent], [clear] and [parseContinue] keep them, the walk from
    [firstChild] by [nextSibling] visits every child of a node exactly
    once and gets null after the last; a node with no child has a null
    [firstChild]. *)
Theorem nextSibling_visits_children (h : Heap) (a : addr) :
  ring_inv h → is_Some (h !! a) →
  ∃ l, children (length l) a h = Some l ∧ NoDup l ∧
       (∀ c, c ∈ l ↔ is_child h c a) ∧
       (∀ c, last l = Some c → nextSibling c h = Some None) ∧
       ((∀ c, ¬ is_child h c a) → firstChild a h = Some None).
Proof.
  intros Hinv Ha. destruct (inv_kids h Hinv a Ha) as [l Hl]. exists l.
  pose proof Hl as (H1 & H2 & H3 & H4). split_and!.
  - by apply children_kids.
  - done.
  - done.
  - intros c Hc. apply last_Some in Hc as [l' ->].
    by rewrite (nextSibling_kids h a c l' []).
  - by apply no_child_firstChild.
Qed.

Lemma nextSibling_visits_children_witness :
  ∃ l, children (length l) 1%positive heap3 = Some l ∧ NoDup l ∧
       (∀ c, c ∈ l ↔ is_child heap3 c 1%positive) ∧
       (∀ c, last l = Some c → nextSibling c heap3 = Some None) ∧
       ((∀ c, ¬ is_child heap3 c 1%positive) → firstChild 1%positive heap3 = Some None).
Proof.
  apply (nextSibling_visits_children heap3 1%positive).
  - apply heap3_built.
  - vm_compute. by eexists.
Defined.

(** On a node that has no parent, be its [_parent] null or the node
    itself, [reparent(0)] leaves every list of children and every other
    node as they are. *)
Lemma reparent_None_root (h : Heap) (this : addr) :
  ring_inv h → is_root h this →
  ∃ h', reparent this None h = Some h' ∧ is_root h' this ∧
    (∀ a l, kids h a l → kids h' a l) ∧ (∀ x, x ≠ this → h' !! x = h !! x).
Proof.
  intros Hinv Hroot.
  destruct (reparent_None_spec h this Hinv (is_root_live _ _ Hroot))
    as (h' & E & _ & Hpa & _ & _ & Hk & _).
  exists h'. split; [done|]. split; [by left|]. split.
  - intros a l Hl. specialize (Hk a l Hl). rewrite without_notin in Hk; [done|].
    intros Hin. destruct Hl as (_ & _ & Hc & _). apply Hc in Hin.
    by apply (root_not_child h this a).
  - intros x Hx. apply (reparent_None_frame h h' this Hinv E x Hx).
    intros q Hq. by apply (root_not_child h this q) in Hq.
Qed.

(** C7: [reparent(p)] when [p] is already the parent changes nothing; a
    second call with the same [p] changes nothing after the first,
    whatever [p] is; and the first call returns when the rings are sound
    and [p] is null or another live node. *)
Theorem reparent_idempotent (h : Heap) (this : addr) (p : option addr) :
  (parentOf h this = Some p → reparent this p h = Some h) ∧
  (∀ h1, reparent this p h = Some h1 → reparent this p h1 = Some h1) ∧
  (ring_inv h → is_Some (h !! this) →
   (∀ q, p = Some q → is_Some (h !! q) ∧ q ≠ this) →
   is_Some (reparent this p h)).
Proof.
  split_and!.
  - apply reparent_same.
  - intros h1 E. apply reparent_same. by apply (reparent_parentOf h).
  - intros Hinv Hthis Hp. destruct p as [q|].
    + destruct (Hp q eq_refl) as [Hq Hne].
      destruct (decide (parentOf h this = Some (Some q))) as [E|E].
      * rewrite (reparent_same _ _ _ E). eauto.
      * destruct (reparent_spec h this q Hinv Hthis Hq Hne E) as (h' & -> & _). eauto.
    + destruct (reparent_None_spec h this Hinv Hthis) as (h' & -> & _). eauto.
Qed.

Lemma reparent_idempotent_witness :
  reparent 2%positive (Some 1%positive) heap3 = Some heap3 ∧
  reparent 2%positive (Some 1%positive) heap1 = Some heap1 ∧
  is_Some (reparent 2%positive (Some 1%positive) nodes4).
Proof.
  split_and!.
  - apply (proj1 (reparent_idempotent heap3 2%positive (Some 1%positive))).
    vm_compute. reflexivity.
  - apply (proj1 (proj2 (reparent_idempotent nodes4 2%positive (Some 1%positive)))).
    vm_compute. reflexivity.
  - apply (proj2 (proj2 (reparent_idempotent nodes4 2%positive (Some 1%positive)))).
    + apply ring_inv_nodes4.
    + by eexists.
    + intros q [= <-]. split; [by eexists|done].
Defined.

Lemma ranked_heap3 : ranked heap3 (λ x, if decide (x = 1%positive) then 1 else 0).
Proof.
  intros c p [Hne Hp].
  assert (p = 1%positive) as ->.
  { destruct (heap3_built) as [Hinv Hk].
    assert (is_Some (heap3 !! c)) as Hc by (apply live_parentOf; rewrite Hp; eauto).
    assert (c ∈ dom heap3) as Hd by (by apply elem_of_dom).
    assert (dom heap3 = {[1; 2; 3; 4]}%positive) as Edom by (vm_compute; reflexivity).
    rewrite Edom in Hd.
    repeat (apply elem_of_union in Hd as [Hd|Hd]); apply elem_of_singleton in Hd; subst c;
      vm_compute in Hp; congruence. }
  rewrite (decide_False (P := c = 1%positive)) by done.
  rewrite (decide_True (P := 1%positive = 1%positive)) by done. lia.
Qed.

Lemma reset_scalars_idem (n : Node) : reset_scalars (reset_scalars n) = reset_scalars n.
Proof. by destruct n. Qed.

(** C8: while the node has a first child, [clear] destroys it, the child
    clearing itself before it detaches and is released, and goes on.  With
    enough fuel [clear] returns, in a heap whose rings are sound and whose
    nodes form trees.  Every descendant of the node is then destroyed and
    nothing else is touched, the node has no child, an empty value and
    line 0; a second [clear] changes nothing more; and on a node that had
    no child the only change is the reset of the two scalars. *)
Theorem clear_destroys_children (h : Heap) (this : addr) (rk : addr → nat) :
  ring_inv h → ranked h rk → is_Some (h !! this) →
  ∃ f0 h', (∀ f, f0 ≤ f → clear f this h = Some h') ∧
    (∀ f n c, h !! this = Some n → _firstChild n = Some c →
       clear (S f) this h =
         h1 ← clear f c h; h2 ← reparent c None h1; clear f this (delete c h2)) ∧
    ring_inv h' ∧
    (∀ x, descendant h x this → h' !! x = None) ∧
    (∀ x, x ≠ this → ¬ descendant h x this → h' !! x = h !! x) ∧
    firstChild this h' = Some None ∧
    _value <$> h' !! this = Some ""%string ∧
    lineNumber this h' = Some 0%N ∧
    (∀ f, 1 ≤ f → clear f this h' = Some h') ∧
    (firstChild this h = Some None →
     ∃ n, h !! this = Some n ∧ h' = <[this := reset_scalars n]> h).
Proof.
  intros Hinv Hrk Hthis.
  destruct (clear_total rk (rk this) (size h) h this Hinv Hrk Hthis ltac:(lia) ltac:(lia))
    as (f0 & h' & Hf & Hcl).
  destruct (cleared_this _ _ _ Hcl) as (n & En & En').
  exists f0, h'. split; [done|].
  split.
  { intros f m c Em Ec. cbn [clear]. rewrite Em. cbn [mbind option_bind]. rewrite Ec.
    unfold delete_Node. destruct (clear f c h) as [h1|]; [|done]. cbn [mbind option_bind].
    by destruct (reparent c None h1). }
  split; [apply (cleared_inv _ _ _ Hcl)|].
  split; [intros x; by apply cleared_descendant|].
  split; [apply (cleared_frame _ _ _ Hcl)|].
  split; [unfold firstChild; by rewrite En'|].
  split; [by rewrite En'|].
  split; [unfold lineNumber; by rewrite En'|].
  split.
  - intros f Hle. destruct f as [|f]; [lia|]. cbn [clear]. rewrite En'.
    cbn [mbind option_bind]. simpl.
    rewrite (modify_Some _ _ _ _ En'). f_equal. apply insert_id.
    by rewrite reset_scalars_idem.
  - intros Hfc. exists n. split; [done|].
    specialize (Hf (S f0) ltac:(lia)). cbn [clear] in Hf. rewrite En in Hf.
    cbn [mbind option_bind] in Hf.
    unfold firstChild in Hfc. rewrite En in Hfc. simpl in Hfc. injection Hfc as Hfc.
    rewrite Hfc in Hf. rewrite (modify_Some _ _ _ _ En) in Hf. congruence.
Qed.

Lemma clear_destroys_children_witness :
  ∃ f0 h', (∀ f, f0 ≤ f → clear f 1%positive heap3 = Some h') ∧
    (∀ f n c, heap3 !! 1%positive = Some n → _firstChild n = Some c →
       clear (S f) 1%positive heap3 =
         h1 ← clear f c heap3; h2 ← reparent c None h1;
         clear f 1%positive (delete c h2)) ∧
    ring_inv h' ∧
    (∀ x, descendant heap3 x 1%positive → h' !! x = None) ∧
    (∀ x, x ≠ 1%positive → ¬ descendant heap3 x 1%positive → h' !! x = heap3 !! x) ∧
    firstChild 1%positive h' = Some None ∧
    _value <$> h' !! 1%positive = Some ""%string ∧
    lineNumber 1%positive h' = Some 0%N ∧
    (∀ f, 1 ≤ f → clear f 1%positive h' = Some h') ∧
    (firstChild 1%positive heap3 = Some None →
     ∃ n, heap3 !! 1%positive = Some n ∧ h' = <[1%positive := reset_scalars n]> heap3).
Proof.
  apply (clear_destroys_children heap3 1%positive
           (λ x, if decide (x = 1%positive) then 1 else 0)).
  - apply heap3_built.
  - apply ranked_heap3.
  - vm_compute. by eexists.
Defined.

Example clear_heap3 :
  clear 5 1%positive heap3 = Some (<[1%positive := reset_scalars (new_Node Document 1 1%positive)]> ∅).
Proof. vm_compute. reflexivity. Qed.

(** * The claims about parseContinue *)

(** C1, on the code: the closing tags of [<a><b></b></a>] stay in the
    tree as nodes; [<a><b></c></a>] parses with result true and an empty
    report, and the node of [</c>] stays in the tree, under [b]. *)
Theorem closing_tag_attached_without_error :
  (∃ h', parseContinue 10 1%positive (mkParser well_nested []) doc0
           = Some (true, mkParser [] [], h') ∧
         h' !! 4%positive
           = Some (mkNode Element "b" (Some 3%positive) (Some 5%positive) 1 CLOSING
                          4%positive 4%positive)) ∧
  (∃ h', parseContinue 10 1%positive (mkParser mismatched []) doc0
           = Some (true, mkParser [] [], h') ∧
         h' !! 4%positive
           = Some (mkNode Element "c" (Some 3%positive) (Some 5%positive) 1 CLOSING
                          4%positive 4%positive)).
Proof. split; eexists; split; vm_compute; reflexivity. Qed.

(** C3: from a well-formed heap, on a context that has no parent, the
    call returns, and it returns true exactly when it added no entry to
    the report, the calls on the candidates included. *)
Theorem parseContinue_true_iff_no_error (inp : list (option RawNode))
    (rep : list (N * string)) (h : Heap) (this : addr) :
  wf h → is_root h this →
  ∃ f0 r p' h' new,
    (∀ f, f0 ≤ f → parseContinue f this (mkParser inp rep) h = Some (r, p', h')) ∧
    report p' = rep ++ new ∧ (r = true ↔ new = []).
Proof.
  intros Hwf Hroot.
  destruct (parseLoop_total (length inp) inp rep h this true ltac:(lia) Hwf Hroot)
    as (f0 & r & p' & h' & tr & Hf & Hp).
  exists f0, r, p', h', (concat (map it_entries tr)). split_and!.
  - intros f Hle. apply Hf, Hle.
  - apply (parsed_report _ _ _ _ _ _ _ _ Hp).
  - rewrite (parsed_result _ _ _ _ _ _ _ _ Hp). simpl. split.
    + apply entries_nil, (parsed_entries _ _ _ _ _ _ _ _ Hp).
    + apply entries_nil_inv, (parsed_entries _ _ _ _ _ _ _ _ Hp).
Qed.

Lemma parseContinue_true_iff_no_error_witness :
  ∃ f0 r p' h' new,
    (∀ f, f0 ≤ f →
       parseContinue f 1%positive (mkParser [decl 1; decl 2] []) doc0 = Some (r, p', h')) ∧
    report p' = [] ++ new ∧ (r = true ↔ new = []).
Proof.
  apply (parseContinue_true_iff_no_error [decl 1; decl 2] [] doc0 1%positive).
  - apply wf_doc0.
  - apply root_doc0.
Defined.

Lemma rejected_entries (tr : list Iteration) :
  Forall (λ e, if it_ok e then it_entries e = []
               else ∃ nested own, it_entries e = nested ++ [own]) tr →
  length (rejected tr) ≤ length (concat (map it_entries tr)).
Proof.
  unfold rejected. induction 1 as [|e tr He _ IH]; [done|].
  rewrite filter_cons. simpl. rewrite length_app. destruct (it_ok e).
  - rewrite decide_False by done. lia.
  - rewrite decide_True by done. destruct He as (nested & own & ->).
    rewrite length_app. simpl. lia.
Qed.

(** The call goes through every candidate [identify] yields to it,
    whatever happened to the ones before.  A candidate it attaches adds no
    entry to the report; each candidate it rejects adds its own entry,
    after those of the candidate's own parse.  So the report grows by at
    least as many entries as candidates were rejected: two rejected
    candidates give two entries. *)
Theorem parseContinue_reports_every_rejection (inp : list (option RawNode))
    (rep : list (N * string)) (h : Heap) (this : addr) :
  wf h → is_root h this →
  ∃ f0 r p' h' tr,
    (∀ f, f0 ≤ f →
       parseContinue f this (mkParser inp rep) h = Some (r, p', h') ∧
       loopTrace f this (mkParser inp rep) h = Some tr) ∧
    report p' = rep ++ concat (map it_entries tr) ∧
    Forall (λ e, if it_ok e then it_entries e = []
                 else ∃ nested own, it_entries e = nested ++ [own]) tr ∧
    length (rejected tr) ≤ length (concat (map it_entries tr)) ∧
    (rejected tr ≠ [] → r = false).
Proof.
  intros Hwf Hroot.
  destruct (parseLoop_total (length inp) inp rep h this true ltac:(lia) Hwf Hroot)
    as (f0 & r & p' & h' & tr & Hf & Hp).
  exists f0, r, p', h', tr. split_and!.
  - done.
  - apply (parsed_report _ _ _ _ _ _ _ _ Hp).
  - apply (parsed_entries _ _ _ _ _ _ _ _ Hp).
  - apply rejected_entries, (parsed_entries _ _ _ _ _ _ _ _ Hp).
  - rewrite (parsed_result _ _ _ _ _ _ _ _ Hp). simpl. clear.
    unfold rejected. induction tr as [|e tr IH]; [done|].
    rewrite filter_cons. simpl. destruct (it_ok e); [|done].
    rewrite decide_False by done. exact IH.
Qed.

Lemma parseContinue_reports_every_rejection_witness :
  ∃ f0 r p' h' tr,
    (∀ f, f0 ≤ f →
       parseContinue f 1%positive (mkParser two_errors []) doc0 = Some (r, p', h') ∧
       loopTrace f 1%positive (mkParser two_errors []) doc0 = Some tr) ∧
    report p' = [] ++ concat (map it_entries tr) ∧
    Forall (λ e, if it_ok e then it_entries e = []
                 else ∃ nested own, it_entries e = nested ++ [own]) tr ∧
    length (rejected tr) ≤ length (concat (map it_entries tr)) ∧
    (rejected tr ≠ [] → r = false).
Proof.
  apply (parseContinue_reports_every_rejection two_errors [] doc0 1%positive).
  - apply wf_doc0.
  - apply root_doc0.
Defined.

(** Two misplaced declarations among the children of a document: the loop
    goes on after the first, and the report has the two entries. *)
Example two_errors_two_entries :
  (∃ h', parseContinue 10 1%positive (mkParser two_errors []) doc0
           = Some (false, mkParser [] [(2%N, msg_not_at_beginning);
                                       (4%N, msg_not_at_beginning)], h') ∧
         children 5 1%positive h' = Some [2; 3]%positive) ∧
  loopTrace 10 1%positive (mkParser two_errors []) doc0
    = Some [mkIteration 2%positive true [];
            mkIteration 3%positive false [(2%N, msg_not_at_beginning)];
            mkIteration 3%positive true [];
            mkIteration 4%positive false [(4%N, msg_not_at_beginning)]].
Proof. split; [eexists; split|]; vm_compute; reflexivity. Qed.

(** C4, on the code: the tokens of [<a></b>] followed by those of
    [<c></d>] hold two closing tags that match no open element.  The call
    returns true and leaves the report empty; the loop accepts the two
    candidates it is given; and the nodes of the two closing tags stay in
    the tree, under [a] and under [c]. *)
Theorem two_mismatched_closing_tags_not_reported :
  ∃ h', parseContinue 10 1%positive (mkParser two_mismatched []) doc0
          = Some (true, mkParser [] [], h') ∧
        loopTrace 10 1%positive (mkParser two_mismatched []) doc0
          = Some [mkIteration 2%positive true []; mkIteration 4%positive true []] ∧
        children 5 1%positive h' = Some [2; 4]%positive ∧
        h' !! 3%positive
          = Some (mkNode Element "b" (Some 2%positive) None 1 CLOSING 3%positive 3%positive) ∧
        h' !! 5%positive
          = Some (mkNode Element "d" (Some 4%positive) None 2 CLOSING 5%positive 5%positive).
Proof. eexists; split_and!; vm_compute; reflexivity. Qed.

(** C9: when the call returns true, every candidate [identify] yielded to
    it was attached to the context and is there still, and the children of
    the context are those it had, then the candidates in the order
    [identify] yielded them. *)
Theorem parseContinue_true_attaches_all (inp : list (option RawNode))
    (rep : list (N * string)) (h : Heap) (this : addr) (l0 : list addr) :
  wf h → is_root h this → kids h this l0 →
  ∃ f0 r p' h' tr,
    (∀ f, f0 ≤ f →
       parseContinue f this (mkParser inp rep) h = Some (r, p', h') ∧
       loopTrace f this (mkParser inp rep) h = Some tr) ∧
    (r = true →
       Forall (λ e, it_ok e = true) tr ∧
       (∀ e, e ∈ tr → is_child h' (it_node e) this) ∧
       children (length (l0 ++ map it_node tr)) this h' = Some (l0 ++ map it_node tr)).
Proof.
  intros Hwf Hroot Hl0.
  destruct (parseLoop_total (length inp) inp rep h this true ltac:(lia) Hwf Hroot)
    as (f0 & r & p' & h' & tr & Hf & Hp).
  exists f0, r, p', h', tr. split; [done|].
  rewrite (parsed_result _ _ _ _ _ _ _ _ Hp). simpl. intros Hall.
  assert (Forall (λ e, it_ok e = true) tr) as Hok.
  { clear -Hall. induction tr as [|e tr IH]; [done|]. simpl in Hall.
    apply andb_prop in Hall as [? ?]. constructor; auto. }
  assert (attached tr = map it_node tr) as Eatt.
  { unfold attached. f_equal. clear -Hok. induction Hok as [|e tr He _ IH]; [done|].
    rewrite filter_cons, decide_True by done. by rewrite IH. }
  pose proof (parsed_kids _ _ _ _ _ _ _ _ Hp l0 Hl0) as Hk. rewrite Eatt in Hk.
  split_and!.
  - done.
  - intros e He. destruct Hk as (_ & _ & Hc & _). apply Hc.
    apply elem_of_app. right. apply list_elem_of_fmap. eauto.
  - by apply children_kids.
Qed.

Lemma kids_doc0 : kids doc0 1%positive [].
Proof. apply kids_root_alloc; [apply ring_inv_empty|done|done]. Qed.

Lemma parseContinue_true_attaches_all_witness :
  ∃ f0 r p' h' tr,
    (∀ f, f0 ≤ f →
       parseContinue f 1%positive (mkParser three_children []) doc0 = Some (r, p', h') ∧
       loopTrace f 1%positive (mkParser three_children []) doc0 = Some tr) ∧
    (r = true →
       Forall (λ e, it_ok e = true) tr ∧
       (∀ e, e ∈ tr → is_child h' (it_node e) 1%positive) ∧
       children (length ([] ++ map it_node tr)) 1%positive h' = Some ([] ++ map it_node tr)).
Proof.
  apply (parseContinue_true_attaches_all three_children [] doc0 1%positive []).
  - apply wf_doc0.
  - apply root_doc0.
  - apply kids_doc0.
Defined.

Example three_children_in_order :
  ∃ h', parseContinue 10 1%positive (mkParser three_children []) doc0
          = Some (true, mkParser [] [], h') ∧
        children 5 1%positive h' = Some [2; 3; 4]%positive ∧
        (_value <$> h' !! 2%positive, _value <$> h' !! 3%positive, _value <$> h' !! 4%positive)
          = (Some "a", Some "b", Some "c")%string.
Proof. eexists; split_and!; vm_compute; reflexivity. Qed.




(** The placements of the spec: [<?xml?><a/>] parses; [<a/><?xml?>] and a
    declaration inside [<a>] are rejected, and no declaration is attached. *)
Example declaration_placements :
  (∃ h', parseContinue 10 1%positive (mkParser [decl 1; None; elt "a" 1 CLOSED] []) doc0
           = Some (true, mkParser [] [], h') ∧
         children 5 1%positive h' = Some [2; 3]%positive) ∧
  (∃ h', parseContinue 10 1%positive (mkParser [elt "a" 1 CLOSED; None; decl 1] []) doc0
           = Some (false, mkParser [] [(1%N, msg_not_at_beginning)], h') ∧
         children 5 1%positive h' = Some [2%positive] ∧
         typeOf h' 2%positive = Some Element) ∧
  (∃ h', parseContinue 10 1%positive (mkParser [elt "a" 1 OPEN; decl 2] []) doc0
           = Some (false, mkParser [] [(2%N, msg_not_in_document); (1%N, msg_parsing_error)], h') ∧
         children 5 1%positive h' = Some []).
Proof. split_and!; eexists; split_and!; vm_compute; reflexivity. Qed.

(** C10, as it fails: under an element, the first candidate of
    [<?xml?><?xml?>] is a declaration at line 1; the one entry of the
    report with its line is "parsing error", its own parse having failed. *)
Lemma declaration_nested_failure_reports_parsing_error :
  typeOf elem0 1%positive = Some Element ∧
  (identify (mkParser [decl 1; decl 2] []) elem0).1.1 = Some 2%positive ∧
  typeOf (identify (mkParser [decl 1; decl 2] []) elem0).2 2%positive = Some Declaration ∧
  loopTrace 10 1%positive (mkParser [decl 1; decl 2] []) elem0
    = Some [mkIteration 2%positive false
              [(2%N, msg_not_in_document); (1%N, msg_parsing_error)]] ∧
  (1%N, msg_not_in_document) ∉ [(2%N, msg_not_in_document); (1%N, msg_parsing_error)].
Proof.
  split_and!; [vm_compute; reflexivity..|].
  intros H. repeat (apply elem_of_cons in H as [H|H]; [discriminate|]).
  by apply elem_of_nil in H.
Qed.

(** C10, amended: for every candidate of kind Declaration whose own parse
    succeeded, met while the context is not a Document, the loop body adds
    exactly one entry to the report, the "not directly inside a document"
    one with the line of the candidate, whatever the children of the
    context are: the walk over them is not entered, and the "must be at
    the beginning of the document" entry is not added. *)
Theorem declaration_outside_document_one_error (h : Heap) (this : addr)
    (raw : RawNode) (rest : list (option RawNode)) (rep : list (N * string))
    (l0 : list addr) (tn : Node) :
  wf h → is_root h this → kids h this l0 → h !! this = Some tn →
  raw_type raw = Declaration → node_type tn ≠ Document →
  let node := fresh (dom h) in
  let h1 := <[node := candidate raw node]> h in
  ∃ f0 ok pn hn,
    (∀ f, f0 ≤ f → parseContinue f node (mkParser rest rep) h1 = Some (ok, pn, hn)) ∧
    (ok = true →
     ∀ f, f0 ≤ f →
       readNode (λ n, parseLoop f n true) f this node (mkParser rest rep) h1
         = Some (false, errorAtLine pn (raw_line raw) msg_not_in_document, hn) ∧
       report (errorAtLine pn (raw_line raw) msg_not_in_document)
         = report pn ++ [(raw_line raw, msg_not_in_document)]).
Proof.
  intros Hwf Hroot Hl0 Etn Hdecl Hdoc node h1.
  destruct (candidate_spec h this raw rest rep l0 tn Hwf Hroot Hl0 Etn)
    as (f0 & ok & pn & hn & h3 & nested & Hf & _).
  fold node in Hf. fold h1 in Hf.
  exists f0, ok, pn, hn. split; [intros f Hle; apply Hf, Hle|].
  intros -> f Hle. destruct (Hf f Hle) as (_ & Hread & _).
  unfold verdict in Hread. rewrite decide_True in Hread by done.
  rewrite decide_False in Hread by done. done.
Qed.

Lemma declaration_outside_document_one_error_witness :
  ∃ f0 ok pn hn,
    (∀ f, f0 ≤ f →
       parseContinue f (fresh (dom elem1)) (mkParser [] [])
         (<[fresh (dom elem1) := candidate (mkRaw Declaration "xml" 3 OPEN) (fresh (dom elem1))]> elem1)
         = Some (ok, pn, hn)) ∧
    (ok = true →
     ∀ f, f0 ≤ f →
       readNode (λ n, parseLoop f n true) f 1%positive (fresh (dom elem1)) (mkParser [] [])
         (<[fresh (dom elem1) := candidate (mkRaw Declaration "xml" 3 OPEN) (fresh (dom elem1))]> elem1)
         = Some (false,
                 errorAtLine pn (raw_line (mkRaw Declaration "xml" 3 OPEN)) msg_not_in_document,
                 hn) ∧
       report (errorAtLine pn (raw_line (mkRaw Declaration "xml" 3 OPEN)) msg_not_in_document)
         = report pn ++ [(raw_line (mkRaw Declaration "xml" 3 OPEN), msg_not_in_document)]).
Proof.
  apply (declaration_outside_document_one_error elem1 1%positive
           (mkRaw Declaration "xml" 3 OPEN) [] [] [2%positive]
           (with_firstChild (Some 2%positive) (with_value "a" (new_Node Element 1 1%positive)))).
  - apply wf_elem1.
  - right. vm_compute. reflexivity.
  - apply elem1_built.
  - vm_compute. reflexivity.
  - reflexivity.
  - discriminate.
Defined.

(** Under an element that has a child that is no declaration, a
    declaration is reported once. *)
Example declaration_under_element_once :
  ∃ h', parseContinue 10 1%positive (mkParser [elt "b" 2 CLOSED; None; decl 3] []) elem0
          = Some (false, mkParser [] [(3%N, msg_not_in_document)], h') ∧
        children 5 1%positive h' = Some [2%positive].
Proof. eexists; split; vm_compute; reflexivity. Qed.

(** * Further properties of the tree operations *)

(** X1: the constructor, run at an address that is not live, keeps the heap
    well formed and every node and list of children as they are; the new
    node has no parent, no child and no sibling. *)
Theorem constructor_keeps_heap (h : Heap) (a : addr) (ty : NodeType) (line : N) :
  wf h → h !! a = None →
  wf (<[a := new_Node ty line a]> h) ∧
  is_root (<[a := new_Node ty line a]> h) a ∧
  firstChild a (<[a := new_Node ty line a]> h) = Some None ∧
  nextSibling a (<[a := new_Node ty line a]> h) = Some None ∧
  (∀ c, ¬ is_child (<[a := new_Node ty line a]> h) c a) ∧
  (∀ x l, kids h x l → kids (<[a := new_Node ty line a]> h) x l).
Proof.
  intros Hwf Ha. pose proof Hwf as [Hinv _].
  assert (constructed a (new_Node ty line a)) as Hc by done.
  split_and!.
  - by apply wf_alloc.
  - right. unfold parentOf. by rewrite lookup_insert_eq.
  - unfold firstChild. by rewrite lookup_insert_eq.
  - unfold nextSibling. rewrite lookup_insert_eq. simpl. by rewrite decide_True.
  - intros c Hch.
    destruct (kids_root_alloc h a _ Hinv Ha Hc) as (_ & _ & H3 & _).
    apply H3 in Hch. by apply elem_of_nil in Hch.
  - intros x l Hk. by apply kids_alloc.
Qed.

Lemma constructor_keeps_heap_witness :
  wf (<[2%positive := new_Node Element 7 2%positive]> doc0) ∧
  is_root (<[2%positive := new_Node Element 7 2%positive]> doc0) 2%positive ∧
  firstChild 2%positive (<[2%positive := new_Node Element 7 2%positive]> doc0) = Some None ∧
  nextSibling 2%positive (<[2%positive := new_Node Element 7 2%positive]> doc0) = Some None ∧
  (∀ c, ¬ is_child (<[2%positive := new_Node Element 7 2%positive]> doc0) c 2%positive) ∧
  (∀ x l, kids doc0 x l → kids (<[2%positive := new_Node Element 7 2%positive]> doc0) x l).
Proof.
  apply (constructor_keeps_heap doc0 2%positive Element 7).
  - apply wf_doc0.
  - reflexivity.
Defined.

(** X2: [reparent(p)] on a node that is not yet under [p] keeps the rings
    sound and writes links only: the scalar fields of every node and the
    parent of every other node are as before, the node is the last child
    of [p], its former parent has the children it had but the node, in the
    same order, and every other list of children is as it was. *)
Theorem reparent_moves_node (h : Heap) (this p : addr) :
  ring_inv h → is_Some (h !! this) → is_Some (h !! p) → p ≠ this →
  parentOf h this ≠ Some (Some p) →
  ∃ h', reparent this (Some p) h = Some h' ∧ ring_inv h' ∧
    parentOf h' this = Some (Some p) ∧
    (∀ x, x ≠ this → parentOf h' x = parentOf h x) ∧
    (∀ x, scalarsOf h' x = scalarsOf h x) ∧
    (∀ a l, kids h a l →
            kids h' a (without this l ++ if decide (a = p) then [this] else [])).
Proof. apply reparent_spec. Qed.

Lemma reparent_moves_node_witness :
  ∃ h', reparent 2%positive (Some 3%positive) heap3 = Some h' ∧ ring_inv h' ∧
    parentOf h' 2%positive = Some (Some 3%positive) ∧
    (∀ x, x ≠ 2%positive → parentOf h' x = parentOf heap3 x) ∧
    (∀ x, scalarsOf h' x = scalarsOf heap3 x) ∧
    (∀ a l, kids heap3 a l →
            kids h' a (without 2%positive l ++
                       if decide (a = 3%positive) then [2%positive] else [])).
Proof.
  apply (reparent_moves_node heap3 2%positive 3%positive).
  - apply heap3_built.
  - vm_compute. by eexists.
  - vm_compute. by eexists.
  - done.
  - vm_compute. discriminate.
Defined.

Example heap3_first_child_moved :
  ∃ h', reparent 2%positive (Some 3%positive) heap3 = Some h' ∧
        children 5 1%positive h' = Some [3; 4]%positive ∧
        children 5 3%positive h' = Some [2%positive] ∧
        firstChild 1%positive h' = Some (Some 3%positive).
Proof. eexists; split_and!; vm_compute; reflexivity. Qed.

(** X3: [reparent(0)] keeps the rings sound: the node has no parent
    afterwards and is alone in its ring, its former parent has the
    children it had but the node, in the same order (so a [_firstChild]
    that was the node is now the next child, or null), every other node
    keeps its parent and its scalar fields, and every other list of
    children is as it was. *)
Theorem reparent_null_detaches (h : Heap) (this : addr) :
  ring_inv h → is_Some (h !! this) →
  ∃ h', reparent this None h = Some h' ∧ ring_inv h' ∧
    parentOf h' this = Some None ∧
    nextSibling this h' = Some None ∧
    (∀ x, x ≠ this → parentOf h' x = parentOf h x) ∧
    (∀ x, scalarsOf h' x = scalarsOf h x) ∧
    (∀ a l, kids h a l → kids h' a (without this l)) ∧
    (∀ q r, kids h q (this :: r) → firstChild q h' = Some (head r)).
Proof.
  intros Hinv Hthis.
  destruct (reparent_None_spec h this Hinv Hthis)
    as (h' & E & Hinv' & Hpa & Hpo & Hs & Hk & _).
  exists h'. split_and!; try done.
  - destruct (inv_root h' Hinv' this) as [Hn _]; [by left|].
    unfold nextSibling, nextOf in *. destruct (h' !! this) as [n|]; [|done].
    simpl in *. injection Hn as ->. by rewrite decide_True.
  - intros q r Hq. pose proof (Hk q _ Hq) as (Hf & _).
    pose proof Hq as (_ & Hnd & _).
    change (this :: r) with ([] ++ this :: r) in Hf, Hnd.
    rewrite without_split in Hf by done. simpl in Hf.
    unfold firstChild, firstOf in *. destruct (h' !! q); simpl in *; congruence.
Qed.

Lemma reparent_null_detaches_witness :
  ∃ h', reparent 2%positive None heap3 = Some h' ∧ ring_inv h' ∧
    parentOf h' 2%positive = Some None ∧
    nextSibling 2%positive h' = Some None ∧
    (∀ x, x ≠ 2%positive → parentOf h' x = parentOf heap3 x) ∧
    (∀ x, scalarsOf h' x = scalarsOf heap3 x) ∧
    (∀ a l, kids heap3 a l → kids h' a (without 2%positive l)) ∧
    (∀ q r, kids heap3 q (2%positive :: r) → firstChild q h' = Some (head r)).
Proof.
  apply (reparent_null_detaches heap3 2%positive).
  - apply heap3_built.
  - vm_compute. by eexists.
Defined.

(** X4: moving a node from its parent [q] to another node [p] is detaching
    it with [reparent(0)], then attaching it with [reparent(p)]: the two
    give the same heap, or are stuck together. *)
Theorem reparent_is_detach_then_attach (h : Heap) (this q p : addr) :
  parentOf h this = Some (Some q) → p ≠ q →
  reparent this (Some p) h = h' ← reparent this None h; reparent this (Some p) h'.
Proof. apply reparent_via_None. Qed.

Lemma reparent_is_detach_then_attach_witness :
  reparent 2%positive (Some 3%positive) heap3
  = h' ← reparent 2%positive None heap3; reparent 2%positive (Some 3%positive) h'.
Proof.
  apply (reparent_is_detach_then_attach heap3 2%positive 1%positive 3%positive).
  - vm_compute. reflexivity.
  - done.
Defined.

(** In a heap whose rings are sound a live node has no parent or is a
    child of its parent. *)
Lemma root_or_child (h : Heap) (x : addr) :
  is_Some (h !! x) → is_root h x ∨ ∃ a, is_child h x a.
Proof.
  intros Hx. apply live_parentOf in Hx as [[a|] Hp].
  - destruct (decide (x = a)) as [->|Hne]; [left; by right|].
    right. exists a. by split.
  - left. by left.
Qed.

(** Sound rings, the parents and the lists of children determine the
    links. *)
Lemma links_determined (h h' : Heap) :
  ring_inv h → ring_inv h' →
  (∀ x, parentOf h' x = parentOf h x) →
  (∀ a l, kids h a l → kids h' a l) →
  ∀ x, firstOf h' x = firstOf h x ∧ nextOf h' x = nextOf h x ∧ prevOf h' x = prevOf h x.
Proof.
  intros Hinv Hinv' Hp Hk x.
  destruct (h !! x) as [n|] eqn:Ex.
  2:{ assert (h' !! x = None) as Ex'.
      { destruct (h' !! x) eqn:E; [|done].
        assert (is_Some (h !! x)) as Hs.
        { apply live_parentOf. rewrite <- Hp. apply live_parentOf. eauto. }
        rewrite Ex in Hs. by destruct Hs. }
      unfold firstOf, nextOf, prevOf. by rewrite Ex, Ex'. }
  assert (is_Some (h !! x)) as Hx by eauto.
  split.
  { destruct (inv_kids h Hinv x Hx) as [l Hl]. pose proof (Hk x l Hl) as (Hf' & _).
    destruct Hl as (Hf & _). congruence. }
  destruct (root_or_child h x Hx) as [Hr|[a Ha]].
  - assert (is_root h' x) as Hr' by (unfold is_root; by rewrite Hp).
    destruct (inv_root h Hinv x Hr) as [-> ->].
    destruct (inv_root h' Hinv' x Hr') as [-> ->]. done.
  - pose proof (inv_parent h Hinv x a (proj2 Ha)) as Hal.
    destruct (inv_kids h Hinv a Hal) as [l Hl]. pose proof (Hk a l Hl) as Hl'.
    assert (x ∈ l) as Hin by (destruct Hl as (_ & _ & Hc & _); by apply Hc).
    apply list_elem_of_split in Hin as (l1 & l2 & ->).
    destruct Hl as (_ & _ & _ & Hr). destruct Hl' as (_ & _ & _ & Hr').
    rewrite (ring_next _ _ _ _ Hr), (ring_next _ _ _ _ Hr').
    rewrite (ring_prev _ _ _ _ Hr), (ring_prev _ _ _ _ Hr'). done.
Qed.

(** X5: attaching a node that has no parent, then detaching it, gives the
    heap back: every other node is as it was, and of the node only
    [_parent] may differ, null where the constructor had left the node
    itself. *)
Theorem attach_detach_round_trip (h : Heap) (this p : addr) (tn : Node) :
  ring_inv h → is_root h this → is_Some (h !! p) → p ≠ this → h !! this = Some tn →
  ∃ h1, reparent this (Some p) h = Some h1 ∧
        reparent this None h1 = Some (<[this := with_parent None tn]> h).
Proof.
  intros Hinv Hroot Hp Hne Etn.
  destruct (reparent_root_spec h this p Hinv Hroot Hp Hne)
    as (h1 & E1 & Hinv1 & Hpa1 & Hpo1 & Hs1 & Hk1 & _).
  assert (is_Some (h1 !! this)) as Hthis1.
  { apply live_parentOf. rewrite Hpa1. eauto. }
  destruct (reparent_None_spec h1 this Hinv1 Hthis1)
    as (h2 & E2 & Hinv2 & Hpa2 & Hpo2 & Hs2 & Hk2 & _).
  exists h1. split; [done|]. rewrite E2. f_equal.
  set (h0 := <[this := with_parent None tn]> h).
  assert (∀ x, parentOf h0 x = if decide (x = this) then Some None else parentOf h x) as Hp0.
  { intros x. unfold h0, parentOf. rewrite lookup_insert.
    destruct (decide (this = x)) as [->|]; [by rewrite decide_True|].
    by rewrite decide_False. }
  assert (∀ x, scalarsOf h0 x = scalarsOf h x ∧ firstOf h0 x = firstOf h x ∧
               nextOf h0 x = nextOf h x ∧ prevOf h0 x = prevOf h x) as Hv0.
  { intros x. unfold h0, scalarsOf, firstOf, nextOf, prevOf. rewrite lookup_insert.
    destruct (decide (this = x)) as [->|]; [by rewrite Etn|done]. }
  assert (ring_inv h0) as Hinv0.
  { destruct (reparent_None_root h this Hinv Hroot) as (h0' & E0 & _).
    destruct (reparent_None_spec h this Hinv ltac:(eauto)) as (h0'' & E0' & Hi & Hpa & Hpo & Hs & _ & Hfr & Hfi).
    assert (h0'' = h0) as <-; [|done].
    apply map_eq. intros x. apply heap_lookup_ext.
    - rewrite Hs. symmetry. apply Hv0.
    - rewrite Hp0. destruct (decide (x = this)) as [->|Hx]; [done|by apply Hpo].
    - rewrite Hfi; [symmetry; apply Hv0|]. intros q Hq.
      by apply (root_not_child h this q) in Hq.
    - destruct (decide (x = this)) as [->|Hx].
      + destruct (inv_root h0'' Hi this ltac:(by left)) as [-> _].
        destruct (Hv0 this) as (_ & _ & -> & _).
        by destruct (inv_root h Hinv this Hroot) as [-> _].
      + destruct (Hfr x Hx) as [-> _]; [|symmetry; apply Hv0].
        intros q Hq. by apply (root_not_child h this q) in Hq.
    - destruct (decide (x = this)) as [->|Hx].
      + destruct (inv_root h0'' Hi this ltac:(by left)) as [_ ->].
        destruct (Hv0 this) as (_ & _ & _ & ->).
        by destruct (inv_root h Hinv this Hroot) as [_ ->].
      + destruct (Hfr x Hx) as [_ ->]; [|symmetry; apply Hv0].
        intros q Hq. by apply (root_not_child h this q) in Hq. }
  assert (∀ x, parentOf h2 x = parentOf h0 x) as Hpar.
  { intros x. rewrite Hp0. destruct (decide (x = this)) as [->|Hx]; [done|].
    by rewrite Hpo2, Hpo1. }
  assert (∀ a l, kids h a l → kids h0 a l) as Hk0.
  { intros a l (H1 & H2 & H3 & H4). split_and!.
    - destruct (Hv0 a) as (_ & -> & _). done.
    - done.
    - intros c. rewrite H3. unfold is_child. rewrite Hp0.
      destruct (decide (c = this)) as [->|]; [|done].
      split; [|intros [_ ?]; done]. intros Hc. by apply (root_not_child h this a) in Hc.
    - eapply ring_frame; [|done]. intros y _. destruct (Hv0 y) as (_ & _ & -> & ->). done. }
  assert (∀ a l, kids h0 a l → kids h2 a l) as Hk02.
  { intros a l Hl.
    assert (is_Some (h !! a)) as Ha.
    { apply kids_parent_live in Hl. unfold h0 in Hl. rewrite lookup_insert in Hl.
      destruct (decide (this = a)) as [<-|]; [eauto|done]. }
    destruct (inv_kids h Hinv a Ha) as [l' Hl'].
    rewrite (kids_unique _ _ _ _ Hl (Hk0 a l' Hl')).
    assert (this ∉ l') as Hnin.
    { intros Hin. destruct Hl' as (_ & _ & Hc & _). apply Hc in Hin.
      by apply (root_not_child h this a) in Hin. }
    pose proof (Hk2 a _ (Hk1 a l' Hl')) as Hfin.
    unfold without in Hfin. rewrite filter_app in Hfin.
    fold (without this l') in Hfin. rewrite without_notin in Hfin by done.
    destruct (decide (a = p)).
    - rewrite filter_cons, decide_False in Hfin by (intros ?; done).
      by rewrite filter_nil, app_nil_r in Hfin.
    - by rewrite filter_nil, app_nil_r in Hfin. }
  apply map_eq. intros x.
  destruct (links_determined h0 h2 Hinv0 Hinv2 Hpar Hk02 x) as (Hf & Hn & Hpr).
  apply heap_lookup_ext; try done.
  rewrite Hs2, Hs1. symmetry. apply Hv0.
Qed.

Lemma attach_detach_round_trip_witness :
  ∃ h1, reparent 3%positive (Some 1%positive) heap1 = Some h1 ∧
        reparent 3%positive None h1
        = Some (<[3%positive := with_parent None (with_value "b" (new_Node Element 1 3%positive))]> heap1).
Proof.
  apply (attach_detach_round_trip heap1 3%positive 1%positive).
  - apply heap1_built.
  - right. vm_compute. reflexivity.
  - vm_compute. by eexists.
  - done.
  - vm_compute. reflexivity.
Defined.

(** X6: in a heap whose rings are sound [nextSibling] returns on every live
    node; on a node that has no parent it answers null; and a node it
    answers is another child of the same parent, and not the first one. *)
Theorem nextSibling_stays_among_siblings (h : Heap) (c : addr) :
  ring_inv h → is_Some (h !! c) →
  is_Some (nextSibling c h) ∧
  (is_root h c → nextSibling c h = Some None) ∧
  (∀ d, nextSibling c h = Some (Some d) →
        d ≠ c ∧ ∃ p, is_child h c p ∧ is_child h d p ∧ firstChild p h ≠ Some (Some d)).
Proof.
  intros Hinv Hc.
  assert (is_root h c → nextSibling c h = Some None) as Hroot.
  { intros Hr. destruct (inv_root h Hinv c Hr) as [Hn _].
    unfold nextSibling, nextOf in *. destruct (h !! c) as [n|]; [|done].
    simpl in *. injection Hn as ->. by rewrite decide_True. }
  destruct (root_or_child h c Hc) as [Hr|[p Hp]].
  - rewrite (Hroot Hr). split_and!; [eauto|done|discriminate].
  - pose proof (inv_parent h Hinv c p (proj2 Hp)) as Hpl.
    destruct (inv_kids h Hinv p Hpl) as [l Hl].
    pose proof Hl as (Hf & Hnd & Hch & _).
    assert (c ∈ l) as Hin by (by apply Hch).
    apply list_elem_of_split in Hin as (l1 & l2 & ->).
    rewrite (nextSibling_kids h p c l1 l2 Hl).
    split_and!; [eauto|intros Hr; by destruct (root_not_child h c p Hr)|]. intros d [= Hd].
    destruct l2 as [|d' l2]; simpl in Hd; [discriminate|]. injection Hd as ->.
    apply NoDup_app in Hnd as (Hnd1 & Hnd2 & Hnd3).
    apply NoDup_cons in Hnd3 as [Hnd3 _].
    split; [intros ->; set_solver|].
    exists p. split; [done|]. split; [apply Hch; set_solver|].
    unfold firstChild, firstOf in *. destruct (h !! p); simpl in *; [|done].
    injection Hf as ->. destruct l1 as [|x l1]; simpl.
    + intros [= ->]. set_solver.
    + intros [= ->]. apply (Hnd2 d); set_solver.
Qed.

Lemma nextSibling_stays_among_siblings_witness :
  is_Some (nextSibling 2%positive heap3) ∧
  (is_root heap3 2%positive → nextSibling 2%positive heap3 = Some None) ∧
  (∀ d, nextSibling 2%positive heap3 = Some (Some d) →
        d ≠ 2%positive ∧
        ∃ p, is_child heap3 2%positive p ∧ is_child heap3 d p ∧
             firstChild p heap3 ≠ Some (Some d)).
Proof.
  apply (nextSibling_stays_among_siblings heap3 2%positive).
  - apply heap3_built.
  - vm_compute. by eexists.
Defined.

(** * Further properties of [clear] and the destructor *)

Lemma kids_cleared (this : addr) (h h' : Heap) (a : addr) (l : list addr) :
  cleared this h h' → a ≠ this → ¬ descendant h a this → kids h a l → kids h' a l.
Proof.
  intros Hcl Ha Hnd Hl. pose proof Hl as (H1 & H2 & H3 & H4).
  destruct (cleared_this _ _ _ Hcl) as (n & En & En').
  assert (∀ x, x ∈ l → parentOf h' x = parentOf h x ∧ nextOf h' x = nextOf h x ∧
                        prevOf h' x = prevOf h x) as Hm.
  { intros x Hx. destruct (decide (x = this)) as [->|Hxt].
    - unfold parentOf, nextOf, prevOf. rewrite En, En'. done.
    - assert (h' !! x = h !! x) as E.
      { apply (cleared_frame _ _ _ Hcl); [done|]. intros Hd. apply H3 in Hx.
        inversion Hd as [? ? Hc|? y ? Hc Hy]; subst.
        - apply Ha. eapply is_child_unique; done.
        - rewrite (is_child_unique _ _ _ _ Hc Hx) in Hy. done. }
      unfold parentOf, nextOf, prevOf. by rewrite E. }
  split_and!.
  - unfold firstOf in *. by rewrite (cleared_frame _ _ _ Hcl a Ha Hnd).
  - done.
  - intros c. split.
    + intros Hc. destruct (Hm c Hc) as (Hp & _). apply H3 in Hc as [? ?].
      split; [done|]. by rewrite Hp.
    + intros Hc. apply H3. eapply cleared_is_child; done.
  - eapply ring_frame; [|done]. intros y Hy. destruct (Hm y Hy) as (_ & -> & ->). done.
Qed.

(** X7: [clear] leaves the node where it is: its parent, if it has one, has
    the same children in the same order, the node among them, and the
    type, closing type and parent of the node are as before. *)
Theorem clear_keeps_node_in_place (h : Heap) (this : addr) (rk : addr → nat) :
  ring_inv h → ranked h rk → is_Some (h !! this) →
  ∃ f0 h', (∀ f, f0 ≤ f → clear f this h = Some h') ∧
    parentOf h' this = parentOf h this ∧
    typeOf h' this = typeOf h this ∧
    (_closingType <$> h' !! this) = (_closingType <$> h !! this) ∧
    (∀ a l, a ≠ this → ¬ descendant h a this → kids h a l → kids h' a l) ∧
    (∀ p l, is_child h this p → kids h p l → kids h' p l ∧ this ∈ l).
Proof.
  intros Hinv Hrk Hthis.
  destruct (clear_total rk (rk this) (size h) h this Hinv Hrk Hthis ltac:(lia) ltac:(lia))
    as (f0 & h' & Hf & Hcl).
  destruct (cleared_this _ _ _ Hcl) as (n & En & En').
  exists f0, h'. split; [done|].
  split; [unfold parentOf; by rewrite En, En'|].
  split; [unfold typeOf; by rewrite En, En'|].
  split; [by rewrite En, En'|].
  split; [intros a l; by apply kids_cleared|].
  intros p l Hp Hl. split.
  - eapply kids_cleared; [done| | |done].
    + intros ->. by destruct Hp.
    + intros Hd. apply (descendant_rank h rk) in Hd; [|done]. apply Hrk in Hp. lia.
  - destruct Hl as (_ & _ & Hc & _). by apply Hc.
Qed.

Lemma clear_keeps_node_in_place_witness :
  ∃ f0 h', (∀ f, f0 ≤ f → clear f 3%positive heap_nested = Some h') ∧
    parentOf h' 3%positive = parentOf heap_nested 3%positive ∧
    typeOf h' 3%positive = typeOf heap_nested 3%positive ∧
    (_closingType <$> h' !! 3%positive) = (_closingType <$> heap_nested !! 3%positive) ∧
    (∀ a l, a ≠ 3%positive → ¬ descendant heap_nested a 3%positive →
            kids heap_nested a l → kids h' a l) ∧
    (∀ p l, is_child heap_nested 3%positive p → kids heap_nested p l →
            kids h' p l ∧ 3%positive ∈ l).
Proof.
  apply (clear_keeps_node_in_place heap_nested 3%positive
           (λ x, if decide (x = 1%positive) then 2
                 else if decide (x = 3%positive) then 1 else 0)).
  - apply heap_nested_built.
  - apply ranked_heap_nested.
  - vm_compute. by eexists.
Defined.

(** [clear] on [b], which has the child [c] and is the second child of
    the document: [c] is destroyed and [b] is still the second child. *)
Example clear_nested_child :
  firstChild 3%positive heap_nested = Some (Some 4%positive) ∧
  children 5 1%positive heap_nested = Some [2; 3]%positive ∧
  ∃ h', clear 5 3%positive heap_nested = Some h' ∧
        h' !! 4%positive = None ∧
        children 5 1%positive h' = Some [2; 3]%positive ∧
        parentOf h' 3%positive = Some (Some 1%positive).
Proof. split_and!; [..|eexists; split_and!]; vm_compute; reflexivity. Qed.

(** X8: [delete] on a node that has no parent: with enough fuel the
    destructor returns, the node and its descendants are gone, every node
    outside that tree and every list of children outside it are as they
    were, and the heap is well formed. *)
Theorem delete_destroys_tree (h : Heap) (node : addr) :
  wf h → is_root h node →
  ∃ f0 h', (∀ f, f0 ≤ f → delete_Node (clear f) node h = Some h') ∧
    wf h' ∧ h' !! node = None ∧
    (∀ x, descendant h x node → h' !! x = None) ∧
    (∀ x, outside h node x → h' !! x = h !! x) ∧
    (∀ a l, outside h node a → kids h a l → kids h' a l).
Proof.
  intros Hwf Hroot.
  destruct (delete_Node_root h node Hwf Hroot) as (f0 & h' & Hf & Hwf' & Hout & Hn & Hd & Hsub).
  exists f0, h'. split_and!; try done.
  intros a l Ha Hl. by apply (kids_outside h h' node a l).
Qed.

Lemma delete_destroys_tree_witness :
  ∃ f0 h', (∀ f, f0 ≤ f → delete_Node (clear f) 1%positive heap1 = Some h') ∧
    wf h' ∧ h' !! 1%positive = None ∧
    (∀ x, descendant heap1 x 1%positive → h' !! x = None) ∧
    (∀ x, outside heap1 1%positive x → h' !! x = heap1 !! x) ∧
    (∀ a l, outside heap1 1%positive a → kids heap1 a l → kids h' a l).
Proof.
  apply (delete_destroys_tree heap1 1%positive).
  - split; [apply heap1_built|]. eexists. apply ranked_heap1.
  - right. vm_compute. reflexivity.
Defined.

(** The destructor on the document of [heap1], whose one child is [a],
    while [b] and [c] are nodes of their own: the document and [a] are
    released, [b] and [c] are as they were. *)
Example delete_document_beside_others :
  is_child heap1 2%positive 1%positive ∧
  outside heap1 1%positive 3%positive ∧ outside heap1 1%positive 4%positive ∧
  ∃ h', delete_Node (clear 5) 1%positive heap1 = Some h' ∧
        h' !! 1%positive = None ∧ h' !! 2%positive = None ∧
        h' !! 3%positive = heap1 !! 3%positive ∧ h' !! 4%positive = heap1 !! 4%positive.
Proof.
  assert (∀ x, x = 3%positive ∨ x = 4%positive → outside heap1 1%positive x) as Hout.
  { intros x Hx. split; [by destruct Hx as [-> | ->]|]. intros Hd.
    assert (is_root heap1 x) as Hr by (right; destruct Hx as [-> | ->]; vm_compute; reflexivity).
    inversion Hd as [? ? Hc|? y ? Hc _]; subst;
      [by apply (root_not_child heap1 x 1%positive)|by apply (root_not_child heap1 x y)]. }
  split_and!; [split; [done|vm_compute; reflexivity]|apply Hout; by left|apply Hout; by right|].
  eexists; split_and!; vm_compute; reflexivity.
Qed.

Lemma kids_delete (h : Heap) (c a : addr) (l : list addr) :
  ring_inv h → is_root h c → firstOf h c = Some None → a ≠ c →
  kids h a l → kids (delete c h) a l.
Proof.
  intros Hinv Hroot Hfc Hac Hl. pose proof Hl as (H1 & H2 & H3 & H4).
  assert (c ∉ l) as Hcl.
  { intros Hin. apply H3 in Hin. by apply (root_not_child h c a). }
  split_and!.
  - unfold firstOf. by rewrite lookup_delete_ne.
  - done.
  - intros x. rewrite H3. unfold is_child, parentOf.
    destruct (decide (x = c)) as [->|Hx]; [|by rewrite lookup_delete_ne].
    rewrite lookup_delete_eq. simpl. split; [|intros [_ ?]; done].
    intros Hc. by apply (root_not_child h c a) in Hc.
  - eapply ring_frame; [|done]. intros y Hy.
    assert (y ≠ c) by (intros ->; done).
    unfold nextOf, prevOf. by rewrite lookup_delete_ne.
Qed.

(** X9: [delete] on any live node of a well-formed heap: with enough fuel
    the destructor returns; the node and its descendants are gone; the
    rings stay sound and the nodes still form trees; and every node
    outside the destroyed tree has the children it had but the node, in
    the same order. *)
Theorem delete_removes_node (h : Heap) (c : addr) (rk : addr → nat) :
  ring_inv h → ranked h rk → is_Some (h !! c) →
  ∃ f0 h', (∀ f, f0 ≤ f → delete_Node (clear f) c h = Some h') ∧
    ring_inv h' ∧ ranked h' rk ∧ h' !! c = None ∧
    (∀ x, descendant h x c → h' !! x = None) ∧
    (∀ a l, a ≠ c → ¬ descendant h a c → kids h a l → kids h' a (without c l)).
Proof.
  intros Hinv Hrk Hc.
  destruct (clear_total rk (rk c) (size h) h c Hinv Hrk Hc ltac:(lia) ltac:(lia))
    as (f0 & h1 & Hf & Hcl).
  pose proof (cleared_inv _ _ _ Hcl) as Hinv1.
  destruct (cleared_this _ _ _ Hcl) as (n & En & En1).
  destruct (reparent_None_spec h1 c Hinv1 ltac:(eauto))
    as (h2 & E2 & Hinv2 & Hpa2 & Hpo2 & Hs2 & Hk2 & _ & Hfi2).
  assert (firstOf h2 c = Some None) as Hfc2.
  { rewrite Hfi2; [unfold firstOf; by rewrite En1|]. intros q Hq ->. by destruct Hq. }
  assert (∀ x, is_Some (h2 !! x) ↔ is_Some (h1 !! x)) as Hlive2.
  { intros x. by rewrite !live_scalarsOf, Hs2. }
  exists f0, (delete c h2). split.
  { intros f Hle. unfold delete_Node. rewrite Hf by done. simpl. by rewrite E2. }
  split; [apply ring_inv_delete; [done|by left|done]|].
  split.
  { intros a b [Hab Hp].
    assert (a ≠ c) as Hac.
    { intros ->. unfold parentOf in Hp. by rewrite lookup_delete_eq in Hp. }
    unfold parentOf in Hp. rewrite lookup_delete_ne in Hp by done.
    fold (parentOf h2 a) in Hp. rewrite Hpo2 in Hp by done.
    apply Hrk. eapply cleared_is_child; [done|]. by split. }
  split; [apply lookup_delete_eq|].
  split.
  - intros x Hd. destruct (decide (x = c)) as [->|Hx]; [apply lookup_delete_eq|].
    rewrite lookup_delete_ne by done.
    pose proof (cleared_descendant _ _ _ _ Hcl Hd) as E.
    destruct (h2 !! x) eqn:E2x; [|done].
    assert (is_Some (h1 !! x)) as Hs by (apply Hlive2; eauto).
    rewrite E in Hs. by destruct Hs.
  - intros a l Ha Hnd Hl.
    apply kids_delete; [done|by left|done|done|].
    apply Hk2. by apply (kids_cleared c h h1).
Qed.

Lemma delete_removes_node_witness :
  ∃ f0 h', (∀ f, f0 ≤ f → delete_Node (clear f) 3%positive heap3 = Some h') ∧
    ring_inv h' ∧ ranked h' (λ x, if decide (x = 1%positive) then 1 else 0) ∧
    h' !! 3%positive = None ∧
    (∀ x, descendant heap3 x 3%positive → h' !! x = None) ∧
    (∀ a l, a ≠ 3%positive → ¬ descendant heap3 a 3%positive → kids heap3 a l →
            kids h' a (without 3%positive l)).
Proof.
  apply (delete_removes_node heap3 3%positive
           (λ x, if decide (x = 1%positive) then 1 else 0)).
  - apply heap3_built.
  - apply ranked_heap3.
  - vm_compute. by eexists.
Defined.

Example delete_middle_child :
  ∃ h', delete_Node (clear 5) 3%positive heap3 = Some h' ∧
        children 5 1%positive h' = Some [2; 4]%positive.
Proof. eexists; split; vm_compute; reflexivity. Qed.

(** * What [reparent] does not check *)

(** X10: [reparent] does not look for cycles: it attaches a node that has no
    parent under any of its own descendants.  The rings stay sound, but
    the node is then its own descendant and the nodes no longer form
    trees. *)
Theorem reparent_under_descendant_makes_cycle (h : Heap) (this d : addr) :
  ring_inv h → is_root h this → descendant h d this →
  ∃ h', reparent this (Some d) h = Some h' ∧ ring_inv h' ∧
    is_child h' this d ∧ descendant h' this this ∧ ∀ rk, ¬ ranked h' rk.
Proof.
  intros Hinv Hroot Hd.
  assert (d ≠ this ∧ is_Some (h !! d)) as [Hne Hlive].
  { inversion Hd as [x a [H1 H2]|x y a [H1 H2] _]; subst;
      (split; [|apply live_parentOf; rewrite H2; eauto]).
    - done.
    - intros ->. by apply (root_not_child h this y). }
  destruct (reparent_root_spec h this d Hinv Hroot Hlive Hne)
    as (h' & E & Hinv' & Hpa & Hpo & _).
  assert (is_child h' this d) as Hch by (split; [done|done]).
  assert (descendant h' d this) as Hd'.
  { eapply descendant_mono; [|exact Hd].
    intros c q [Hcq Hq]. split; [done|]. rewrite Hpo; [done|].
    intros ->. by apply (root_not_child h this q). }
  assert (descendant h' this this) as Hcyc by (eapply desc_step; done).
  exists h'. split_and!; try done.
  intros rk Hrk. pose proof (descendant_rank h' rk this this Hrk Hcyc). lia.
Qed.

Lemma reparent_under_descendant_makes_cycle_witness :
  ∃ h', reparent 1%positive (Some 3%positive) heap3 = Some h' ∧ ring_inv h' ∧
    is_child h' 1%positive 3%positive ∧ descendant h' 1%positive 1%positive ∧
    ∀ rk, ¬ ranked h' rk.
Proof.
  apply (reparent_under_descendant_makes_cycle heap3 1%positive 3%positive).
  - apply heap3_built.
  - right. vm_compute. reflexivity.
  - apply desc_child. split; [done|]. vm_compute. reflexivity.
Defined.

(** X11: after a node that has no parent was attached under its first child,
    which had no child of its own, [clear] returns on neither of the two:
    each destroys its first child, which first clears itself, and so
    destroys the other. *)
Theorem clear_never_returns_on_cycle (h : Heap) (this c : addr) :
  ring_inv h → is_root h this →
  firstChild this h = Some (Some c) → firstChild c h = Some None →
  ∃ h', reparent this (Some c) h = Some h' ∧
    firstChild this h' = Some (Some c) ∧ firstChild c h' = Some (Some this) ∧
    ∀ f, clear f this h' = None ∧ clear f c h' = None.
Proof.
  intros Hinv Hroot Hfc Hfcc.
  assert (is_Some (h !! this)) as Hthis by (by apply is_root_live).
  assert (is_Some (h !! c)) as Hc.
  { unfold firstChild in Hfcc. destruct (h !! c); [eauto|discriminate]. }
  destruct (inv_kids h Hinv this Hthis) as [l Hl].
  destruct (inv_kids h Hinv c Hc) as [lc Hlc].
  assert (firstOf h this = Some (Some c)) as Hfo.
  { unfold firstOf. unfold firstChild in Hfc. destruct (h !! this); [|discriminate].
    simpl in *. done. }
  assert (firstOf h c = Some None) as Hfoc.
  { unfold firstOf. unfold firstChild in Hfcc. destruct (h !! c); [|discriminate].
    simpl in *. done. }
  assert (head l = Some c) as Hhead by (destruct Hl as [H _]; congruence).
  assert (lc = []) as ->.
  { destruct Hlc as [H _]. rewrite Hfoc in H. destruct lc; [done|]. simpl in H. congruence. }
  assert (is_child h c this) as Hch.
  { destruct Hl as (_ & _ & H & _). apply H. destruct l; simpl in Hhead; [done|].
    injection Hhead as ->. set_solver. }
  assert (c ≠ this) as Hne by apply Hch.
  destruct (reparent_root_spec h this c Hinv Hroot Hc Hne)
    as (h' & E & _ & _ & _ & _ & Hk & _).
  exists h'. split; [done|].
  pose proof (Hk this l Hl) as Hl'. rewrite decide_False, app_nil_r in Hl' by done.
  pose proof (Hk c [] Hlc) as Hlc'. rewrite decide_True in Hlc' by done. simpl in Hlc'.
  assert (∀ a b, firstOf h' a = Some (Some b) →
            ∃ n, h' !! a = Some n ∧ _firstChild n = Some b) as Hview.
  { intros a b H. unfold firstOf in H. destruct (h' !! a) as [n|]; [|discriminate].
    exists n. simpl in H. split; congruence. }
  destruct (Hview this c) as (tn & Etn & Etf); [destruct Hl' as [-> _]; by rewrite Hhead|].
  destruct (Hview c this) as (cn & Ecn & Ecf); [by destruct Hlc' as [-> _]|].
  split_and!.
  - unfold firstChild. rewrite Etn. simpl. congruence.
  - unfold firstChild. rewrite Ecn. simpl. congruence.
  - intros f. induction f as [|f [IH1 IH2]]; [done|]. split.
    + cbn [clear]. rewrite Etn. cbn [mbind option_bind]. rewrite Etf.
      unfold delete_Node. by rewrite IH2.
    + cbn [clear]. rewrite Ecn. cbn [mbind option_bind]. rewrite Ecf.
      unfold delete_Node. by rewrite IH1.
Qed.

Lemma clear_never_returns_on_cycle_witness :
  ∃ h', reparent 1%positive (Some 2%positive) heap3 = Some h' ∧
    firstChild 1%positive h' = Some (Some 2%positive) ∧
    firstChild 2%positive h' = Some (Some 1%positive) ∧
    ∀ f, clear f 1%positive h' = None ∧ clear f 2%positive h' = None.
Proof.
  apply (clear_never_returns_on_cycle heap3 1%positive 2%positive).
  - apply heap3_built.
  - right. vm_compute. reflexivity.
  - vm_compute. reflexivity.
  - vm_compute. reflexivity.
Defined.

(** * Further properties of [parseContinue] *)

Lemma after_refl (p : Parser) : after p p.
Proof. split; done. Qed.

Lemma after_trans (p1 p2 p3 : Parser) : after p1 p2 → after p2 p3 → after p1 p3.
Proof. intros [H1 H2] [H3 H4]. split; etrans; done. Qed.

Lemma after_errorAtLine (p : Parser) (line : N) (msg : string) :
  after p (errorAtLine p line msg).
Proof. split; [done|]. by apply prefix_app_r. Qed.

Lemma after_identify (p p1 : Parser) (h h1 : Heap) (o : option addr) :
  identify p h = (o, p1, h1) → after p p1.
Proof.
  unfold identify. destruct p as [inp rep]. simpl.
  destruct inp as [|[r|] rest]; intros [= <- <- <-]; split; simpl; try done;
    by apply suffix_cons_r.
Qed.

Lemma after_checkPreceding (fuel : nat) :
  ∀ node ch ok p h ok' p',
    checkPreceding fuel node ch ok p h = Some (ok', p') → after p p'.
Proof.
  induction fuel as [|f IH]; intros node ch ok p h ok' p'.
  - simpl. destruct ok; [|intros [= _ <-]; apply after_refl].
    destruct ch; [done|]. intros [= _ <-]. apply after_refl.
  - cbn [checkPreceding]. destruct ok; [|intros [= _ <-]; apply after_refl].
    destruct ch as [c|]; [|intros [= _ <-]; apply after_refl].
    destruct (h !! c) as [cn|]; [|done]. cbn [mbind option_bind].
    destruct (decide (node_type cn = Declaration)).
    + cbn [mbind option_bind]. destruct (nextSibling c h) as [nx|]; [|done].
      cbn [mbind option_bind]. apply IH.
    + destruct (lineNumber node h) as [line|]; [|done]. cbn [mbind option_bind].
      destruct (nextSibling c h) as [nx|]; [|done]. cbn [mbind option_bind].
      intros E. apply IH in E. eapply after_trans; [apply after_errorAtLine|done].
Qed.

Lemma after_specialChecks (fuel : nat) (this node : addr) (p p' : Parser) (h : Heap)
    (ok : bool) :
  specialChecks fuel this node p h = Some (ok, p') → after p p'.
Proof.
  unfold specialChecks. destruct (h !! node) as [nn|]; [|done]. cbn [mbind option_bind].
  destruct (decide (node_type nn = Declaration)); [|intros [= _ <-]; apply after_refl].
  destruct (h !! this) as [tn|]; [|done]. cbn [mbind option_bind].
  destruct (decide (node_type tn = Document)).
  - cbn [mbind option_bind]. destruct (firstChild this h) as [fc|]; [|done].
    cbn [mbind option_bind]. apply after_checkPreceding.
  - destruct (lineNumber node h) as [line|]; [|done]. cbn [mbind option_bind].
    destruct (firstChild this h) as [fc|]; [|done]. cbn [mbind option_bind].
    intros E. apply after_checkPreceding in E.
    eapply after_trans; [apply after_errorAtLine|done].
Qed.

(** X12: whatever the heap and the context, a call that returns has consumed
    an initial part of the input and has only added entries at the end of
    the report: no entry is dropped or changed. *)
Theorem parseContinue_appends_to_report (fuel : nat) :
  ∀ this result p h r p' h',
    parseLoop fuel this result p h = Some (r, p', h') →
    input p' `suffix_of` input p ∧ report p `prefix_of` report p'.
Proof.
  change (∀ this result p h r p' h',
            parseLoop fuel this result p h = Some (r, p', h') → after p p').
  induction fuel as [|f IH]; intros this result p h r p' h'; [done|].
  cbn [parseLoop]. destruct (identify p h) as [[[node|] p1] h1] eqn:Eid.
  2:{ intros [= _ <- _]. by apply after_identify in Eid. }
  apply after_identify in Eid.
  unfold readNode.
  destruct (parseLoop f node true p1 h1) as [[[ok pn] hn]|] eqn:En; [|done].
  apply IH in En. cbn [mbind option_bind]. destruct ok.
  - destruct (specialChecks f this node pn hn) as [[ok2 p2]|] eqn:Es; [|done].
    apply after_specialChecks in Es. cbn [mbind option_bind]. destruct ok2.
    + destruct (reparent node (Some this) hn) as [h3|]; [|done]. cbn [mbind option_bind].
      intros E. apply IH in E. repeat (eapply after_trans; [done|]). done.
    + destruct (delete_Node (clear f) node hn) as [h3|]; [|done]. cbn [mbind option_bind].
      intros E. apply IH in E. repeat (eapply after_trans; [done|]). done.
  - destruct (lineNumber node hn) as [line|]; [|done]. cbn [mbind option_bind].
    destruct (delete_Node (clear f) node hn) as [h3|]; [|done]. cbn [mbind option_bind].
    intros E. apply IH in E.
    eapply after_trans; [done|]. eapply after_trans; [done|].
    eapply after_trans; [apply after_errorAtLine|done].
Qed.

Lemma parseContinue_appends_to_report_witness :
  input (mkParser [elt "z" 9 CLOSED] [(0%N, "earlier"%string); (2%N, msg_not_at_beginning)])
    `suffix_of`
    input (mkParser [elt "a" 1 CLOSED; None; decl 2; None; None; elt "z" 9 CLOSED]
                    [(0%N, "earlier"%string)]) ∧
  report (mkParser [elt "a" 1 CLOSED; None; decl 2; None; None; elt "z" 9 CLOSED]
                   [(0%N, "earlier"%string)])
    `prefix_of`
    report (mkParser [elt "z" 9 CLOSED] [(0%N, "earlier"%string); (2%N, msg_not_at_beginning)]).
Proof.
  apply (parseContinue_appends_to_report 10 1%positive true
           (mkParser [elt "a" 1 CLOSED; None; decl 2; None; None; elt "z" 9 CLOSED]
                     [(0%N, "earlier"%string)]) doc0 false
           (mkParser [elt "z" 9 CLOSED] [(0%N, "earlier"%string); (2%N, msg_not_at_beginning)])
           (<[1%positive := with_firstChild (Some 2%positive) (new_Node Document 1 1%positive)]>
              (<[2%positive := with_parent (Some 1%positive)
                                 (with_closingType CLOSED
                                    (with_value "a" (new_Node Element 1 2%positive)))]> ∅))).
  vm_compute. reflexivity.
Defined.

(** X13: whatever it returns, the call keeps the heap well formed and the
    context without a parent; the children the context had stay first, in
    their order, followed by the candidates the call attached, in the
    order [identify] yielded them; every node that was live keeps its
    scalar fields and its parent; and every other node has the children it
    had. *)
Theorem parseContinue_keeps_existing_nodes (inp : list (option RawNode))
    (rep : list (N * string)) (h : Heap) (this : addr) (l0 : list addr) :
  wf h → is_root h this → kids h this l0 →
  ∃ f0 r p' h' tr,
    (∀ f, f0 ≤ f →
       parseContinue f this (mkParser inp rep) h = Some (r, p', h') ∧
       loopTrace f this (mkParser inp rep) h = Some tr) ∧
    wf h' ∧ is_root h' this ∧
    children (length (l0 ++ attached tr)) this h' = Some (l0 ++ attached tr) ∧
    (∀ x, is_Some (h !! x) →
          scalarsOf h' x = scalarsOf h x ∧ parentOf h' x = parentOf h x) ∧
    (∀ a l, a ≠ this → kids h a l → kids h' a l).
Proof.
  intros Hwf Hroot Hl0.
  destruct (parseLoop_total (length inp) inp rep h this true ltac:(lia) Hwf Hroot)
    as (f0 & r & p' & h' & tr & Hf & Hp).
  exists f0, r, p', h', tr. split; [done|]. split_and!.
  - apply (parsed_wf _ _ _ _ _ _ _ _ Hp).
  - unfold is_root.
    destruct (parsed_same _ _ _ _ _ _ _ _ Hp this (is_root_live _ _ Hroot)) as [_ ->]. done.
  - apply children_kids; [|done]. by apply (parsed_kids _ _ _ _ _ _ _ _ Hp).
  - apply (parsed_same _ _ _ _ _ _ _ _ Hp).
  - apply (parsed_others _ _ _ _ _ _ _ _ Hp).
Qed.

Lemma parseContinue_keeps_existing_nodes_witness :
  ∃ f0 r p' h' tr,
    (∀ f, f0 ≤ f →
       parseContinue f 1%positive (mkParser two_errors []) heap3 = Some (r, p', h') ∧
       loopTrace f 1%positive (mkParser two_errors []) heap3 = Some tr) ∧
    wf h' ∧ is_root h' 1%positive ∧
    children (length ([2; 3; 4]%positive ++ attached tr)) 1%positive h'
      = Some ([2; 3; 4]%positive ++ attached tr) ∧
    (∀ x, is_Some (heap3 !! x) →
          scalarsOf h' x = scalarsOf heap3 x ∧ parentOf h' x = parentOf heap3 x) ∧
    (∀ a l, a ≠ 1%positive → kids heap3 a l → kids h' a l).
Proof.
  apply (parseContinue_keeps_existing_nodes two_errors [] heap3 1%positive).
  - split; [apply heap3_built|]. eexists. apply ranked_heap3.
  - right. vm_compute. reflexivity.
  - apply heap3_built.
Defined.







(** The nodes built during the call that are live when it returns are
    under the context. *)
Lemma parseLoop_no_orphan (n : nat) :
  ∀ inp rep h this result, length inp ≤ n → wf h → is_root h this →
  ∃ f0 r p' h' tr,
    (∀ f, f0 ≤ f → parseLoop f this result (mkParser inp rep) h = Some (r, p', h')) ∧
    parsed this result (mkParser inp rep) h r p' h' tr ∧
    (∀ x, is_Some (h' !! x) → is_Some (h !! x) ∨ descendant h' x this).
Proof.
  induction n as [n IH] using lt_wf_ind.
  intros inp rep h this result Hlen Hwf Hroot.
  destruct (parseLoop_total (length inp) inp rep h this result ltac:(lia) Hwf Hroot)
    as (f0 & r & p' & h' & tr & Hf & Hp).
  exists f0, r, p', h', tr. split; [intros f Hle; apply Hf, Hle|]. split; [done|].
  destruct inp as [|[raw|] rest].
  - destruct (Hf (S f0) ltac:(lia)) as [E _]. simpl in E.
    injection E as _ _ <-. intros x Hx. by left.
  - pose proof Hwf as [Hinv _].
    assert (is_Some (h !! this)) as [tn Etn] by (by apply is_root_live).
    destruct (inv_kids h Hinv this ltac:(eauto)) as [l0 Hl0].
    destruct (candidate_spec h this raw rest rep l0 tn Hwf Hroot Hl0 Etn)
      as (fc & ok & pn & hn & h3 & nested & Hc & _ & _ & Hwf3 & Hroot3 & _ & Hnode3).
    set (node := fresh (dom h)) in *.
    set (h1 := <[node := candidate raw node]> h) in *.
    set (v := verdict ok (raw_type raw) (node_type tn) (all_declarations h l0)
                      (raw_line raw)) in *.
    pose proof (fresh_not_live h) as Hfresh. fold node in Hfresh.
    assert (wf h1) as Hwf1 by (apply wf_alloc; [done|done|apply constructed_identify]).
    assert (node ≠ this) as Hne by (intros E; rewrite E in Hfresh; congruence).
    assert (is_root h1 node) as Hrootn.
    { right. unfold parentOf, h1. by rewrite lookup_insert_eq. }
    simpl in Hlen.
    (* the candidate's own parse *)
    destruct (IH (length rest) ltac:(lia) rest rep h1 node true ltac:(lia) Hwf1 Hrootn)
      as (f1 & ok' & pn' & hn' & trn & Hf1 & Hpn & NLn).
    assert (ok' = ok ∧ pn' = pn ∧ hn' = hn) as (-> & -> & ->).
    { destruct (Hc (Nat.max fc f1) ltac:(lia)) as (E1 & _).
      pose proof (Hf1 (Nat.max fc f1) ltac:(lia)) as E2.
      unfold parseContinue in E1. rewrite E1 in E2. by injection E2 as -> -> ->. }
    pose proof (parsed_wf _ _ _ _ _ _ _ _ Hpn) as Hwfn.
    pose proof Hwfn as [Hinvn _].
    assert (is_Some (h1 !! node)) as Hlive1 by (unfold h1; rewrite lookup_insert_eq; eauto).
    assert (is_Some (h1 !! this)) as Hlivet.
    { unfold h1. rewrite lookup_insert_ne by done. eauto. }
    assert (is_root hn node) as Hrootnn.
    { unfold is_root. destruct (parsed_same _ _ _ _ _ _ _ _ Hpn node Hlive1) as [_ ->]. done. }
    assert (is_Some (hn !! this)) as Hlivetn.
    { apply live_scalarsOf. destruct (parsed_same _ _ _ _ _ _ _ _ Hpn this Hlivet) as [-> _].
      by apply live_scalarsOf. }
    (* what is live after the loop body *)
    assert (∀ x, is_Some (h3 !! x) → is_Some (h !! x) ∨ descendant h3 x this) as NL3.
    { destruct (v.1) eqn:Ev.
      - destruct (reparent_root_spec hn node this Hinvn Hrootnn Hlivetn ltac:(done))
          as (h3' & E3 & _ & Hpa & Hpo & Hs & _).
        assert (h3' = h3) as ->.
        { destruct (Hc fc ltac:(lia)) as (_ & _ & E & _). congruence. }
        assert (is_child h3 node this) as Hch by (by split).
        intros x Hx.
        assert (is_Some (hn !! x)) as Hxn.
        { apply live_scalarsOf. rewrite <- Hs. by apply live_scalarsOf. }
        destruct (NLn x Hxn) as [Hx1|Hd].
        + destruct (decide (x = node)) as [->|Hxne].
          * right. by apply desc_child.
          * left. unfold h1 in Hx1. by rewrite lookup_insert_ne in Hx1.
        + right. eapply descendant_child; [|exact Hch].
          eapply descendant_mono; [|exact Hd].
          intros c q [Hcq Hq]. split; [done|]. rewrite Hpo; [done|].
          intros ->. by apply (root_not_child hn node q).
      - destruct (delete_Node_root hn node Hwfn Hrootnn)
          as (fd & h3' & Ed & _ & _ & Hgone & Hdesc & Hsub).
        assert (h3' = h3) as ->.
        { destruct (Hc (Nat.max fc fd) ltac:(lia)) as (_ & _ & E & _).
          rewrite (Ed (Nat.max fc fd) ltac:(lia)) in E. congruence. }
        intros x Hx. left.
        destruct (Hsub x) as [E|E]; [rewrite E in Hx; by destruct Hx|].
        rewrite E in Hx. destruct (NLn x Hx) as [Hx1|Hd].
        + destruct (decide (x = node)) as [->|Hxne].
          * rewrite Hgone in E. rewrite <- E in Hx. by destruct Hx.
          * unfold h1 in Hx1. by rewrite lookup_insert_ne in Hx1.
        + apply Hdesc in Hd. rewrite Hd in E. rewrite <- E in Hx. by destruct Hx. }
    (* the rest of the loop *)
    assert (length (input pn) ≤ length rest) as Hshort.
    { apply (parsed_input _ _ _ _ _ _ _ _ Hpn). }
    destruct (IH (length (input pn)) ltac:(lia) (input pn) (report pn ++ v.2) h3 this
                (if v.1 then result else false) ltac:(lia) Hwf3 Hroot3)
      as (f3 & r3 & p3 & h3' & tr3 & Hf3 & Hp3 & NLr).
    assert (h3' = h') as ->.
    { destruct (Hc (Nat.max (Nat.max fc f3) f0) ltac:(lia)) as (_ & _ & _ & Hstep).
      destruct (Hf (S (Nat.max (Nat.max fc f3) f0)) ltac:(lia)) as [E _].
      rewrite Hstep in E.
      change (report_more pn v.2) with (mkParser (input pn) (report pn ++ v.2)) in E.
      rewrite (Hf3 (Nat.max (Nat.max fc f3) f0) ltac:(lia)) in E. congruence. }
    intros x Hx. destruct (NLr x Hx) as [Hx3|Hd]; [|by right].
    destruct (NL3 x Hx3) as [?|Hd]; [by left|]. right.
    eapply descendant_mono; [|exact Hd].
    intros c q [Hcq Hq]. split; [done|].
    destruct (parsed_same _ _ _ _ _ _ _ _ Hp3 c) as [_ ->]; [|done].
    apply live_parentOf. rewrite Hq. eauto.
  - destruct (Hf (S f0) ltac:(lia)) as [E _]. simpl in E.
    injection E as _ _ <-. intros x Hx. by left.
Qed.

(** X17: the call leaves no node behind: every node that is live when it
    returns was live before the call, or is in the tree under the
    context.  The candidates the call rejected, and every node built
    under them, have been destroyed; and no node that was live before the
    call has been. *)
Theorem parseContinue_leaves_no_orphan (inp : list (option RawNode))
    (rep : list (N * string)) (h : Heap) (this : addr) :
  wf h → is_root h this →
  ∃ f0 r p' h',
    (∀ f, f0 ≤ f → parseContinue f this (mkParser inp rep) h = Some (r, p', h')) ∧
    (∀ x, is_Some (h' !! x) → is_Some (h !! x) ∨ descendant h' x this) ∧
    (∀ x, is_Some (h !! x) → is_Some (h' !! x)).
Proof.
  intros Hwf Hroot.
  destruct (parseLoop_no_orphan (length inp) inp rep h this true ltac:(lia) Hwf Hroot)
    as (f0 & r & p' & h' & tr & Hf & Hp & NL).
  exists f0, r, p', h'. split_and!; [done|done|].
  intros x Hx. apply live_scalarsOf.
  destruct (parsed_same _ _ _ _ _ _ _ _ Hp x Hx) as [-> _]. by apply live_scalarsOf.
Qed.

Lemma parseContinue_leaves_no_orphan_witness :
  ∃ f0 r p' h',
    (∀ f, f0 ≤ f →
       parseContinue f 1%positive (mkParser two_errors []) doc0 = Some (r, p', h')) ∧
    (∀ x, is_Some (h' !! x) → is_Some (doc0 !! x) ∨ descendant h' x 1%positive) ∧
    (∀ x, is_Some (doc0 !! x) → is_Some (h' !! x)).
Proof.
  apply (parseContinue_leaves_no_orphan two_errors [] doc0 1%positive).
  - apply wf_doc0.
  - apply root_doc0.
Defined.
